(** * autoscaler/notification.py: the Slack notifier of the autoscaler

    A shallow embedding of [autoscaler/notification.py] and the properties
    of its notification dispatcher: the fingerprint key of a direct
    message ([_cache_key]), the rendering of pod lists
    ([_generate_pod_string]), the four [notify_*] operations of
    [Notifier], the grouping of pods by owner ([message_owners]) and the
    memoised direct message ([message_owner]).

    Python strings are modelled by [string], read as the UTF-8 encoding of
    the text: [s.encode('utf-8')] is then the list of the bytes of [s], and
    the order of Python strings (by code point) is the lexicographic order
    of these bytes. *)

From Stdlib Require Import ZArith List String Ascii Bool Lia Permutation DecimalString.
Import ListNotations.

Local Open Scope string_scope.
Local Open Scope Z_scope.

(** ** hashlib.md5 (RFC 1321) *)

Module MD5.

Definition word := Z.
Definition byte := Z.

Definition mask32 (x : Z) : word := Z.land x 0xffffffff.
Definition add32 (x y : word) : word := mask32 (x + y).
Definition not32 (x : word) : word := Z.lxor x 0xffffffff.
Definition rotl32 (x : word) (s : Z) : word :=
  mask32 (Z.lor (Z.shiftl x s) (Z.shiftr x (32 - s))).

Definition F (x y z : word) := Z.lor (Z.land x y) (Z.land (not32 x) z).
Definition G (x y z : word) := Z.lor (Z.land x z) (Z.land y (not32 z)).
Definition H (x y z : word) := Z.lxor (Z.lxor x y) z.
Definition I (x y z : word) := Z.lxor y (Z.lor x (not32 z)).

(** [T[i] = floor(2^32 * abs(sin(i + 1)))]. *)
Definition T : list word :=
  [ 0xd76aa478; 0xe8c7b756; 0x242070db; 0xc1bdceee;
    0xf57c0faf; 0x4787c62a; 0xa8304613; 0xfd469501;
    0x698098d8; 0x8b44f7af; 0xffff5bb1; 0x895cd7be;
    0x6b901122; 0xfd987193; 0xa679438e; 0x49b40821;
    0xf61e2562; 0xc040b340; 0x265e5a51; 0xe9b6c7aa;
    0xd62f105d; 0x02441453; 0xd8a1e681; 0xe7d3fbc8;
    0x21e1cde6; 0xc33707d6; 0xf4d50d87; 0x455a14ed;
    0xa9e3e905; 0xfcefa3f8; 0x676f02d9; 0x8d2a4c8a;
    0xfffa3942; 0x8771f681; 0x6d9d6122; 0xfde5380c;
    0xa4beea44; 0x4bdecfa9; 0xf6bb4b60; 0xbebfbc70;
    0x289b7ec6; 0xeaa127fa; 0xd4ef3085; 0x04881d05;
    0xd9d4d039; 0xe6db99e5; 0x1fa27cf8; 0xc4ac5665;
    0xf4292244; 0x432aff97; 0xab9423a7; 0xfc93a039;
    0x655b59c3; 0x8f0ccc92; 0xffeff47d; 0x85845dd1;
    0x6fa87e4f; 0xfe2ce6e0; 0xa3014314; 0x4e0811a1;
    0xf7537e82; 0xbd3af235; 0x2ad7d2bb; 0xeb86d391 ].

(** Rotation amounts of the four rounds. *)
Definition S : list Z :=
  [ 7; 12; 17; 22; 7; 12; 17; 22; 7; 12; 17; 22; 7; 12; 17; 22;
    5; 9; 14; 20; 5; 9; 14; 20; 5; 9; 14; 20; 5; 9; 14; 20;
    4; 11; 16; 23; 4; 11; 16; 23; 4; 11; 16; 23; 4; 11; 16; 23;
    6; 10; 15; 21; 6; 10; 15; 21; 6; 10; 15; 21; 6; 10; 15; 21 ].

Record state := { sa : word; sb : word; sc : word; sd : word }.

Definition init : state :=
  {| sa := 0x67452301; sb := 0xefcdab89; sc := 0x98badcfe; sd := 0x10325476 |}.

(** Step [i] (0..63) of the compression of one block of sixteen words. *)
Definition step (m : list word) (st : state) (i : nat) : state :=
  let '(f, g) :=
    if (i <? 16)%nat then (F (sb st) (sc st) (sd st), i)
    else if (i <? 32)%nat then (G (sb st) (sc st) (sd st), (5 * i + 1) mod 16)%nat
    else if (i <? 48)%nat then (H (sb st) (sc st) (sd st), (3 * i + 5) mod 16)%nat
    else (I (sb st) (sc st) (sd st), (7 * i) mod 16)%nat in
  let f' := add32 (add32 (add32 f (sa st)) (nth i T 0)) (nth g m 0) in
  {| sa := sd st; sd := sc st; sc := sb st;
     sb := add32 (sb st) (rotl32 f' (nth i S 0)) |}.

Definition compress (st : state) (m : list word) : state :=
  let st' := fold_left (step m) (seq 0 64) st in
  {| sa := add32 (sa st) (sa st'); sb := add32 (sb st) (sb st');
     sc := add32 (sc st) (sc st'); sd := add32 (sd st) (sd st') |}.

(** Little-endian packing of bytes into 32-bit words and back. *)
Fixpoint words_of_bytes (n : nat) (bs : list byte) : list word :=
  match n with
  | O => []
  | Datatypes.S n' =>
      match bs with
      | b0 :: b1 :: b2 :: b3 :: bs' =>
          (b0 + Z.shiftl b1 8 + Z.shiftl b2 16 + Z.shiftl b3 24)
            :: words_of_bytes n' bs'
      | _ => []
      end
  end.

Definition bytes_of_int (width : nat) (w : Z) : list byte :=
  map (fun i => Z.land (Z.shiftr w (8 * Z.of_nat i)) 0xff) (seq 0 width).

(** Padding: the bit 1, zeros up to 56 modulo 64, the bit length on 64 bits. *)
Definition pad (bs : list byte) : list byte :=
  let len := Z.of_nat (List.length bs) in
  let zeros := Z.to_nat ((55 - len) mod 64) in
  bs ++ 0x80 :: repeat 0 zeros ++ bytes_of_int 8 (Z.land (8 * len) 0xffffffffffffffff).

Fixpoint blocks (n : nat) (st : state) (bs : list byte) : state :=
  match n with
  | O => st
  | Datatypes.S n' =>
      blocks n' (compress st (words_of_bytes 16 (firstn 64 bs))) (skipn 64 bs)
  end.

Definition digest (bs : list byte) : list byte :=
  let p := pad bs in
  let st := blocks (List.length p / 64) init p in
  bytes_of_int 4 (sa st) ++ bytes_of_int 4 (sb st)
    ++ bytes_of_int 4 (sc st) ++ bytes_of_int 4 (sd st).

Definition hex_digit (d : Z) : ascii :=
  nth (Z.to_nat d)
      (list_ascii_of_string "0123456789abcdef") "0"%char.

Fixpoint hex (bs : list byte) : string :=
  match bs with
  | [] => EmptyString
  | b :: bs' => String (hex_digit (Z.shiftr b 4))
                       (String (hex_digit (Z.land b 0xf)) (hex bs'))
  end.

(** The hash object: [update] appends to the data, [hexdigest] hashes it. *)
Definition t := list byte.
Definition new : t := [].
Definition update (h : t) (data : list byte) : t := (h ++ data)%list.
Definition hexdigest (h : t) : string := hex (digest h).

End MD5.

(** [s.encode('utf-8')]: the bytes of the string. *)
Definition encode (s : string) : list MD5.byte :=
  map (fun c => Z.of_N (N_of_ascii c)) (list_ascii_of_string s).

(** ** Python values the notifier handles *)

(** [str(n)] and ['{}'.format(n)] of an integer. *)
Definition str_int (n : Z) : string := NilZero.string_of_int (Z.to_int n).

(** [sep.join(items)]. *)
Definition join (sep : string) (items : list string) : string :=
  String.concat sep items.

(** A dict of node selectors. The notifier never looks inside one: it
    passes it on to the structured log and renders it with [json.dumps]. *)
Record Selectors := { json_dumps : string }.

Record Pod := {
  uid : string;
  namespace : string;
  name : string;
  owner : option string;
  selectors : Selectors
}.

(** An auto scaling group, with [str(asg)]. *)
Record ASG := {
  asg_name : string;
  asg_region : string;
  desired_capacity : Z;
  asg_str : string
}.

(** Truth value of an optional string ([None] and [''] are false). *)
Definition truthy (o : option string) : bool :=
  match o with
  | Some s => negb (s =? EmptyString)%string
  | None => false
  end.

Definition value_of (o : option string) : string :=
  match o with Some s => s | None => EmptyString end.

(** ['{}/{}'.format(pod.namespace, pod.name)]. *)
Definition pod_path (pod : Pod) : string := namespace pod ++ "/" ++ name pod.

(** [sorted(items, key=key)] on string keys: a stable sort, by insertion. *)
Fixpoint insort {A : Type} (key : A -> string) (x : A) (l : list A) : list A :=
  match l with
  | [] => [x]
  | y :: l' => if (key x <=? key y)%string then x :: y :: l'
               else y :: insort key x l'
  end.

Fixpoint sorted {A : Type} (key : A -> string) (l : list A) : list A :=
  match l with
  | [] => []
  | x :: l' => insort key x (sorted key l')
  end.

(** ** cachetools.TTLCache

    [cachetools] is a library that the module imports, not code of the
    repository. The model follows the [TTLCache] class of the library: a
    cache of at most [maxsize] entries in which an entry expires [ttl]
    after it was stored; a lookup makes the entry it finds the most
    recently used one and treats an expired entry as missing; a store
    first drops the expired entries, then the least recently used ones
    until the new entry fits.

    The cache of the notifier holds [None] under each key, so an entry is
    a key and the time at which it expires. The entries are kept from the
    least recently used to the most recently used. Time is the reading of
    the timer of the cache, which never goes back: the entries that
    [expire] drops are those whose expiry time has been reached. The
    properties below avoid the very instant of expiry, on which versions
    of the library differ. *)

Module TTLCache.

Record link := { key : string; expires : Z }.

Record t := { maxsize : nat; ttl : Z; links : list link }.

Definition new (maxsize : nat) (ttl : Z) : t :=
  {| maxsize := maxsize; ttl := ttl; links := [] |}.

Definition has_key (k : string) (l : link) : bool := (key l =? k)%string.

Definition getlink (k : string) (ls : list link) : option link :=
  find (has_key k) ls.

Definition remove (k : string) (ls : list link) : list link :=
  filter (fun l => negb (has_key k l)) ls.

Definition set_links (c : t) (ls : list link) : t :=
  {| maxsize := maxsize c; ttl := ttl c; links := ls |}.

(** [c[k]] at time [time]: [Some tt] is the cached [None], [None] is
    [KeyError]. A lookup that finds the key makes it the most recently
    used one, expired or not. *)
Definition getitem (c : t) (k : string) (time : Z) : option unit * t :=
  match getlink k (links c) with
  | None => (None, c)
  | Some l =>
      let c' := set_links c (remove k (links c) ++ [l])%list in
      if time <? expires l then (Some tt, c') else (None, c')
  end.

(** [expire(time)]: drop the entries whose time has come. *)
Definition expire (time : Z) (ls : list link) : list link :=
  filter (fun l => time <? expires l) ls.

(** [while currsize + 1 > maxsize: popitem()]: drop the least recently
    used entries until one more fits. *)
Fixpoint make_room (maxsize : nat) (ls : list link) : list link :=
  match ls with
  | [] => []
  | _ :: ls' => if (maxsize <? List.length ls + 1)%nat then make_room maxsize ls'
                else ls
  end.

(** [c[k] = None] at time [time]; [false] is [ValueError] (value too large). *)
Definition setitem (c : t) (k : string) (time : Z) : bool * t :=
  let ls := expire time (links c) in
  if (maxsize c <? 1)%nat then (false, set_links c ls)
  else
    let ls := match getlink k ls with
              | Some _ => ls
              | None => make_room (maxsize c) ls
              end in
    (true, set_links c (remove k ls ++ [{| key := k; expires := time + ttl c |}])%list).

(** The key is in the cache and has not expired at [time]. *)
Definition live (c : t) (k : string) (time : Z) : bool :=
  match getlink k (links c) with
  | Some l => time <? expires l
  | None => false
  end.

End TTLCache.

(** ** The notifier and the world around it *)

Record Notifier := {
  hook : option string;
  bot_token : option string;
  cache : TTLCache.t
}.

(** [Notifier.__init__]. *)
Definition Notifier__init__ (hook bot_token : option string) : Notifier :=
  {| hook := hook; bot_token := bot_token;
     cache := TTLCache.new 128 (60 * 30) |}.

Definition MESSAGE_URL : string := "https://slack.com/api/chat.postMessage".

Inductive Value :=
| VNone
| VStr (s : string)
| VInt (n : Z)
| VSelectors (s : Selectors)
| VJson (dicts : list (list (string * string))).

Definition dict := list (string * Value).

(** [d[k] = v]. *)
Fixpoint dict_set (d : dict) (k : string) (v : Value) : dict :=
  match d with
  | [] => [(k, v)]
  | (k', v') :: d' => if (k' =? k)%string then (k, v) :: d'
                      else (k', v') :: dict_set d' k v
  end.

(** [d.update(extra)]. *)
Definition dict_update (d extra : dict) : dict :=
  fold_left (fun d kv => dict_set d (fst kv) (snd kv)) extra d.

(** A call of [requests.post]: with [json=] (the web hook) or with
    [data=] (the chat API). *)
Inductive Request :=
| PostJson (url : string) (json : dict)
| PostData (url : string) (data : dict).

(** The exceptions a call can raise, by the [except] clauses that see
    them: [ConnectionError] is a [RequestException]. *)
Inductive exception_class :=
| ConnectionError
| OtherRequestException
| OtherException.

Record exception := { exc_class : exception_class; exc_str : string }.

Definition isinstance_ConnectionError (e : exception) : bool :=
  match exc_class e with ConnectionError => true | _ => false end.

Definition isinstance_RequestException (e : exception) : bool :=
  match exc_class e with
  | ConnectionError | OtherRequestException => true
  | OtherException => false
  end.

(** What the network answers to a request, and how long it takes. *)
Record Reply := { elapsed : N; response : string + exception }.

Inductive Event :=
| struct_logger_debug (message : string) (extra : dict)
| logger_debug (msg : string)
| logger_critical (msg : string)
| requests_post (req : Request).

Definition is_post (ev : Event) : bool :=
  match ev with requests_post _ => true | _ => false end.

(** The world: the answer of the network to the n-th request of the
    process, the monotonic clock, and what the process has done so far. *)
Record World := {
  network : nat -> Request -> Reply;
  clock : Z;
  trace : list Event
}.

(** ** Methods: state (the notifier, the world) and exceptions *)

Inductive Result (A : Type) :=
| Return (a : A)
| Raise (e : exception).

Arguments Return {A} a.
Arguments Raise {A} e.

Definition M (A : Type) : Type :=
  Notifier -> World -> Result A * Notifier * World.

Definition ret {A : Type} (a : A) : M A :=
  fun self w => (Return a, self, w).

Definition bind {A B : Type} (m : M A) (f : A -> M B) : M B :=
  fun self w =>
    match m self w with
    | (Return a, self', w') => f a self' w'
    | (Raise e, self', w') => (Raise e, self', w')
    end.

Declare Scope py_scope.
Delimit Scope py_scope with py.

Notation "x <- m ;; k" := (bind m (fun x => k))
  (at level 61, m at next level, right associativity) : py_scope.
Notation "m ;; k" := (bind m (fun _ => k))
  (at level 61, right associativity) : py_scope.

Local Open Scope py_scope.

(** [try: body except cls as e: handler(e)]. *)
Definition try_except {A : Type} (body : M A)
  (cls : exception -> bool) (handler : exception -> M A) : M A :=
  fun self w =>
    match body self w with
    | (Raise e, self', w') =>
        if cls e then handler e self' w' else (Raise e, self', w')
    | r => r
    end.

(** [for x in l: body(x)]. *)
Fixpoint for_each {A : Type} (l : list A) (body : A -> M unit) : M unit :=
  match l with
  | [] => ret tt
  | x :: l' => body x ;; for_each l' body
  end.

Definition emit (ev : Event) : M unit :=
  fun self w =>
    (Return tt, self,
     {| network := network w; clock := clock w; trace := (trace w ++ [ev])%list |}).

(** [requests.post]: the request goes out, time passes, and the call
    returns the text of the response or raises. *)
Definition post (req : Request) : M string :=
  fun self w =>
    let r := network w (List.length (filter is_post (trace w))) req in
    let w' := {| network := network w;
                 clock := clock w + Z.of_N (elapsed r);
                 trace := (trace w ++ [requests_post req])%list |} in
    match response r with
    | inl text => (Return text, self, w')
    | inr e => (Raise e, self, w')
    end.

Definition self_hook : M (option string) := fun self w => (Return (hook self), self, w).

Definition self_bot_token : M (option string) :=
  fun self w => (Return (bot_token self), self, w).

Definition set_cache (self : Notifier) (c : TTLCache.t) : Notifier :=
  {| hook := hook self; bot_token := bot_token self; cache := c |}.

(** [self.cache[k]], at the time of the clock. *)
Definition cache_getitem (k : string) : M (option unit) :=
  fun self w =>
    let '(v, c) := TTLCache.getitem (cache self) k (clock w) in
    (Return v, set_cache self c, w).

(** [self.cache[k] = None], at the time of the clock; [ValueError] is
    passed over, as the decorator does. *)
Definition cache_setitem (k : string) : M unit :=
  fun self w =>
    let '(_, c) := TTLCache.setitem (cache self) k (clock w) in
    (Return tt, set_cache self c, w).

(** ** autoscaler/notification.py *)

(** The data [_cache_key] feeds to the hash. *)
Definition _cache_key_data (owner message : string) (pods : list Pod) : MD5.t :=
  let md5 := MD5.new in
  let md5 := MD5.update md5 (encode owner) in
  let md5 := MD5.update md5 (encode message) in
  fold_left (fun md5 pod => MD5.update md5 (encode (uid pod)))
            (sorted uid pods) md5.

Definition _cache_key (notifier : Notifier) (owner message : string)
  (pods : list Pod) : string :=
  let md5 := _cache_key_data owner message pods in
  let key := "v0.md5." ++ MD5.hexdigest md5 in
  key.

Definition _generate_pod_string (pods : list Pod) : string :=
  if (5 <? List.length pods)%nat then
    join ", " (map pod_path (firstn 4 pods))
      ++ ", and " ++ str_int (Z.of_nat (List.length pods) - 4) ++ " others"
  else
    join ", " (map pod_path pods).

(** The keys that [logging] refuses in [extra]: [message], [asctime] and
    the attributes of a [LogRecord], here those of Python 3; Python 3.12
    adds [taskName], of which the properties below stay clear. *)
Definition LogRecord_attributes : list string :=
  [ "message"; "asctime"; "name"; "msg"; "args"; "levelname"; "levelno";
    "pathname"; "filename"; "module"; "exc_info"; "exc_text"; "stack_info";
    "lineno"; "funcName"; "created"; "msecs"; "relativeCreated"; "thread";
    "threadName"; "processName"; "process" ].

Definition is_LogRecord_attribute (k : string) : bool :=
  existsb (String.eqb k) LogRecord_attributes.

(** [KeyError("Attempt to overwrite %r in LogRecord" % key)], for a key
    that is one of the names above; the text of a [KeyError] is its
    message between quotes. *)
Definition KeyError_overwrite (key : string) : exception :=
  {| exc_class := OtherException;
     exc_str := String "034" ("Attempt to overwrite '" ++ key ++ "' in LogRecord"
                                ++ String "034" EmptyString) |}.

(** [struct_logger.debug(message, extra=log_extra)]: the logger is enabled
    for [DEBUG]; [Logger.makeRecord] raises [KeyError] at the first key of
    [log_extra] that it refuses, and the record is written otherwise. *)
Definition struct_logger__debug (message : string) (log_extra : dict) : M unit :=
  match find is_LogRecord_attribute (map fst log_extra) with
  | Some key => fun self w => (Raise (KeyError_overwrite key), self, w)
  | None => emit (struct_logger_debug message log_extra)
  end.

Definition struct_log (message : string) (pods : list Pod) (extra : dict) : M unit :=
  for_each pods (fun pod =>
    let log_extra :=
      [ ("pod_name", VStr (pod_path pod));
        ("pod_id", VStr (uid pod));
        ("_log_streaming_target_mapping", VStr "kubernetes-ec2-autoscaler") ] in
    let log_extra :=
      match extra with
      | [] => log_extra
      | _ => dict_update log_extra extra
      end in
    struct_logger__debug message log_extra).

(** The request a [notify_*] method posts to the web hook. *)
Definition hook_request (url message : string) : Request :=
  PostJson url
    [ ("text", VStr message);
      ("username", VStr "kubernetes-ec2-autoscaler");
      ("icon_emoji", VStr ":rabbit:") ].

(** The broadcast through the web hook, with its [try] and [except]. *)
Definition post_hook (url message : string) : M unit :=
  try_except
    (resp <- post (hook_request url message) ;;
     emit (logger_debug ("SLACK: " ++ resp)))
    isinstance_ConnectionError
    (fun e => emit (logger_critical ("Failed to SLACK: " ++ exc_str e))).

(** The request [message_owner] posts to the chat API. *)
Definition owner_request (token : option string) (owner message : string)
  (pods : list Pod) : Request :=
  let attachments :=
    [ [ ("pretext", "Relevant pods");
        ("text", join ", " (map pod_path pods)) ] ] in
  PostData MESSAGE_URL
    [ ("text", VStr message);
      ("attachments", VJson attachments);
      ("token", match token with Some s => VStr s | None => VNone end);
      ("channel", VStr ("@" ++ owner));
      ("username", VStr "kubernetes-ec2-autoscaler");
      ("icon_emoji", VStr ":rabbit:") ].

(** The body of [message_owner], under the decorator. *)
Definition message_owner_method (owner message : string) (pods : list Pod) : M unit :=
  token <- self_bot_token ;;
  try_except
    (resp <- post (owner_request token owner message pods) ;;
     emit (logger_debug ("SLACK: " ++ resp)))
    isinstance_RequestException
    (fun e => emit (logger_critical ("Failed to SLACK: " ++ exc_str e))).

(** [@cachedmethod(operator.attrgetter('cache'), key=_cache_key)], with no
    lock: look the key up; on [KeyError] call the method, then store what
    it returned. *)
Definition cachedmethod (key : Notifier -> string) (method : M unit) : M unit :=
  fun self =>
    (let k := key self in
     hit <- cache_getitem k ;;
     match hit with
     | Some v => ret v
     | None =>
         v <- method ;;
         cache_setitem k ;;
         ret v
     end) self.

Definition message_owner (owner message : string) (pods : list Pod) : M unit :=
  cachedmethod (fun self => _cache_key self owner message pods)
               (message_owner_method owner message pods).

(** [pods_by_owner.setdefault(owner, []).append(pod)], the dict kept in
    the order in which its keys came. *)
Fixpoint setdefault_append (d : list (string * list Pod)) (k : string) (pod : Pod)
  : list (string * list Pod) :=
  match d with
  | [] => [(k, [pod])]
  | (k', pods) :: d' =>
      if (k' =? k)%string then (k', (pods ++ [pod])%list) :: d'
      else (k', pods) :: setdefault_append d' k pod
  end.

Definition pods_by_owner (pods : list Pod) : list (string * list Pod) :=
  fold_left (fun d pod =>
               if truthy (owner pod)
               then setdefault_append d (value_of (owner pod)) pod
               else d)
            pods [].

Definition message_owners (message : string) (pods : list Pod) : M unit :=
  token <- self_bot_token ;;
  if negb (truthy token) then
    emit (logger_debug "SLACK_BOT_TOKEN not configured.")
  else
    for_each (pods_by_owner pods)
             (fun '(owner, pods) => message_owner owner message pods).

Definition notify_scale (asg : ASG) (units_requested : Z) (pods : list Pod) : M unit :=
  struct_log "scale" pods
    [ ("asg", VStr (asg_str asg)); ("units_requested", VInt units_requested) ] ;;
  h <- self_hook ;;
  if negb (truthy h) then
    emit (logger_debug "SLACK_HOOK not configured.")
  else
    let pods_string := _generate_pod_string pods in
    let message :=
      "ASG " ++ asg_name asg ++ "[" ++ asg_region asg ++ "] scaling up by "
        ++ str_int units_requested ++ " to new capacity "
        ++ str_int (desired_capacity asg) in
    let message := message ++ String "010" EmptyString in
    let message := message ++ "Change triggered by " ++ pods_string in
    post_hook (value_of h) message ;;
    message_owners
      ("ASG " ++ asg_name asg ++ "[" ++ asg_region asg ++ "] scaling up") pods.

Definition notify_failed_to_scale (selectors_hash : Selectors) (pods : list Pod) : M unit :=
  struct_log "failed to scale" pods
    [ ("selectors_hash", VSelectors selectors_hash) ] ;;
  h <- self_hook ;;
  if negb (truthy h) then
    emit (logger_debug "SLACK_HOOK not configured.")
  else
    let pods_string := _generate_pod_string pods in
    let main_message :=
      "Failed to scale " ++ json_dumps selectors_hash
        ++ " sufficiently. Backing off..." in
    let message := main_message ++ String "010" EmptyString in
    let message := message ++ "Pods affected: " ++ pods_string in
    post_hook (value_of h) message ;;
    message_owners main_message pods.

(** [recommended_capacity] is only rendered, by [str] and by [format]:
    it is given as its rendering. *)
Definition notify_invalid_pod_capacity (pod : Pod) (recommended_capacity : string) : M unit :=
  struct_log "invalid pod capacity" [pod]
    [ ("recommended_capacity", VStr recommended_capacity) ] ;;
  h <- self_hook ;;
  if negb (truthy h) then
    emit (logger_debug "SLACK_HOOK not configured.")
  else
    let message :=
      "Pending pod " ++ namespace pod ++ "/" ++ name pod ++ " cannot fit "
        ++ json_dumps (selectors pod) ++ ". "
        ++ "Please check that requested resource amount is "
        ++ "consistent with node selectors (recommended max: "
        ++ recommended_capacity ++ "). "
        ++ "Scheduling skipped." in
    post_hook (value_of h) message ;;
    message_owners message [pod].

(** [node] is only rendered, by [str] and by [format]: it is given as its
    rendering. *)
Definition notify_drained_node (node : string) (pods : list Pod) : M unit :=
  struct_log "drain" pods [ ("node", VStr node) ] ;;
  h <- self_hook ;;
  if negb (truthy h) then
    emit (logger_debug "SLACK_HOOK not configured.")
  else
    let pods_string := _generate_pod_string pods in
    let message := "Node " ++ node ++ " drained." in
    let message := message ++ String "010" EmptyString in
    let message := message ++ "Pod affected: " ++ pods_string in
    post_hook (value_of h) message.

(** ** Runs of the notifier *)

Definition State : Type := Notifier * World.

(** The state a method leaves, whether it returns or raises. *)
Definition exec {A : Type} (m : M A) (s : State) : State :=
  let '(_, self, w) := m (fst s) (snd s) in (self, w).

Definition result {A : Type} (m : M A) (s : State) : Result A :=
  let '(r, _, _) := m (fst s) (snd s) in r.

(** Time that passes between two calls. *)
Definition wait (d : N) (s : State) : State :=
  (fst s, {| network := network (snd s);
             clock := clock (snd s) + Z.of_N d;
             trace := trace (snd s) |}).

Definition posts (s : State) : list Event := filter is_post (trace (snd s)).

(** A call of [message_owner], some time after the one before. *)
Record Call := {
  idle : N;
  c_owner : string;
  c_message : string;
  c_pods : list Pod
}.

Definition call_key (self : Notifier) (c : Call) : string :=
  _cache_key self (c_owner c) (c_message c) (c_pods c).

Arguments _cache_key : simpl never.
Arguments call_key : simpl never.
Arguments owner_request : simpl never.

Definition run_call (c : Call) (s : State) : State :=
  exec (message_owner (c_owner c) (c_message c) (c_pods c)) (wait (idle c) s).

(** The calls of a list, one after the other. *)
Definition run_calls (cs : list Call) (s : State) : State :=
  fold_left (fun s c => run_call c s) cs s.

(** The keys seen so far, with key [k'] among them. *)
Definition note_key (k' : string) (seen : list string) : list string :=
  if existsb (String.eqb k') seen then seen else k' :: seen.

(** Key [k] is never crowded out by the calls [cs]: at no time have
    [room] or more different keys been used since key [k] was last used,
    [seen] being the other keys used before the calls. A cache of [room]
    entries that drops the least recently used entry keeps key [k] through
    such calls. *)
Fixpoint never_crowded (room : nat) (self : Notifier) (k : string)
  (seen : list string) (cs : list Call) : bool :=
  match cs with
  | [] => true
  | c :: cs' =>
      let k' := call_key self c in
      if (k' =? k)%string then never_crowded room self k [] cs'
      else
        let seen' := note_key k' seen in
        (List.length seen' <? room)%nat && never_crowded room self k seen' cs'
  end.

(** ** Callers of [message_owner] that run at the same time

    The decorator has no lock: a caller looks the key up, calls the method
    and stores the result in three steps, and the steps of other callers
    can come between them. *)

Inductive Stage :=
| Lookup
| Method
| Store
| Done (sent : bool)
| Raised (e : exception).

Record Caller := {
  t_owner : string;
  t_message : string;
  t_pods : list Pod;
  stage : Stage
}.

Definition at_stage (th : Caller) (st : Stage) : Caller :=
  {| t_owner := t_owner th; t_message := t_message th; t_pods := t_pods th;
     stage := st |}.

(** One step of a caller. *)
Definition step (th : Caller) (s : State) : Caller * State :=
  let k := _cache_key (fst s) (t_owner th) (t_message th) (t_pods th) in
  match stage th with
  | Lookup =>
      match cache_getitem k (fst s) (snd s) with
      | (Return (Some _), self, w) => (at_stage th (Done false), (self, w))
      | (Return None, self, w) => (at_stage th Method, (self, w))
      | (Raise e, self, w) => (at_stage th (Raised e), (self, w))
      end
  | Method =>
      match message_owner_method (t_owner th) (t_message th) (t_pods th)
                                 (fst s) (snd s) with
      | (Return _, self, w) => (at_stage th Store, (self, w))
      | (Raise e, self, w) => (at_stage th (Raised e), (self, w))
      end
  | Store =>
      match cache_setitem k (fst s) (snd s) with
      | (Return _, self, w) => (at_stage th (Done true), (self, w))
      | (Raise e, self, w) => (at_stage th (Raised e), (self, w))
      end
  | Done _ | Raised _ => (th, s)
  end.

(** The callers, after the [i]-th one has made a step. *)
Fixpoint step_nth (i : nat) (ths : list Caller) (s : State) : list Caller * State :=
  match ths, i with
  | [], _ => ([], s)
  | th :: ths', O => let '(th', s') := step th s in (th' :: ths', s')
  | th :: ths', S i' => let '(ths'', s') := step_nth i' ths' s in (th :: ths'', s')
  end.

(** A schedule names the caller that makes each step. *)
Fixpoint run_schedule (sched : list nat) (ths : list Caller) (s : State)
  : list Caller * State :=
  match sched with
  | [] => (ths, s)
  | i :: sched' => let '(ths', s') := step_nth i ths s in run_schedule sched' ths' s'
  end.

Definition is_done (sent : bool) (th : Caller) : bool :=
  match stage th with
  | Done b => Bool.eqb b sent
  | _ => false
  end.

(** Two lists of pods that name the same set of pod ids. *)
Definition same_uid_set (pods1 pods2 : list Pod) : Prop :=
  forall u : string, In u (map uid pods1) <-> In u (map uid pods2).


(** ** Sample data *)

Definition sample_selectors : Selectors := {| json_dumps := "{}" |}.

Definition sample_pod (id : string) (o : option string) : Pod :=
  {| uid := id; namespace := "default"; name := id; owner := o;
     selectors := sample_selectors |}.

Definition sample_notifier : Notifier :=
  Notifier__init__ (Some "https://hooks.slack.com/services/T0/B0/x") (Some "xoxb-token").

(** One pod of alice. *)
Definition sample_pods : list Pod := [sample_pod "id1" (Some "alice")].

Definition connection_refused : exception :=
  {| exc_class := ConnectionError; exc_str := "Connection refused" |}.

(** ** The four notifications, as one type *)

Inductive Notification :=
| Scale (asg : ASG) (units_requested : Z) (pods : list Pod)
| FailedToScale (selectors_hash : Selectors) (pods : list Pod)
| InvalidPodCapacity (pod : Pod) (recommended_capacity : string)
| DrainedNode (node : string) (pods : list Pod).

Definition notify (n : Notification) : M unit :=
  match n with
  | Scale asg units_requested pods => notify_scale asg units_requested pods
  | FailedToScale selectors_hash pods => notify_failed_to_scale selectors_hash pods
  | InvalidPodCapacity pod recommended_capacity =>
      notify_invalid_pod_capacity pod recommended_capacity
  | DrainedNode node pods => notify_drained_node node pods
  end.

Definition affected (n : Notification) : list Pod :=
  match n with
  | Scale _ _ pods | FailedToScale _ pods | DrainedNode _ pods => pods
  | InvalidPodCapacity pod _ => [pod]
  end.

(** The world, with more events in its trace. *)
Definition logged (evs : list Event) (w : World) : World :=
  {| network := network w; clock := clock w; trace := (trace w ++ evs)%list |}.

(** The world after a request: time has passed, the request is in the trace. *)
Definition requested (req : Request) (w : World) : World :=
  {| network := network w;
     clock := clock w
              + Z.of_N (elapsed (network w (List.length (filter is_post (trace w))) req));
     trace := (trace w ++ [requests_post req])%list |}.

(** The answer of the network to a request made in world [w]. *)
Definition reply (req : Request) (w : World) : string + exception :=
  response (network w (List.length (filter is_post (trace w))) req).

(** The records [struct_log] writes, one for each pod. *)
Definition struct_records (n : Notification) : list Event :=
  let '(message, extra) :=
    match n with
    | Scale asg units_requested _ =>
        ("scale", [ ("asg", VStr (asg_str asg));
                    ("units_requested", VInt units_requested) ])
    | FailedToScale selectors_hash _ =>
        ("failed to scale", [ ("selectors_hash", VSelectors selectors_hash) ])
    | InvalidPodCapacity _ recommended_capacity =>
        ("invalid pod capacity",
         [ ("recommended_capacity", VStr recommended_capacity) ])
    | DrainedNode node _ => ("drain", [ ("node", VStr node) ])
    end in
  map (fun pod =>
         struct_logger_debug message
           (dict_update
              [ ("pod_name", VStr (pod_path pod));
                ("pod_id", VStr (uid pod));
                ("_log_streaming_target_mapping", VStr "kubernetes-ec2-autoscaler") ]
              extra))
      (affected n).

(** The text a notification sends to the web hook. *)
Definition broadcast_text (n : Notification) : string :=
  match n with
  | Scale asg units_requested pods =>
      "ASG " ++ asg_name asg ++ "[" ++ asg_region asg ++ "] scaling up by "
        ++ str_int units_requested ++ " to new capacity "
        ++ str_int (desired_capacity asg) ++ String "010" EmptyString
        ++ "Change triggered by " ++ _generate_pod_string pods
  | FailedToScale selectors_hash pods =>
      "Failed to scale " ++ json_dumps selectors_hash
        ++ " sufficiently. Backing off..." ++ String "010" EmptyString
        ++ "Pods affected: " ++ _generate_pod_string pods
  | InvalidPodCapacity pod recommended_capacity =>
      "Pending pod " ++ namespace pod ++ "/" ++ name pod ++ " cannot fit "
        ++ json_dumps (selectors pod) ++ ". "
        ++ "Please check that requested resource amount is "
        ++ "consistent with node selectors (recommended max: "
        ++ recommended_capacity ++ "). "
        ++ "Scheduling skipped."
  | DrainedNode node pods =>
      "Node " ++ node ++ " drained." ++ String "010" EmptyString
        ++ "Pod affected: " ++ _generate_pod_string pods
  end.

(** The text a notification sends to the owners of its pods; a drained
    node has none. *)
Definition owners_text (n : Notification) : option string :=
  match n with
  | Scale asg _ _ =>
      Some ("ASG " ++ asg_name asg ++ "[" ++ asg_region asg ++ "] scaling up")
  | FailedToScale selectors_hash _ =>
      Some ("Failed to scale " ++ json_dumps selectors_hash
              ++ " sufficiently. Backing off...")
  | InvalidPodCapacity _ _ as n => Some (broadcast_text n)
  | DrainedNode _ _ => None
  end.

(** A request to the chat API: a direct message. *)
Definition is_direct (ev : Event) : bool :=
  match ev with
  | requests_post (PostData _ _) => true
  | _ => false
  end.

(** Every pod of a batch has the owner of the batch. *)
Definition batches_owned (d : list (string * list Pod)) : Prop :=
  forall o batch pod, In (o, batch) d -> In pod batch ->
    owner pod = Some o /\ o <> EmptyString.

(** The exceptions of the network are of the classes the call sites
    catch: [ConnectionError] for the web hook, [RequestException] for the
    chat API. *)
Definition caught (w : World) : Prop :=
  forall (i : nat) (req : Request) (e : exception),
    response (network w i req) = inr e ->
    match req with
    | PostJson _ _ => isinstance_ConnectionError e = true
    | PostData _ _ => isinstance_RequestException e = true
    end.

(** A network that answers every request, after a second. *)
Definition sample_network (i : nat) (req : Request) : Reply :=
  {| elapsed := 1; response := inl "ok" |}.

Definition sample_world : World :=
  {| network := sample_network; clock := 0; trace := [] |}.

(** A network on which every response breaks off while it is read:
    [requests.exceptions.ChunkedEncodingError], a [RequestException] that
    is not a [ConnectionError]. *)
Definition broken_network (i : nat) (req : Request) : Reply :=
  {| elapsed := 1;
     response := inr {| exc_class := OtherRequestException;
                        exc_str := "Connection broken: IncompleteRead(0 bytes read)" |} |}.

Definition broken_world : World :=
  {| network := broken_network; clock := 0; trace := [] |}.

(** A network that refuses every connection. *)
Definition down_network (i : nat) (req : Request) : Reply :=
  {| elapsed := 1; response := inr connection_refused |}.

Definition down_world : World :=
  {| network := down_network; clock := 0; trace := [] |}.

Definition sample_asg : ASG :=
  {| asg_name := "asg-1"; asg_region := "us-east-1"; desired_capacity := 10;
     asg_str := "asg-1[us-east-1]" |}.


(** ** Invariants of the cache *)

(** The entries used more recently than the entry of key [k]. *)
Fixpoint used_after (k : string) (ls : list TTLCache.link) : list TTLCache.link :=
  match ls with
  | [] => []
  | l :: ls' => if TTLCache.has_key k l then ls' else used_after k ls'
  end.

(** Key [k] is in the cache with expiry time [e], and at most [n] entries
    have been used more recently. *)
Definition kept (k : string) (e : Z) (n : nat) (c : TTLCache.t) : Prop :=
  TTLCache.getlink k (TTLCache.links c)
  = Some {| TTLCache.key := k; TTLCache.expires := e |}
  /\ (List.length (used_after k (TTLCache.links c)) <= n)%nat.

(** The entries used more recently than the entry of key [k] have keys
    that all differ, and that are all in [seen]. *)
Definition recent (k : string) (seen : list string) (c : TTLCache.t) : Prop :=
  NoDup (map TTLCache.key (used_after k (TTLCache.links c)))
  /\ incl (map TTLCache.key (used_after k (TTLCache.links c))) seen.

(** An entry of key [k], if there is one, expires at [e]. *)
Definition expiring (k : string) (e : Z) (c : TTLCache.t) : Prop :=
  forall l, In l (TTLCache.links c) -> TTLCache.key l = k -> TTLCache.expires l = e.

(** The cache has the size and the time to live [__init__] gave it. *)
Definition as_init (self : Notifier) : Prop :=
  TTLCache.maxsize (cache self) = 128%nat /\ TTLCache.ttl (cache self) = 1800.

(** ** Sample calls *)

(** The call of [message_owner] made again, [d] seconds later. *)
Definition again (d : N) (owner message : string) (pods : list Pod) : Call :=
  {| idle := d; c_owner := owner; c_message := message; c_pods := pods |}.

(** Calls for [n] other owners, a second apart. *)
Definition other_owners (n : nat) : list Call :=
  map (fun i => {| idle := 1;
                   c_owner := "owner-" ++ str_int (Z.of_nat i);
                   c_message := "m";
                   c_pods := [] |})
      (seq 0 n).

(** Calls for [n] more owners, from the [a]-th on, a second apart. *)
Definition more_owners (a n : nat) : list Call :=
  map (fun i => {| idle := 1;
                   c_owner := "owner-" ++ str_int (Z.of_nat i);
                   c_message := "m";
                   c_pods := [] |})
      (seq a n).

(** Calls for two other owners in turn, [n] calls a second apart. *)
Definition two_owners (n : nat) : list Call :=
  map (fun i => {| idle := 1;
                   c_owner := if Nat.even i then "bob" else "carol";
                   c_message := "m";
                   c_pods := [] |})
      (seq 0 n).

(** Many calls that never crowd out the key of the message to alice: two
    hundred calls for two owners, calls for a hundred owners, the message
    to alice again, and calls for a hundred owners more. *)
Definition busy_calls : list Call :=
  (two_owners 200 ++ other_owners 100
     ++ again 10 "alice" "m" sample_pods :: more_owners 100 100)%list.

(** ** Callers and schedules *)

(** A caller about to call [message_owner]. *)
Definition caller (owner message : string) (pods : list Pod) : Caller :=
  {| t_owner := owner; t_message := message; t_pods := pods; stage := Lookup |}.

(** The number of steps a schedule gives caller [i]. *)
Definition steps (i : nat) (sched : list nat) : nat := count_occ Nat.eq_dec sched i.

(** In the schedule each of the [n] callers makes a step, and none makes
    three: every caller has looked the key up, and none has stored it. *)
Definition lookups_only (n : nat) (sched : list nat) : bool :=
  forallb (fun i => (1 <=? steps i sched)%nat && (steps i sched <=? 2)%nat) (seq 0 n).

(** In the schedule each of the [n] callers makes at least [m] steps. *)
Definition at_least (m n : nat) (sched : list nat) : bool :=
  forallb (fun i => (m <=? steps i sched)%nat) (seq 0 n).

(** The key is not in the cache, or has expired, and stays so as time
    passes. *)
Definition missing (k : string) (s : State) : Prop :=
  forall t, clock (snd s) <= t -> TTLCache.live (cache (fst s)) k t = false.

(** A caller of [message_owner] with the given arguments. *)
Definition same_call (owner message : string) (pods : list Pod) (th : Caller) : Prop :=
  th = at_stage (caller owner message pods) (stage th).

(** The stage of a caller that has made [c] steps and did not find the key. *)
Definition stage_after (c : nat) (st : Stage) : Prop :=
  match c with
  | 0%nat => st = Lookup
  | 1%nat => st = Method
  | 2%nat => st = Store \/ exists e, st = Raised e
  | _ => st = Done true \/ exists e, st = Raised e
  end.

(** The caller has called the method: its request is posted. *)
Definition has_posted (th : Caller) : bool :=
  match stage th with
  | Store | Done true | Raised _ => true
  | _ => false
  end.

Definition posted_count (ths : list Caller) : nat := List.length (filter has_posted ths).

(** The exceptions of the requests to the chat API are of the class
    [message_owner] catches. *)
Definition caught_direct (w : World) : Prop :=
  forall (i : nat) (url : string) (data : dict) (e : exception),
    response (network w i (PostData url data)) = inr e ->
    isinstance_RequestException e = true.

(** The method of the caller has not raised. *)
Definition not_raised (th : Caller) : Prop :=
  match stage th with
  | Raised _ => False
  | _ => True
  end.

(** ** More about the module: what the properties below speak of *)

(** [d.get(k)]. *)
Fixpoint dict_get (d : dict) (k : string) : option Value :=
  match d with
  | [] => None
  | (k', v) :: d' => if (k' =? k)%string then Some v else dict_get d' k
  end.

(** The fields [struct_log] gives every record of a pod, before [extra]. *)
Definition pod_fields (pod : Pod) : dict :=
  [ ("pod_name", VStr (pod_path pod));
    ("pod_id", VStr (uid pod));
    ("_log_streaming_target_mapping", VStr "kubernetes-ec2-autoscaler") ].

(** The pod has owner [o], and [o] is not the empty string. *)
Definition owned_by (o : string) (pod : Pod) : bool :=
  truthy (owner pod) && (value_of (owner pod) =? o)%string.

(** A digit of a lower-case hexadecimal number. *)
Definition is_hex (c : ascii) : bool :=
  existsb (Ascii.eqb c) (list_ascii_of_string "0123456789abcdef").

(** A request to the chat API for one of the owners of the pods. *)
Definition is_owner_request (token : option string) (text : string)
  (pods : list Pod) (ev : Event) : Prop :=
  exists o batch,
    In (o, batch) (pods_by_owner pods)
    /\ ev = requests_post (owner_request token o text batch).

(** The requests [message_owners] makes if every owner is sent the message. *)
Definition owner_requests (token : option string) (text : string)
  (pods : list Pod) : list Event :=
  map (fun ob => requests_post (owner_request token (fst ob) text (snd ob)))
      (pods_by_owner pods).

(** The key of the message to an owner for a batch: [_cache_key], which
    makes no use of the notifier. *)
Definition batch_key (text : string) (ob : string * list Pod) : string :=
  "v0.md5." ++ MD5.hexdigest (_cache_key_data (fst ob) text (snd ob)).

Arguments batch_key : simpl never.

(** The keys of the messages [message_owners] sends for the pods. *)
Definition owner_keys (text : string) (pods : list Pod) : list string :=
  map (batch_key text) (pods_by_owner pods).

(** No entry of the cache has one of the keys. *)
Definition absent (keys : list string) (c : TTLCache.t) : Prop :=
  forall l, In l (TTLCache.links c) -> ~ In (TTLCache.key l) keys.

(** What the cache of a notifier keeps true at time [now]: no more
    entries than [maxsize], one entry for a key, and no entry that
    expires later than [ttl] from now. *)
Definition cache_ok (now : Z) (c : TTLCache.t) : Prop :=
  (List.length (TTLCache.links c) <= TTLCache.maxsize c)%nat
  /\ NoDup (map TTLCache.key (TTLCache.links c))
  /\ Forall (fun l => TTLCache.expires l <= now + TTLCache.ttl c) (TTLCache.links c).

(** The requests a notification may make: the one to the web hook, with
    the text of the broadcast, and those of [message_owners]. *)
Definition notify_request (n : Notification) (self : Notifier) (ev : Event) : Prop :=
  ev = requests_post (hook_request (value_of (hook self)) (broadcast_text n))
  \/ exists text, owners_text n = Some text
                  /\ is_owner_request (bot_token self) text (affected n) ev.

(** The number of owners a notification may write to. *)
Definition owners_count (n : Notification) : nat :=
  match owners_text n with
  | Some _ => List.length (pods_by_owner (affected n))
  | None => 0
  end.

(** Notifications one after the other, each some time after the one before;
    a notification that raises leaves the state it has reached. *)
Definition run_notifications (ns : list (N * Notification)) (s : State) : State :=
  fold_left (fun s dn => exec (notify (snd dn)) (wait (fst dn) s)) ns s.

(** The state keeps what [__init__] set up, and its cache is in order. *)
Definition state_ok (hook0 bot_token0 : option string) (s : State) : Prop :=
  hook (fst s) = hook0
  /\ bot_token (fst s) = bot_token0
  /\ as_init (fst s)
  /\ cache_ok (clock (snd s)) (cache (fst s)).

(** Pods of alice and of bob. *)
Definition sample_pods3 : list Pod :=
  [sample_pod "id1" (Some "alice"); sample_pod "id2" (Some "bob");
   sample_pod "id3" (Some "alice")].

(** The world after the records and the broadcast of a notification,
    [log] being the line that logs the outcome of the broadcast. *)
Definition broadcast_done (n : Notification) (self : Notifier) (log : Event)
  (w : World) : World :=
  logged [log]
         (requested (hook_request (value_of (hook self)) (broadcast_text n))
                    (logged (struct_records n) w)).

(** An exception of [requests.post] that is no [RequestException], and a
    network on which every request ends in it. *)
Definition interrupted : exception :=
  {| exc_class := OtherException; exc_str := "interrupted" |}.

Definition interrupted_network (i : nat) (req : Request) : Reply :=
  {| elapsed := 1; response := inr interrupted |}.

Definition interrupted_world : World :=
  {| network := interrupted_network; clock := 0; trace := [] |}.

(** A notifier with a web hook and no bot token. *)
Definition tokenless_notifier : Notifier :=
  Notifier__init__ (Some "https://hooks.slack.com/services/T0/B0/x") None.

(** What [message_owners] logs when there is no bot token, for a
    notification that calls it. *)
Definition token_missing (n : Notification) : list Event :=
  match owners_text n with
  | Some _ => [logger_debug "SLACK_BOT_TOKEN not configured."]
  | None => []
  end.


(** [extra] names [taskName], which is an attribute of a [LogRecord] from
    Python 3.12 on only. *)
Definition names_taskName (extra : dict) : bool :=
  existsb (String.eqb "taskName") (map fst extra).

(** A request to the chat API on the channel of owner [o]. *)
Definition sent_to (o : string) (ev : Event) : bool :=
  match ev with
  | requests_post (PostData _ data) =>
      match dict_get data "channel" with
      | Some (VStr channel) => (channel =? "@" ++ o)%string
      | _ => false
      end
  | _ => false
  end.
(** * Properties *)

(** ** hashlib.md5 on the test suite of RFC 1321 *)

Example md5_empty :
  MD5.hexdigest (encode EmptyString) = "d41d8cd98f00b204e9800998ecf8427e".
Proof. vm_compute. reflexivity. Qed.

Example md5_abc :
  MD5.hexdigest (encode "abc") = "900150983cd24fb0d6963f7d28e17f72".
Proof. vm_compute. reflexivity. Qed.

Example md5_two_blocks :
  MD5.hexdigest
    (encode "12345678901234567890123456789012345678901234567890123456789012345678901234567890")
  = "57edf4a22be3c955ac49da2e2107b67a".
Proof. vm_compute. reflexivity. Qed.

(** ** The order of strings *)

Lemma string_leb_trans (s1 s2 s3 : string) :
  (s1 <=? s2)%string = true -> (s2 <=? s3)%string = true ->
  (s1 <=? s3)%string = true.
Proof.
  unfold String.leb. revert s2 s3.
  induction s1 as [| a s1 IH]; intros [| b s2] [| c s3]; simpl; try congruence.
  specialize (IH s2 s3). unfold Ascii.compare.
  destruct (N.compare_spec (N_of_ascii a) (N_of_ascii b)) as [Hab | Hab | Hab];
    destruct (N.compare_spec (N_of_ascii b) (N_of_ascii c)) as [Hbc | Hbc | Hbc];
    destruct (N.compare_spec (N_of_ascii a) (N_of_ascii c)) as [Hac | Hac | Hac];
    try congruence; try lia; intros H1 H2; auto.
Qed.

Lemma string_leb_false (s1 s2 : string) :
  (s1 <=? s2)%string = false -> (s2 <=? s1)%string = true.
Proof.
  intros H. destruct (String.leb_total s1 s2) as [H' | H']; congruence.
Qed.

(** ** [sorted] *)

Lemma insort_map {A : Type} (key : A -> string) (x : A) (l : list A) :
  map key (insort key x l) = insort (fun s => s) (key x) (map key l).
Proof.
  induction l as [| y l IH]; simpl; [reflexivity |].
  destruct (key x <=? key y)%string; simpl; congruence.
Qed.

Lemma sorted_map {A : Type} (key : A -> string) (l : list A) :
  map key (sorted key l) = sorted (fun s => s) (map key l).
Proof.
  induction l as [| x l IH]; simpl; [reflexivity |].
  rewrite insort_map, IH. reflexivity.
Qed.

Lemma insort_Permutation {A : Type} (key : A -> string) (x : A) (l : list A) :
  Permutation (x :: l) (insort key x l).
Proof.
  induction l as [| y l IH]; simpl; [apply Permutation_refl |].
  destruct (key x <=? key y)%string; [apply Permutation_refl |].
  eapply perm_trans; [apply perm_swap | apply perm_skip, IH].
Qed.

Lemma sorted_Permutation {A : Type} (key : A -> string) (l : list A) :
  Permutation l (sorted key l).
Proof.
  induction l as [| x l IH]; simpl; [apply perm_nil |].
  eapply perm_trans; [apply perm_skip, IH | apply insort_Permutation].
Qed.

(** Two insertions of strings commute. *)
Lemma insort_insort (x y : string) (l : list string) :
  insort (fun s => s) x (insort (fun s => s) y l)
  = insort (fun s => s) y (insort (fun s => s) x l).
Proof.
  induction l as [| z l IH]; simpl.
  - destruct (x <=? y)%string eqn:Hxy, (y <=? x)%string eqn:Hyx; try reflexivity.
    + rewrite (String.leb_antisym _ _ Hxy Hyx). reflexivity.
    + apply string_leb_false in Hxy. congruence.
  - destruct (x <=? z)%string eqn:Hxz, (y <=? z)%string eqn:Hyz; simpl;
      rewrite ?Hxz, ?Hyz.
    + destruct (x <=? y)%string eqn:Hxy, (y <=? x)%string eqn:Hyx;
        rewrite ?Hxz, ?Hyz; try reflexivity.
      * rewrite (String.leb_antisym _ _ Hxy Hyx). reflexivity.
      * apply string_leb_false in Hxy. congruence.
    + destruct (y <=? x)%string eqn:Hyx; simpl; rewrite ?Hxz, ?Hyz; [| reflexivity].
      rewrite (string_leb_trans _ _ _ Hyx Hxz) in Hyz. discriminate.
    + destruct (x <=? y)%string eqn:Hxy; simpl; rewrite ?Hxz, ?Hyz; [| reflexivity].
      rewrite (string_leb_trans _ _ _ Hxy Hyz) in Hxz. discriminate.
    + rewrite IH. reflexivity.
Qed.

Lemma sorted_strings_Permutation (l1 l2 : list string) :
  Permutation l1 l2 -> sorted (fun s => s) l1 = sorted (fun s => s) l2.
Proof.
  induction 1 as [| x l1 l2 _ IH | x y l | l1 l2 l3 _ IH1 _ IH2]; simpl.
  - reflexivity.
  - now rewrite IH.
  - apply insort_insort.
  - now rewrite IH1.
Qed.

(** ** [_cache_key] *)

Lemma fold_update (pods : list Pod) (h : MD5.t) :
  fold_left (fun md5 pod => MD5.update md5 (encode (uid pod))) pods h
  = (h ++ List.concat (map encode (map uid pods)))%list.
Proof.
  revert h. induction pods as [| p pods IH]; intros h; simpl.
  - now rewrite app_nil_r.
  - rewrite IH. unfold MD5.update. now rewrite <- app_assoc.
Qed.

(** What is hashed: the bytes of the owner, of the message, and of the
    ids of the pods in increasing order, with nothing between them. *)
Lemma _cache_key_data_eq (owner message : string) (pods : list Pod) :
  _cache_key_data owner message pods
  = (encode owner ++ encode message
       ++ List.concat (map encode (sorted (fun s => s) (map uid pods))))%list.
Proof.
  unfold _cache_key_data. rewrite fold_update, sorted_map.
  unfold MD5.update, MD5.new. simpl. now rewrite <- app_assoc.
Qed.

Lemma encode_inj (s1 s2 : string) : encode s1 = encode s2 -> s1 = s2.
Proof.
  unfold encode. revert s2.
  induction s1 as [| a s1 IH]; intros [| b s2]; simpl; try congruence.
  intros H. injection H as Hab H. f_equal; [| now apply IH].
  apply N2Z.inj in Hab.
  rewrite <- (ascii_N_embedding a), <- (ascii_N_embedding b). congruence.
Qed.

Lemma encode_length (s : string) : List.length (encode s) = String.length s.
Proof.
  unfold encode. rewrite length_map.
  induction s as [| a s IH]; simpl; [reflexivity | now rewrite IH].
Qed.

(** The bytes of sorted ids: one more id adds its bytes. *)
Lemma insort_bytes_length (x : string) (l : list string) :
  List.length (List.concat (map encode (insort (fun s => s) x l)))
  = (String.length x + List.length (List.concat (map encode l)))%nat.
Proof.
  induction l as [| y l IH]; cbn [insort map List.concat].
  - now rewrite !length_app, encode_length.
  - destruct (x <=? y)%string; cbn [map List.concat].
    + now rewrite !length_app, encode_length.
    + rewrite !length_app, IH. lia.
Qed.

(** The empty id sorts first. *)
Lemma insort_empty (l : list string) :
  insort (fun s => s) EmptyString l = EmptyString :: l.
Proof. destruct l as [| [| a y] l]; reflexivity. Qed.

(** C2, amended: lists of pods whose ids are the same up to order (two
    lists of the same pods in another order, among them) have the same
    fingerprint key, for the same owner and message and whatever the
    notifier. Duplicates are kept: one more pod in the list, be it a pod
    that the list has already, adds the bytes of its id to what is hashed,
    so that the hashed bytes differ when the id is not empty, and the key
    with them unless MD5 collides; a pod whose id is the empty string
    changes nothing. *)
Theorem cache_key_order_independent
  (notifier notifier' : Notifier) (owner message : string) (pods1 pods2 : list Pod) :
  (Permutation (map uid pods1) (map uid pods2) ->
   _cache_key notifier owner message pods1 = _cache_key notifier' owner message pods2)
  /\ (forall pod : Pod,
        uid pod <> EmptyString ->
        List.length (_cache_key_data owner message (pod :: pods1))
        = (String.length (uid pod) + List.length (_cache_key_data owner message pods1))%nat
        /\ _cache_key_data owner message (pod :: pods1)
           <> _cache_key_data owner message pods1)
  /\ (forall pod : Pod,
        uid pod = EmptyString ->
        _cache_key notifier owner message (pod :: pods1)
        = _cache_key notifier' owner message pods1).
Proof.
  split; [| split].
  - intros H. unfold _cache_key. rewrite !_cache_key_data_eq.
    now rewrite (sorted_strings_Permutation _ _ H).
  - intros pod Hne.
    assert (Hlen : List.length (_cache_key_data owner message (pod :: pods1))
                   = (String.length (uid pod)
                      + List.length (_cache_key_data owner message pods1))%nat).
    { rewrite !_cache_key_data_eq. cbn [map sorted].
      rewrite !length_app, insort_bytes_length. lia. }
    split; [exact Hlen |].
    intros E. rewrite E in Hlen.
    destruct (uid pod) as [| a u]; [now apply Hne | simpl in Hlen; lia].
  - intros pod He. unfold _cache_key. rewrite !_cache_key_data_eq.
    cbn [map sorted]. rewrite He, insort_empty. reflexivity.
Qed.

Lemma cache_key_order_independent_witness :
  Permutation (map uid [sample_pod "id1" None; sample_pod "id2" None])
              (map uid [sample_pod "id2" None; sample_pod "id1" None])
  /\ uid (sample_pod "id1" None) <> EmptyString
  /\ _cache_key sample_notifier "alice" "m" [sample_pod "id1" None; sample_pod "id2" None]
     = _cache_key sample_notifier "alice" "m" [sample_pod "id2" None; sample_pod "id1" None]
  /\ _cache_key_data "alice" "m"
       [sample_pod "id1" None; sample_pod "id1" None; sample_pod "id2" None]
     <> _cache_key_data "alice" "m" [sample_pod "id1" None; sample_pod "id2" None].
Proof.
  assert (H1 : Permutation (map uid [sample_pod "id1" None; sample_pod "id2" None])
                           (map uid [sample_pod "id2" None; sample_pod "id1" None]))
    by (simpl; apply perm_swap).
  assert (H2 : uid (sample_pod "id1" None) <> EmptyString) by discriminate.
  destruct (cache_key_order_independent sample_notifier sample_notifier "alice" "m"
              [sample_pod "id1" None; sample_pod "id2" None]
              [sample_pod "id2" None; sample_pod "id1" None]) as (P1 & P2 & _).
  split; [exact H1 | split; [exact H2 | split; [exact (P1 H1) |]]].
  exact (proj2 (P2 (sample_pod "id1" None) H2)).
Defined.

(** C2 as stated fails: a list with a pod twice names the same set of ids
    as the list with the pod once, and the two keys differ, because
    [sorted] keeps the duplicate and its id is hashed twice. *)
Lemma cache_key_duplicates_differ :
  same_uid_set [sample_pod "id1" None] [sample_pod "id1" None; sample_pod "id1" None]
  /\ _cache_key sample_notifier "alice" "m" [sample_pod "id1" None]
     <> _cache_key sample_notifier "alice" "m"
          [sample_pod "id1" None; sample_pod "id1" None].
Proof.
  split.
  - intros u. simpl. tauto.
  - vm_compute. discriminate.
Qed.

(** ** [_generate_pod_string] *)

Lemma string_app_assoc (s1 s2 s3 : string) : (s1 ++ s2) ++ s3 = s1 ++ s2 ++ s3.
Proof. induction s1 as [| a s1 IH]; simpl; [reflexivity | now rewrite IH]. Qed.



(** ** The methods, step by step *)

(** The outcomes of the request of [message_owner]: a response, an
    exception that the method catches, an exception that it lets through. *)
Ltac outcomes :=
  destruct (reply _ _) as [?t | ?ex];
  [| destruct (isinstance_RequestException _)].

Lemma logged_nil (w : World) : logged [] w = w.
Proof. destruct w; unfold logged; simpl. now rewrite app_nil_r. Qed.

Lemma logged_logged (evs1 evs2 : list Event) (w : World) :
  logged evs2 (logged evs1 w) = logged (evs1 ++ evs2) w.
Proof. unfold logged; simpl. now rewrite app_assoc. Qed.

Lemma for_each_emit {A : Type} (f : A -> Event) (l : list A) (self : Notifier) (w : World) :
  for_each l (fun x => emit (f x)) self w = (Return tt, self, logged (map f l) w).
Proof.
  revert w. induction l as [| x l IH]; intros w; simpl.
  - now rewrite logged_nil.
  - unfold bind at 1. unfold emit at 1. fold (logged [f x] w).
    rewrite IH, logged_logged. reflexivity.
Qed.

(** A loop over bodies that are equal is the same loop. *)
Lemma for_each_ext {A : Type} (f g : A -> M unit) (l : list A) :
  (forall x, f x = g x) -> for_each l f = for_each l g.
Proof.
  intros H. induction l as [| x l IH]; simpl; [reflexivity |].
  now rewrite H, IH.
Qed.

(** [struct_log] with keys that [logging] accepts writes its records. *)
Lemma struct_log_eq (message : string) (pods : list Pod) (extra : dict)
  (self : Notifier) (w : World) :
  (forall pod,
     find is_LogRecord_attribute
          (map fst
               (match extra with
                | [] => [ ("pod_name", VStr (pod_path pod));
                          ("pod_id", VStr (uid pod));
                          ("_log_streaming_target_mapping",
                           VStr "kubernetes-ec2-autoscaler") ]
                | _ => dict_update
                         [ ("pod_name", VStr (pod_path pod));
                           ("pod_id", VStr (uid pod));
                           ("_log_streaming_target_mapping",
                            VStr "kubernetes-ec2-autoscaler") ] extra
                end)) = None) ->
  struct_log message pods extra self w
  = (Return tt, self,
     logged (map (fun pod =>
                    struct_logger_debug message
                      (match extra with
                       | [] => [ ("pod_name", VStr (pod_path pod));
                                 ("pod_id", VStr (uid pod));
                                 ("_log_streaming_target_mapping",
                                  VStr "kubernetes-ec2-autoscaler") ]
                       | _ => dict_update
                                [ ("pod_name", VStr (pod_path pod));
                                  ("pod_id", VStr (uid pod));
                                  ("_log_streaming_target_mapping",
                                   VStr "kubernetes-ec2-autoscaler") ] extra
                       end))
                 pods) w).
Proof.
  intros Hfree. unfold struct_log. cbv zeta.
  set (fields := fun pod : Pod =>
                   match extra with
                   | [] => [ ("pod_name", VStr (pod_path pod));
                             ("pod_id", VStr (uid pod));
                             ("_log_streaming_target_mapping",
                              VStr "kubernetes-ec2-autoscaler") ]
                   | _ => dict_update
                            [ ("pod_name", VStr (pod_path pod));
                              ("pod_id", VStr (uid pod));
                              ("_log_streaming_target_mapping",
                               VStr "kubernetes-ec2-autoscaler") ] extra
                   end).
  change (for_each pods (fun pod => struct_logger__debug message (fields pod)) self w
          = (Return tt, self,
             logged (map (fun pod => struct_logger_debug message (fields pod)) pods) w)).
  rewrite (for_each_ext (fun pod => struct_logger__debug message (fields pod))
             (fun pod => emit (struct_logger_debug message (fields pod)))).
  - apply for_each_emit.
  - intros pod. unfold struct_logger__debug, fields. now rewrite Hfree.
Qed.

Lemma post_hook_eq (url message : string) (self : Notifier) (w : World) :
  post_hook url message self w
  = match reply (hook_request url message) w with
    | inl text =>
        (Return tt, self,
         logged [logger_debug ("SLACK: " ++ text)]
                (requested (hook_request url message) w))
    | inr e =>
        if isinstance_ConnectionError e then
          (Return tt, self,
           logged [logger_critical ("Failed to SLACK: " ++ exc_str e)]
                  (requested (hook_request url message) w))
        else (Raise e, self, requested (hook_request url message) w)
    end.
Proof.
  unfold post_hook, try_except, bind, post, reply, requested.
  destruct (response _) as [text | e]; [reflexivity |].
  destruct (isinstance_ConnectionError e); reflexivity.
Qed.

(** Every [notify_*] method has the same shape: the structured records,
    then nothing more than a debug line if there is no web hook, else the
    broadcast followed, but for a drained node, by the messages to the
    owners. *)
Lemma notify_eq (n : Notification) (self : Notifier) (w : World) :
  notify n self w
  = let w1 := logged (struct_records n) w in
    if truthy (hook self) then
      match post_hook (value_of (hook self)) (broadcast_text n) self w1 with
      | (Return _, self', w2) =>
          match owners_text n with
          | Some text => message_owners text (affected n) self' w2
          | None => (Return tt, self', w2)
          end
      | (Raise e, self', w2) => (Raise e, self', w2)
      end
    else (Return tt, self, logged [logger_debug "SLACK_HOOK not configured."] w1).
Proof.
  destruct n; cbn [notify affected];
    unfold notify_scale, notify_failed_to_scale, notify_invalid_pod_capacity,
      notify_drained_node, struct_records;
    unfold bind at 1; (rewrite struct_log_eq by (intros pod'; reflexivity));
    unfold bind at 1, self_hook; cbn [affected]; cbv beta iota zeta;
    (destruct (truthy (hook self)); cbn [negb]; cbv iota; [| reflexivity]);
    unfold broadcast_text, owners_text; rewrite ?string_app_assoc.
  - reflexivity.
  - reflexivity.
  - reflexivity.
  - destruct (post_hook _ _ _ _) as [[[[] | e] self'] w2]; reflexivity.
Qed.

Lemma message_owner_method_eq (owner text : string) (pods : list Pod)
  (self : Notifier) (w : World) :
  message_owner_method owner text pods self w
  = let req := owner_request (bot_token self) owner text pods in
    match reply req w with
    | inl t =>
        (Return tt, self, logged [logger_debug ("SLACK: " ++ t)] (requested req w))
    | inr e =>
        if isinstance_RequestException e then
          (Return tt, self,
           logged [logger_critical ("Failed to SLACK: " ++ exc_str e)] (requested req w))
        else (Raise e, self, requested req w)
    end.
Proof.
  unfold message_owner_method, try_except, bind, self_bot_token, post, reply, requested.
  destruct (response _) as [t | e]; [reflexivity |].
  destruct (isinstance_RequestException e); reflexivity.
Qed.

(** [message_owner], with its decorator: a key that is in the cache and
    has not expired stops the call; otherwise the request goes out, and
    the key is stored if the method returns. *)
Lemma message_owner_eq (owner text : string) (pods : list Pod)
  (self : Notifier) (w : World) :
  message_owner owner text pods self w
  = let k := _cache_key self owner text pods in
    let req := owner_request (bot_token self) owner text pods in
    match TTLCache.getitem (cache self) k (clock w) with
    | (Some _, c) => (Return tt, set_cache self c, w)
    | (None, c) =>
        let w1 := requested req w in
        let stored := set_cache self (snd (TTLCache.setitem c k (clock w1))) in
        match reply req w with
        | inl t => (Return tt, stored, logged [logger_debug ("SLACK: " ++ t)] w1)
        | inr e =>
            if isinstance_RequestException e then
              (Return tt, stored,
               logged [logger_critical ("Failed to SLACK: " ++ exc_str e)] w1)
            else (Raise e, set_cache self c, w1)
        end
    end.
Proof.
  unfold message_owner, cachedmethod. cbv zeta.
  unfold bind at 1. unfold cache_getitem at 1.
  destruct (TTLCache.getitem _ _ _) as [[[] |] c]; [reflexivity |].
  unfold bind at 1. rewrite message_owner_method_eq. cbv zeta.
  unfold reply, requested, set_cache; simpl.
  destruct (response _) as [t | e].
  - unfold bind, cache_setitem, ret, logged; simpl.
    destruct (TTLCache.setitem _ _ _); reflexivity.
  - destruct (isinstance_RequestException e); [| reflexivity].
    unfold bind, cache_setitem, ret, logged; simpl.
    destruct (TTLCache.setitem _ _ _); reflexivity.
Qed.

Lemma message_owners_eq (text : string) (pods : list Pod) (self : Notifier) (w : World) :
  message_owners text pods self w
  = if truthy (bot_token self) then
      for_each (pods_by_owner pods)
               (fun '(owner, pods) => message_owner owner text pods) self w
    else (Return tt, self, logged [logger_debug "SLACK_BOT_TOKEN not configured."] w).
Proof.
  unfold message_owners, bind, self_bot_token.
  destruct (truthy (bot_token self)); reflexivity.
Qed.

(** ** [message_owners]: the pods of each owner *)

Lemma setdefault_append_In (d : list (string * list Pod)) (k : string) (pod : Pod)
  (o : string) (batch : list Pod) :
  In (o, batch) (setdefault_append d k pod) ->
  In (o, batch) d
  \/ (o = k /\ exists batch0, batch = (batch0 ++ [pod])%list
                              /\ (batch0 = [] \/ In (k, batch0) d)).
Proof.
  induction d as [| [k' ps] d IH]; simpl.
  - intros [H | []]. injection H as <- <-. right. split; [reflexivity |].
    exists []. auto.
  - destruct (k' =? k)%string eqn:E.
    + apply String.eqb_eq in E. subst k'. intros [H | H]; [| auto].
      injection H as <- <-. right. split; [reflexivity |]. exists ps. auto.
    + intros [H | H]; [auto |].
      destruct (IH H) as [H' | (-> & b0 & -> & [-> | H'])]; [auto | |].
      * right. split; [reflexivity |]. exists []. auto.
      * right. split; [reflexivity |]. exists b0. auto.
Qed.

Lemma truthy_Some (o : option string) :
  truthy o = true -> o = Some (value_of o) /\ value_of o <> EmptyString.
Proof.
  destruct o as [s |]; simpl; [| discriminate].
  intros H. split; [reflexivity |]. intros ->. discriminate.
Qed.

Lemma pods_by_owner_fold (pods : list Pod) (d : list (string * list Pod)) :
  batches_owned d ->
  batches_owned
    (fold_left (fun d pod =>
                  if truthy (owner pod)
                  then setdefault_append d (value_of (owner pod)) pod
                  else d) pods d).
Proof.
  revert d. induction pods as [| p pods IH]; intros d Hd; simpl; [exact Hd |].
  apply IH. destruct (truthy (owner p)) eqn:E; [| exact Hd].
  destruct (truthy_Some _ E) as [Ho Hne].
  intros o batch pod Hin Hpod.
  destruct (setdefault_append_In _ _ _ _ _ Hin) as [H | (-> & b0 & -> & H)].
  - exact (Hd _ _ _ H Hpod).
  - apply in_app_or in Hpod. destruct Hpod as [Hpod | [<- | []]]; [| auto].
    destruct H as [-> | H]; [destruct Hpod |].
    exact (Hd _ _ _ H Hpod).
Qed.

Lemma pods_by_owner_ownerless (pods : list Pod) (d : list (string * list Pod)) :
  (forall pod, In pod pods -> truthy (owner pod) = false) ->
  fold_left (fun d pod =>
               if truthy (owner pod)
               then setdefault_append d (value_of (owner pod)) pod
               else d) pods d = d.
Proof.
  revert d. induction pods as [| p pods IH]; intros d H; simpl; [reflexivity |].
  rewrite (H p (or_introl eq_refl)). apply IH. intros pod Hin. apply H. now right.
Qed.

Lemma setdefault_append_keeps (d : list (string * list Pod)) (k : string) (p : Pod)
  (o : string) (batch : list Pod) (pod : Pod) :
  In (o, batch) d -> In pod batch ->
  exists batch', In (o, batch') (setdefault_append d k p) /\ In pod batch'.
Proof.
  induction d as [| [k' ps] d IH]; simpl; [intros [] |].
  intros [H | H] Hpod.
  - injection H as -> ->. destruct (o =? k)%string.
    + exists (batch ++ [p])%list. split; [now left | apply in_or_app; now left].
    + exists batch. split; [now left | exact Hpod].
  - destruct (k' =? k)%string.
    + exists batch. split; [now right | exact Hpod].
    + destruct (IH H Hpod) as (b' & Hin & Hp). exists b'. split; [now right | exact Hp].
Qed.

Lemma setdefault_append_adds (d : list (string * list Pod)) (k : string) (p : Pod) :
  exists batch, In (k, batch) (setdefault_append d k p) /\ In p batch.
Proof.
  induction d as [| [k' ps] d IH]; simpl.
  - exists [p]. split; left; reflexivity.
  - destruct (k' =? k)%string eqn:E.
    + apply String.eqb_eq in E. subst k'. exists (ps ++ [p])%list.
      split; [now left | apply in_or_app; right; now left].
    + destruct IH as (b & Hin & Hp). exists b. split; [now right | exact Hp].
Qed.

(** Every pod that has an owner is in the batch of its owner. *)
Lemma pods_by_owner_complete (pods : list Pod) (pod : Pod) :
  In pod pods -> truthy (owner pod) = true ->
  exists batch, In (value_of (owner pod), batch) (pods_by_owner pods) /\ In pod batch.
Proof.
  unfold pods_by_owner. generalize (@nil (string * list Pod)) as d.
  assert (Hkeep : forall ps d,
             (exists batch, In (value_of (owner pod), batch) d /\ In pod batch) ->
             exists batch,
               In (value_of (owner pod), batch)
                  (fold_left (fun d pod =>
                                if truthy (owner pod)
                                then setdefault_append d (value_of (owner pod)) pod
                                else d) ps d)
               /\ In pod batch).
  { induction ps as [| p ps IH]; intros d H; simpl; [exact H |].
    apply IH. destruct (truthy (owner p)); [| exact H].
    destruct H as (b & Hin & Hp). eapply setdefault_append_keeps; eassumption. }
  induction pods as [| p pods IH]; intros d Hin Ho; simpl; [destruct Hin |].
  destruct Hin as [-> | Hin].
  - rewrite Ho. apply Hkeep. apply setdefault_append_adds.
  - now apply IH.
Qed.

(** C9: in the grouping of [message_owners], every pod of a batch has the
    owner of the batch, so that a pod with no owner ([None], or the empty
    string) is in no batch; and when no pod has an owner there is no
    batch: [message_owners] posts nothing and leaves the notifier, its
    cache included, as it was. *)
Theorem message_owners_skips_ownerless (text : string) (pods : list Pod) :
  (forall o batch pod,
      In (o, batch) (pods_by_owner pods) -> In pod batch ->
      owner pod = Some o /\ o <> EmptyString)
  /\ (forall pod, truthy (owner pod) = false ->
        forall o batch, In (o, batch) (pods_by_owner pods) -> ~ In pod batch)
  /\ ((forall pod, In pod pods -> truthy (owner pod) = false) ->
        pods_by_owner pods = []
        /\ forall (self : Notifier) (w : World),
             fst (exec (message_owners text pods) (self, w)) = self
             /\ posts (exec (message_owners text pods) (self, w)) = posts (self, w)).
Proof.
  assert (Hown : batches_owned (pods_by_owner pods)).
  { apply pods_by_owner_fold. intros o batch pod []. }
  split; [exact Hown | split].
  - intros pod Hpod o batch Hin Hb.
    destruct (Hown _ _ _ Hin Hb) as [Ho Hne]. rewrite Ho in Hpod. simpl in Hpod.
    destruct o; [now apply Hne | discriminate].
  - intros H.
    assert (Hnil : pods_by_owner pods = []) by now apply pods_by_owner_ownerless.
    split; [exact Hnil |]. intros self w.
    unfold exec, posts. simpl fst; simpl snd.
    rewrite message_owners_eq, Hnil.
    destruct (truthy (bot_token self)); simpl; [auto |].
    split; [reflexivity |]. rewrite filter_app. simpl. now rewrite app_nil_r.
Qed.

Lemma message_owners_skips_ownerless_witness :
  (forall pod, In pod [sample_pod "id1" None; sample_pod "id2" (Some EmptyString)] ->
               truthy (owner pod) = false)
  /\ pods_by_owner [sample_pod "id1" None; sample_pod "id2" (Some EmptyString)] = [].
Proof.
  assert (H : forall pod,
             In pod [sample_pod "id1" None; sample_pod "id2" (Some EmptyString)] ->
             truthy (owner pod) = false).
  { simpl. intros pod [<- | [<- | []]]; reflexivity. }
  split; [exact H |].
  exact (proj1 (proj2 (proj2 (message_owners_skips_ownerless
                                "m" [sample_pod "id1" None;
                                     sample_pod "id2" (Some EmptyString)])) H)).
Defined.

(** ** [notify_drained_node] *)

(** C8: for every node, list of pods, notifier and world, a drain writes
    the structured records, then either a debug line (no web hook) or the
    request to the web hook and the line that logs its outcome. It makes no
    request to the chat API, and leaves the notifier, its cache included,
    as it was, whoever owns the pods. *)
Theorem notify_drained_node_no_direct
  (node : string) (pods : list Pod) (self : Notifier) (w : World) :
  let n := DrainedNode node pods in
  let s' := exec (notify_drained_node node pods) (self, w) in
  let w1 := logged (struct_records n) w in
  let req := hook_request (value_of (hook self)) (broadcast_text n) in
  fst s' = self
  /\ trace (snd s')
     = (trace w ++ struct_records n
          ++ (if truthy (hook self) then
                requests_post req
                  :: match reply req w1 with
                     | inl t => [logger_debug ("SLACK: " ++ t)]
                     | inr e =>
                         if isinstance_ConnectionError e
                         then [logger_critical ("Failed to SLACK: " ++ exc_str e)]
                         else []
                     end
              else [logger_debug "SLACK_HOOK not configured."]))%list
  /\ filter is_direct (trace (snd s')) = filter is_direct (trace w).
Proof.
  cbv zeta.
  assert (Hrec : filter is_direct (struct_records (DrainedNode node pods)) = []).
  { unfold struct_records. simpl affected. cbv beta iota zeta.
    induction pods as [| p ps IH]; simpl; auto. }
  unfold exec. simpl fst; simpl snd.
  change (notify_drained_node node pods) with (notify (DrainedNode node pods)).
  rewrite notify_eq. cbv zeta.
  destruct (truthy (hook self)).
  - rewrite post_hook_eq. simpl owners_text.
    destruct (reply _ _) as [t | e]; [| destruct (isinstance_ConnectionError e)];
      simpl; rewrite <- ?app_assoc; (split; [reflexivity | split; [reflexivity |]]);
      rewrite !filter_app, Hrec; simpl; now rewrite ?app_nil_r.
  - simpl. rewrite <- app_assoc. split; [reflexivity | split; [reflexivity |]].
    rewrite !filter_app, Hrec. simpl. now rewrite app_nil_r.
Qed.

(** ** Errors of the transport *)

Lemma caught_network (w w' : World) :
  network w' = network w -> caught w -> caught w'.
Proof. unfold caught. intros ->. auto. Qed.

Lemma message_owner_returns (owner text : string) (pods : list Pod)
  (self : Notifier) (w : World) :
  caught w ->
  exists self' w',
    message_owner owner text pods self w = (Return tt, self', w')
    /\ network w' = network w
    /\ hook self' = hook self /\ bot_token self' = bot_token self.
Proof.
  intros Hc. rewrite message_owner_eq. cbv zeta.
  destruct (TTLCache.getitem _ _ _) as [[[] |] c]; [eauto 6 |].
  unfold reply. destruct (response _) as [t | e] eqn:E; [eauto 6 |].
  apply Hc in E. simpl in E. rewrite E. eauto 6.
Qed.

Lemma for_each_message_owner_returns (text : string) (d : list (string * list Pod))
  (self : Notifier) (w : World) :
  caught w ->
  exists self' w',
    for_each d (fun '(owner, pods) => message_owner owner text pods) self w
    = (Return tt, self', w')
    /\ network w' = network w.
Proof.
  revert self w. induction d as [| [o ps] d IH]; intros self w Hc; simpl.
  - exists self, w. split; reflexivity.
  - destruct (message_owner_returns o text ps self w Hc) as (self1 & w1 & E & Hn & _).
    unfold bind. rewrite E.
    destruct (IH self1 w1 (caught_network _ _ Hn Hc)) as (self2 & w2 & E2 & Hn2).
    rewrite E2. exists self2, w2. split; [reflexivity | congruence].
Qed.

Lemma message_owners_returns (text : string) (pods : list Pod)
  (self : Notifier) (w : World) :
  caught w -> result (message_owners text pods) (self, w) = Return tt.
Proof.
  intros Hc. unfold result. simpl fst; simpl snd. rewrite message_owners_eq.
  destruct (truthy (bot_token self)); [| reflexivity].
  destruct (for_each_message_owner_returns text (pods_by_owner pods) self w Hc)
    as (self' & w' & E & _).
  now rewrite E.
Qed.

(** C5, amended: on a network whose exceptions are of the classes the call
    sites catch ([ConnectionError] from the web hook, [RequestException]
    from the chat API), each of the four notifications returns to its
    caller without raising. A [ConnectionError] of the web hook is logged
    as critical and the notification goes on: the messages to the owners
    are attempted as after a broadcast that went through. A
    [RequestException] of the chat API is logged as critical and
    [message_owner] returns. *)
Theorem notify_best_effort (n : Notification) (self : Notifier) (w : World) :
  caught w ->
  result (notify n) (self, w) = Return tt
  /\ (forall e : exception,
        let w1 := logged (struct_records n) w in
        let req := hook_request (value_of (hook self)) (broadcast_text n) in
        let w2 := logged [logger_critical ("Failed to SLACK: " ++ exc_str e)]
                         (requested req w1) in
        truthy (hook self) = true ->
        reply req w1 = inr e ->
        notify n self w
        = match owners_text n with
          | Some text => message_owners text (affected n) self w2
          | None => (Return tt, self, w2)
          end)
  /\ (forall (owner text : string) (pods : list Pod) (e : exception),
        let req := owner_request (bot_token self) owner text pods in
        reply req w = inr e ->
        message_owner_method owner text pods self w
        = (Return tt, self,
           logged [logger_critical ("Failed to SLACK: " ++ exc_str e)]
                  (requested req w))).
Proof.
  intros Hc. split; [| split].
  - unfold result. simpl fst; simpl snd. rewrite notify_eq. cbv zeta.
    destruct (truthy (hook self)); [| reflexivity].
    rewrite post_hook_eq.
    assert (Hc1 : forall evs req,
               caught (logged evs (requested req (logged (struct_records n) w)))).
    { intros evs req. eapply caught_network; [| exact Hc]. reflexivity. }
    destruct (reply _ _) as [t | e] eqn:E.
    + destruct (owners_text n) as [text |]; [| reflexivity].
      apply (message_owners_returns text (affected n) self _ (Hc1 _ _)).
    + unfold reply in E. apply Hc in E. simpl in E. rewrite E.
      destruct (owners_text n) as [text |]; [| reflexivity].
      apply (message_owners_returns text (affected n) self _ (Hc1 _ _)).
  - cbv zeta. intros e Hh E. rewrite notify_eq. cbv zeta.
    rewrite Hh, post_hook_eq, E.
    unfold reply in E. apply Hc in E. simpl in E. rewrite E. reflexivity.
  - cbv zeta. intros owner text pods e E. rewrite message_owner_method_eq. cbv zeta.
    rewrite E. unfold reply in E. apply Hc in E. simpl in E. now rewrite E.
Qed.

Lemma down_world_caught : caught down_world.
Proof.
  intros i req e H. simpl in H. injection H as <-. destruct req; reflexivity.
Qed.

Lemma notify_best_effort_witness :
  let n := Scale sample_asg 3 sample_pods in
  let w1 := logged (struct_records n) down_world in
  let req := hook_request (value_of (hook sample_notifier)) (broadcast_text n) in
  let w2 := logged [logger_critical "Failed to SLACK: Connection refused"]
                   (requested req w1) in
  caught down_world
  /\ truthy (hook sample_notifier) = true
  /\ reply req w1 = inr connection_refused
  /\ result (notify n) (sample_notifier, down_world) = Return tt
  /\ notify n sample_notifier down_world
     = match owners_text n with
       | Some text => message_owners text (affected n) sample_notifier w2
       | None => (Return tt, sample_notifier, w2)
       end.
Proof.
  cbv zeta.
  assert (H1 : caught down_world) by exact down_world_caught.
  assert (H2 : truthy (hook sample_notifier) = true) by reflexivity.
  assert (H3 : reply (hook_request (value_of (hook sample_notifier))
                        (broadcast_text (Scale sample_asg 3 sample_pods)))
                     (logged (struct_records (Scale sample_asg 3 sample_pods)) down_world)
               = inr connection_refused) by reflexivity.
  destruct (notify_best_effort (Scale sample_asg 3 sample_pods)
              sample_notifier down_world H1) as (P1 & P2 & _).
  exact (conj H1 (conj H2 (conj H3 (conj P1 (P2 connection_refused H2 H3))))).
Defined.

(** C5 as stated fails: the web hook raises a [RequestException] that is
    not a [ConnectionError]; [notify_scale] lets it through to its caller,
    and the owner of the pod is sent nothing. *)
Lemma notify_scale_raises :
  result (notify_scale sample_asg 3 [sample_pod "id1" (Some "alice")])
         (sample_notifier, broken_world)
  = Raise {| exc_class := OtherRequestException;
             exc_str := "Connection broken: IncompleteRead(0 bytes read)" |}
  /\ filter is_direct
       (trace (snd (exec (notify_scale sample_asg 3 [sample_pod "id1" (Some "alice")])
                         (sample_notifier, broken_world))))
     = [].
Proof. split; vm_compute; reflexivity. Qed.

(** ** Notifications without a web hook *)




(** ** The cache *)

Lemma has_key_true (k : string) (l : TTLCache.link) :
  TTLCache.has_key k l = true -> TTLCache.key l = k.
Proof. unfold TTLCache.has_key. apply String.eqb_eq. Qed.

Lemma has_key_other (k k' : string) (l : TTLCache.link) :
  k' <> k -> TTLCache.has_key k l = true -> TTLCache.has_key k' l = false.
Proof.
  unfold TTLCache.has_key. intros Hne H. apply String.eqb_eq in H.
  apply String.eqb_neq. congruence.
Qed.

Lemma getlink_key (k : string) (ls : list TTLCache.link) (l : TTLCache.link) :
  TTLCache.getlink k ls = Some l -> TTLCache.key l = k /\ In l ls.
Proof.
  unfold TTLCache.getlink. intros H. apply find_some in H.
  destruct H as [Hin Hk]. split; [now apply has_key_true | exact Hin].
Qed.

Lemma getlink_app (k : string) (ls1 ls2 : list TTLCache.link) :
  TTLCache.getlink k (ls1 ++ ls2)
  = match TTLCache.getlink k ls1 with
    | Some l => Some l
    | None => TTLCache.getlink k ls2
    end.
Proof.
  unfold TTLCache.getlink. induction ls1 as [| l ls1 IH]; simpl; [reflexivity |].
  destruct (TTLCache.has_key k l); [reflexivity | exact IH].
Qed.

Lemma getlink_remove_self (k : string) (ls : list TTLCache.link) :
  TTLCache.getlink k (TTLCache.remove k ls) = None.
Proof.
  unfold TTLCache.getlink, TTLCache.remove.
  induction ls as [| l ls IH]; simpl; [reflexivity |].
  destruct (TTLCache.has_key k l) eqn:E; simpl; [exact IH |].
  now rewrite E.
Qed.

Lemma getlink_remove_other (k k' : string) (ls : list TTLCache.link) :
  k' <> k ->
  TTLCache.getlink k (TTLCache.remove k' ls) = TTLCache.getlink k ls.
Proof.
  intros Hne. unfold TTLCache.getlink, TTLCache.remove.
  induction ls as [| l ls IH]; simpl; [reflexivity |].
  destruct (TTLCache.has_key k l) eqn:E.
  - rewrite (has_key_other _ _ _ Hne E). simpl. now rewrite E.
  - destruct (TTLCache.has_key k' l); simpl; [exact IH |]. now rewrite E.
Qed.

Lemma getlink_expire (k : string) (t : Z) (ls : list TTLCache.link) (l : TTLCache.link) :
  TTLCache.getlink k ls = Some l -> t < TTLCache.expires l ->
  TTLCache.getlink k (TTLCache.expire t ls) = Some l.
Proof.
  unfold TTLCache.getlink, TTLCache.expire. intros H Ht.
  induction ls as [| x ls IH]; simpl in *; [discriminate |].
  destruct (TTLCache.has_key k x) eqn:E.
  - injection H as ->. apply Z.ltb_lt in Ht. rewrite Ht. simpl. now rewrite E.
  - destruct (t <? TTLCache.expires x); simpl; [rewrite E |]; auto.
Qed.

Lemma used_after_remove_self (k : string) (ls : list TTLCache.link) (l : TTLCache.link) :
  TTLCache.key l = k -> used_after k (TTLCache.remove k ls ++ [l]) = [].
Proof.
  intros Hk. unfold TTLCache.remove.
  induction ls as [| x ls IH]; simpl.
  - unfold TTLCache.has_key. rewrite Hk, String.eqb_refl. reflexivity.
  - destruct (TTLCache.has_key k x) eqn:E; simpl; [exact IH |]. now rewrite E.
Qed.

Lemma used_after_remove_other (k k' : string) (ls ls2 : list TTLCache.link) :
  k' <> k -> TTLCache.getlink k ls <> None ->
  used_after k (TTLCache.remove k' ls ++ ls2)
  = (TTLCache.remove k' (used_after k ls) ++ ls2)%list.
Proof.
  intros Hne. unfold TTLCache.getlink, TTLCache.remove.
  induction ls as [| x ls IH]; simpl; [congruence |].
  destruct (TTLCache.has_key k x) eqn:E.
  - intros _. rewrite (has_key_other _ _ _ Hne E). simpl. now rewrite E.
  - intros H. destruct (TTLCache.has_key k' x); simpl; [| rewrite E]; auto.
Qed.

Lemma used_after_expire (k : string) (t : Z) (ls : list TTLCache.link) (l : TTLCache.link) :
  TTLCache.getlink k ls = Some l -> t < TTLCache.expires l ->
  used_after k (TTLCache.expire t ls) = TTLCache.expire t (used_after k ls).
Proof.
  unfold TTLCache.getlink, TTLCache.expire. intros H Ht.
  induction ls as [| x ls IH]; simpl in *; [discriminate |].
  destruct (TTLCache.has_key k x) eqn:E.
  - injection H as ->. apply Z.ltb_lt in Ht. rewrite Ht. simpl. now rewrite E.
  - destruct (t <? TTLCache.expires x); simpl; [rewrite E |]; auto.
Qed.

(** Making room for one more entry does not drop a key that fewer than
    [maxsize - 1] entries have followed. *)
Lemma make_room_keeps (k : string) (maxsize : nat) (ls : list TTLCache.link)
  (l : TTLCache.link) :
  TTLCache.getlink k ls = Some l ->
  (List.length (used_after k ls) + 2 <= maxsize)%nat ->
  TTLCache.getlink k (TTLCache.make_room maxsize ls) = Some l
  /\ used_after k (TTLCache.make_room maxsize ls) = used_after k ls.
Proof.
  unfold TTLCache.getlink.
  induction ls as [| x ls IH]; [discriminate |].
  intros H Hn. cbn [TTLCache.make_room].
  destruct (maxsize <? List.length (x :: ls) + 1)%nat eqn:Hfull; [| auto].
  apply Nat.ltb_lt in Hfull. cbn [find used_after List.length] in *.
  destruct (TTLCache.has_key k x) eqn:E; [lia |].
  apply IH; assumption.
Qed.

Lemma remove_length (k : string) (ls : list TTLCache.link) :
  (List.length (TTLCache.remove k ls) <= List.length ls)%nat.
Proof. apply filter_length_le. Qed.

Lemma expire_length (t : Z) (ls : list TTLCache.link) :
  (List.length (TTLCache.expire t ls) <= List.length ls)%nat.
Proof. apply filter_length_le. Qed.

(** Storing another key keeps key [k], if fewer than [maxsize - 1] live
    entries have been used since it was. *)
Lemma setitem_other (c : TTLCache.t) (k k' : string) (e t : Z) :
  k' <> k ->
  TTLCache.getlink k (TTLCache.links c)
  = Some {| TTLCache.key := k; TTLCache.expires := e |} ->
  t < e ->
  (List.length (used_after k (TTLCache.expire t (TTLCache.links c))) + 2
   <= TTLCache.maxsize c)%nat ->
  let c' := snd (TTLCache.setitem c k' t) in
  kept k e (List.length (used_after k (TTLCache.expire t (TTLCache.links c))) + 1) c'
  /\ TTLCache.maxsize c' = TTLCache.maxsize c
  /\ TTLCache.ttl c' = TTLCache.ttl c.
Proof.
  intros Hne Hk Ht Hn. unfold TTLCache.setitem.
  destruct (TTLCache.maxsize c <? 1)%nat eqn:Hsize;
    [apply Nat.ltb_lt in Hsize; lia |].
  pose proof (getlink_expire k t _ _ Hk Ht) as Hk2.
  set (ls2 := TTLCache.expire t (TTLCache.links c)) in *.
  assert (H3 : exists ls3,
             match TTLCache.getlink k' ls2 with
             | Some _ => ls2
             | None => TTLCache.make_room (TTLCache.maxsize c) ls2
             end = ls3
             /\ TTLCache.getlink k ls3
                = Some {| TTLCache.key := k; TTLCache.expires := e |}
             /\ used_after k ls3 = used_after k ls2).
  { destruct (TTLCache.getlink k' ls2); [eauto |].
    destruct (make_room_keeps k _ _ _ Hk2 Hn). eauto. }
  destruct H3 as (ls3 & -> & Hk3 & Hu3). simpl.
  split; [| split; reflexivity]. split; simpl.
  - rewrite getlink_app, getlink_remove_other, Hk3; auto.
  - rewrite used_after_remove_other; [| assumption | congruence].
    rewrite length_app, Hu3. simpl. pose proof (remove_length k' (used_after k ls2)). lia.
Qed.

(** Looking another key up keeps key [k]; the entry looked up is the one
    used last, and is dropped by the next [expire] if its time has come. *)
Lemma getitem_other (c : TTLCache.t) (k k' : string) (e t : Z) (n : nat) :
  k' <> k -> kept k e n c ->
  let c' := snd (TTLCache.getitem c k' t) in
  kept k e (S n) c'
  /\ TTLCache.maxsize c' = TTLCache.maxsize c
  /\ TTLCache.ttl c' = TTLCache.ttl c
  /\ (fst (TTLCache.getitem c k' t) = None ->
      forall t2, t <= t2 -> t2 < e ->
        (List.length (used_after k (TTLCache.expire t2 (TTLCache.links c'))) <= n)%nat).
Proof.
  intros Hne [Hk Hn]. unfold TTLCache.getitem.
  destruct (TTLCache.getlink k' (TTLCache.links c)) as [l' |] eqn:Hk'.
  - assert (Hc' : forall v : option unit,
               snd (v, TTLCache.set_links c (TTLCache.remove k' (TTLCache.links c) ++ [l'])%list)
               = TTLCache.set_links c (TTLCache.remove k' (TTLCache.links c) ++ [l'])%list)
      by reflexivity.
    assert (Hu : used_after k (TTLCache.remove k' (TTLCache.links c) ++ [l'])
                 = (TTLCache.remove k' (used_after k (TTLCache.links c)) ++ [l'])%list).
    { apply used_after_remove_other; congruence. }
    assert (Hg : TTLCache.getlink k (TTLCache.remove k' (TTLCache.links c) ++ [l'])
                 = Some {| TTLCache.key := k; TTLCache.expires := e |}).
    { rewrite getlink_app, getlink_remove_other, Hk; auto. }
    pose proof (remove_length k' (used_after k (TTLCache.links c))) as Hr.
    destruct (t <? TTLCache.expires l') eqn:Hlive; simpl.
    + split; [split; simpl |].
      * exact Hg.
      * rewrite Hu, length_app. simpl. lia.
      * repeat split. discriminate.
    + split; [split; simpl |].
      * exact Hg.
      * rewrite Hu, length_app. simpl. lia.
      * repeat split. intros _ t2 Ht2 Ht2e.
        rewrite (used_after_expire k t2 _ _ Hg Ht2e), Hu.
        unfold TTLCache.expire. rewrite filter_app. simpl.
        apply Z.ltb_ge in Hlive.
        assert (Hx : (t2 <? TTLCache.expires l') = false) by (apply Z.ltb_ge; lia).
        rewrite Hx, app_nil_r.
        pose proof (expire_length t2 (TTLCache.remove k' (used_after k (TTLCache.links c)))).
        unfold TTLCache.expire in *. lia.
  - simpl. split; [split; [exact Hk | lia] |]. repeat split.
    intros _ t2 _ Ht2e.
    rewrite (used_after_expire k t2 _ _ Hk Ht2e).
    pose proof (expire_length t2 (used_after k (TTLCache.links c))). lia.
Qed.

(** Looking key [k] up before its time has come finds it, and makes it the
    entry used last. *)
Lemma getitem_same (c : TTLCache.t) (k : string) (e t : Z) (n : nat) :
  kept k e n c -> t < e ->
  fst (TTLCache.getitem c k t) = Some tt
  /\ kept k e 0 (snd (TTLCache.getitem c k t))
  /\ TTLCache.maxsize (snd (TTLCache.getitem c k t)) = TTLCache.maxsize c
  /\ TTLCache.ttl (snd (TTLCache.getitem c k t)) = TTLCache.ttl c.
Proof.
  intros [Hk _] Ht. unfold TTLCache.getitem. rewrite Hk. simpl.
  apply Z.ltb_lt in Ht. rewrite Ht. simpl. repeat split; simpl.
  - rewrite getlink_app, getlink_remove_self. unfold TTLCache.getlink. simpl.
    unfold TTLCache.has_key. simpl. now rewrite String.eqb_refl.
  - now rewrite used_after_remove_self.
Qed.

Lemma kept_weaken (k : string) (e : Z) (n m : nat) (c : TTLCache.t) :
  (n <= m)%nat -> kept k e n c -> kept k e m c.
Proof. intros Hnm [Hk Hn]. split; [exact Hk | lia]. Qed.

Lemma live_getitem (c : TTLCache.t) (k : string) (t : Z) :
  fst (TTLCache.getitem c k t) = if TTLCache.live c k t then Some tt else None.
Proof.
  unfold TTLCache.getitem, TTLCache.live.
  destruct (TTLCache.getlink k (TTLCache.links c)) as [l |]; [| reflexivity].
  destruct (t <? TTLCache.expires l); reflexivity.
Qed.

Lemma expiring_not_live (c : TTLCache.t) (k : string) (e t : Z) :
  expiring k e c -> e <= t -> TTLCache.live c k t = false.
Proof.
  intros He Ht. unfold TTLCache.live.
  destruct (TTLCache.getlink k (TTLCache.links c)) as [l |] eqn:E; [| reflexivity].
  apply getlink_key in E. destruct E as [Hk Hin].
  rewrite (He l Hin Hk). apply Z.ltb_ge. exact Ht.
Qed.

(** Storing key [k] makes it the entry used last, with a new expiry time. *)
Lemma setitem_same (c : TTLCache.t) (k : string) (t : Z) :
  (1 <= TTLCache.maxsize c)%nat ->
  let c' := snd (TTLCache.setitem c k t) in
  kept k (t + TTLCache.ttl c) 0 c'
  /\ expiring k (t + TTLCache.ttl c) c'
  /\ TTLCache.maxsize c' = TTLCache.maxsize c
  /\ TTLCache.ttl c' = TTLCache.ttl c.
Proof.
  intros Hsize. unfold TTLCache.setitem.
  destruct (TTLCache.maxsize c <? 1)%nat eqn:E; [apply Nat.ltb_lt in E; lia |].
  simpl. split; [split; simpl | split; [| split; reflexivity]].
  - rewrite getlink_app, getlink_remove_self. unfold TTLCache.getlink. simpl.
    unfold TTLCache.has_key. simpl. now rewrite String.eqb_refl.
  - now rewrite used_after_remove_self.
  - intros l Hin Hk. simpl in Hin. apply in_app_or in Hin.
    destruct Hin as [Hin | [<- | []]]; [| reflexivity].
    unfold TTLCache.remove in Hin. apply filter_In in Hin. destruct Hin as [_ Hin].
    unfold TTLCache.has_key in Hin. rewrite Hk, String.eqb_refl in Hin. discriminate.
Qed.

Lemma make_room_In (maxsize : nat) (ls : list TTLCache.link) (l : TTLCache.link) :
  In l (TTLCache.make_room maxsize ls) -> In l ls.
Proof.
  induction ls as [| x ls IH]; [auto |].
  cbn [TTLCache.make_room].
  destruct (maxsize <? List.length (x :: ls) + 1)%nat; [| auto].
  intros H. right. auto.
Qed.

Lemma getitem_In (c : TTLCache.t) (k : string) (t : Z) (l : TTLCache.link) :
  In l (TTLCache.links (snd (TTLCache.getitem c k t))) -> In l (TTLCache.links c).
Proof.
  unfold TTLCache.getitem.
  destruct (TTLCache.getlink k (TTLCache.links c)) as [l' |] eqn:E; [| auto].
  apply getlink_key in E. destruct E as [_ Hin'].
  assert (H : In l (TTLCache.remove k (TTLCache.links c) ++ [l']) -> In l (TTLCache.links c)).
  { intros H. apply in_app_or in H. destruct H as [H | [<- | []]]; [| exact Hin'].
    unfold TTLCache.remove in H. apply filter_In in H. tauto. }
  destruct (t <? TTLCache.expires l'); exact H.
Qed.

Lemma setitem_In (c : TTLCache.t) (k : string) (t : Z) (l : TTLCache.link) :
  In l (TTLCache.links (snd (TTLCache.setitem c k t))) ->
  In l (TTLCache.links c) \/ TTLCache.key l = k.
Proof.
  unfold TTLCache.setitem.
  destruct (TTLCache.maxsize c <? 1)%nat; simpl.
  - intros H. left. unfold TTLCache.expire in H. apply filter_In in H. tauto.
  - intros H. apply in_app_or in H. destruct H as [H | [<- | []]]; [| now right].
    left. unfold TTLCache.remove in H. apply filter_In in H. destruct H as [H _].
    assert (Hin : In l (TTLCache.expire t (TTLCache.links c))).
    { destruct (TTLCache.getlink k (TTLCache.expire t (TTLCache.links c)));
        [exact H | now apply make_room_In in H]. }
    unfold TTLCache.expire in Hin. apply filter_In in Hin. tauto.
Qed.

Lemma NoDup_snoc {A : Type} (l : list A) (x : A) :
  NoDup l -> ~ In x l -> NoDup (l ++ [x]).
Proof.
  intros Hl Hx. apply (Permutation_NoDup (Permutation_cons_append l x)).
  now constructor.
Qed.

Lemma filter_keys_NoDup (keep : TTLCache.link -> bool) (ls : list TTLCache.link) :
  NoDup (map TTLCache.key ls) -> NoDup (map TTLCache.key (filter keep ls)).
Proof.
  intros Hnd. induction ls as [| l ls IH]; cbn [filter map] in *; [constructor |].
  inversion Hnd as [| ? ? Hl Hls]; subst.
  destruct (keep l); cbn [map]; [| now apply IH].
  constructor; [| now apply IH].
  intros Hin. apply Hl. apply in_map_iff in Hin. destruct Hin as (l' & Hk & Hin).
  apply filter_In in Hin. apply in_map_iff. exists l'. tauto.
Qed.

Lemma remove_no_key (k : string) (ls : list TTLCache.link) :
  ~ In k (map TTLCache.key (TTLCache.remove k ls)).
Proof.
  intros Hin. apply in_map_iff in Hin. destruct Hin as (l & Hk & Hin).
  unfold TTLCache.remove in Hin. apply filter_In in Hin. destruct Hin as [_ Hin].
  unfold TTLCache.has_key in Hin. rewrite Hk, String.eqb_refl in Hin. discriminate.
Qed.

Lemma used_after_In (k : string) (ls : list TTLCache.link) (l : TTLCache.link) :
  In l (used_after k ls) -> In l ls.
Proof.
  induction ls as [| x ls IH]; cbn [used_after]; [auto |].
  destruct (TTLCache.has_key k x); intros H; [now right | right; auto].
Qed.

Lemma getlink_None (k : string) (ls : list TTLCache.link) :
  TTLCache.getlink k ls = None -> ~ In k (map TTLCache.key ls).
Proof.
  unfold TTLCache.getlink. intros H Hin.
  apply in_map_iff in Hin. destruct Hin as (l & Hk & Hin).
  pose proof (find_none _ _ H l Hin) as Hf.
  unfold TTLCache.has_key in Hf. rewrite Hk, String.eqb_refl in Hf. discriminate.
Qed.

(** Keys that differ and are among [seen], of which one more is not one
    of them: they are fewer than [seen]. *)
Lemma NoDup_incl_fewer (x : string) (l seen : list string) :
  NoDup l -> incl l seen -> In x seen -> ~ In x l ->
  (List.length l + 1 <= List.length seen)%nat.
Proof.
  intros Hnd Hincl Hx Hnx.
  assert (H : (List.length (x :: l) <= List.length seen)%nat).
  { apply NoDup_incl_length; [now constructor |].
    intros y [<- | Hy]; [exact Hx | now apply Hincl]. }
  simpl in H. lia.
Qed.

Lemma note_key_In (k' : string) (seen : list string) : In k' (note_key k' seen).
Proof.
  unfold note_key. destruct (existsb (String.eqb k') seen) eqn:E; [| now left].
  apply existsb_exists in E. destruct E as (x & Hx & E).
  apply String.eqb_eq in E. now subst x.
Qed.

Lemma note_key_incl (k' : string) (seen : list string) : incl seen (note_key k' seen).
Proof.
  unfold note_key. destruct (existsb (String.eqb k') seen); intros x Hx; [exact Hx |].
  now right.
Qed.

Lemma recent_incl (k : string) (seen seen' : list string) (c : TTLCache.t) :
  incl seen seen' -> recent k seen c -> recent k seen' c.
Proof. intros Hi [Hnd Hin]. split; [exact Hnd | eapply incl_tran; eassumption]. Qed.

Lemma kept_recent (k : string) (e : Z) (c : TTLCache.t) :
  kept k e 0 c -> recent k [] c.
Proof.
  intros [_ Hn]. unfold recent.
  destruct (used_after k (TTLCache.links c)); [| simpl in Hn; lia].
  split; [constructor | intros x []].
Qed.

(** An entry of key [k'] put last, in the place of those the key had. *)
Lemma recent_snoc (k' : string) (seen : list string)
  (used : list TTLCache.link) (l' : TTLCache.link) :
  TTLCache.key l' = k' ->
  NoDup (map TTLCache.key used) ->
  incl (map TTLCache.key used) seen ->
  In k' seen ->
  NoDup (map TTLCache.key (TTLCache.remove k' used ++ [l']))
  /\ incl (map TTLCache.key (TTLCache.remove k' used ++ [l'])) seen.
Proof.
  intros Hk Hnd Hincl Hin. rewrite map_app. cbn [map]. rewrite Hk. split.
  - apply NoDup_snoc; [now apply filter_keys_NoDup | apply remove_no_key].
  - intros x Hx. apply in_app_or in Hx. destruct Hx as [Hx | [<- | []]]; [| exact Hin].
    apply Hincl. apply in_map_iff in Hx. destruct Hx as (l & <- & Hl).
    unfold TTLCache.remove in Hl. apply filter_In in Hl. apply in_map. tauto.
Qed.

(** Looking another key up leaves the entries used after key [k] with
    keys that differ. *)
Lemma getitem_other_recent (c : TTLCache.t) (k k' : string) (e t : Z)
  (seen : list string) :
  k' <> k ->
  TTLCache.getlink k (TTLCache.links c)
  = Some {| TTLCache.key := k; TTLCache.expires := e |} ->
  recent k seen c ->
  In k' seen ->
  recent k seen (snd (TTLCache.getitem c k' t)).
Proof.
  intros Hne Hk [Hnd Hincl] Hin. unfold TTLCache.getitem.
  destruct (TTLCache.getlink k' (TTLCache.links c)) as [l' |] eqn:Hk';
    [| split; assumption].
  assert (Hu : used_after k (TTLCache.remove k' (TTLCache.links c) ++ [l'])
               = (TTLCache.remove k' (used_after k (TTLCache.links c)) ++ [l'])%list).
  { apply used_after_remove_other; congruence. }
  destruct (getlink_key _ _ _ Hk') as [Hkey _].
  destruct (t <? TTLCache.expires l'); unfold recent;
    cbn [snd TTLCache.set_links TTLCache.links]; rewrite Hu;
    now apply recent_snoc.
Qed.

(** Storing another key keeps key [k], when the keys used since key [k]
    was, the new key among them, are fewer than the cache has room for. *)
Lemma setitem_other_recent (c : TTLCache.t) (k k' : string) (e t : Z)
  (seen : list string) :
  k' <> k ->
  TTLCache.getlink k (TTLCache.links c)
  = Some {| TTLCache.key := k; TTLCache.expires := e |} ->
  t < e ->
  recent k seen c ->
  In k' seen ->
  (List.length seen < TTLCache.maxsize c)%nat ->
  let c' := snd (TTLCache.setitem c k' t) in
  TTLCache.getlink k (TTLCache.links c')
  = Some {| TTLCache.key := k; TTLCache.expires := e |}
  /\ recent k seen c'.
Proof.
  intros Hne Hk Ht [Hnd Hincl] Hin Hroom. unfold TTLCache.setitem.
  assert (Hpos : (1 <= List.length seen)%nat)
    by (destruct seen; [destruct Hin | simpl; lia]).
  destruct (TTLCache.maxsize c <? 1)%nat eqn:Hsize;
    [apply Nat.ltb_lt in Hsize; lia |].
  pose proof (getlink_expire k t _ _ Hk Ht) as Hk2.
  pose proof (used_after_expire k t _ _ Hk Ht) as Hu2.
  set (ls2 := TTLCache.expire t (TTLCache.links c)) in *.
  assert (Hnd2 : NoDup (map TTLCache.key (used_after k ls2)))
    by (rewrite Hu2; now apply filter_keys_NoDup).
  assert (Hincl2 : incl (map TTLCache.key (used_after k ls2)) seen).
  { rewrite Hu2. intros x Hx. apply Hincl.
    apply in_map_iff in Hx. destruct Hx as (l & <- & Hl).
    unfold TTLCache.expire in Hl. apply filter_In in Hl. apply in_map. tauto. }
  assert (H3 : exists ls3,
             match TTLCache.getlink k' ls2 with
             | Some _ => ls2
             | None => TTLCache.make_room (TTLCache.maxsize c) ls2
             end = ls3
             /\ TTLCache.getlink k ls3
                = Some {| TTLCache.key := k; TTLCache.expires := e |}
             /\ used_after k ls3 = used_after k ls2).
  { destruct (TTLCache.getlink k' ls2) eqn:Hk'; [eauto |].
    assert (Hnew : ~ In k' (map TTLCache.key (used_after k ls2))).
    { intros Hx. apply (getlink_None _ _ Hk').
      apply in_map_iff in Hx. destruct Hx as (l & <- & Hl).
      apply in_map. now apply used_after_In in Hl. }
    pose proof (NoDup_incl_fewer k' _ seen Hnd2 Hincl2 Hin Hnew) as Hfew.
    rewrite length_map in Hfew.
    destruct (make_room_keeps k (TTLCache.maxsize c) ls2 _ Hk2); [lia | eauto]. }
  destruct H3 as (ls3 & -> & Hk3 & Hu3). cbv zeta.
  cbn [snd TTLCache.set_links TTLCache.links]. unfold recent.
  cbn [TTLCache.set_links TTLCache.links]. split.
  - rewrite getlink_app, getlink_remove_other, Hk3; auto.
  - rewrite used_after_remove_other; [| assumption | congruence].
    rewrite Hu3. now apply recent_snoc.
Qed.

(** A lookup that misses leaves the key missing, then and later. *)
Lemma getitem_miss_stays (c : TTLCache.t) (k : string) (t t' : Z) :
  TTLCache.live c k t = false ->
  t <= t' ->
  TTLCache.live (snd (TTLCache.getitem c k t)) k t' = false.
Proof.
  unfold TTLCache.live, TTLCache.getitem. intros Hlive Ht.
  destruct (TTLCache.getlink k (TTLCache.links c)) as [l |] eqn:E.
  - assert (Hl : TTLCache.getlink k (TTLCache.remove k (TTLCache.links c) ++ [l])%list
                 = Some l).
    { rewrite getlink_app, getlink_remove_self. unfold TTLCache.getlink. cbn [find].
      apply getlink_key in E. destruct E as [Hkey _].
      unfold TTLCache.has_key. rewrite Hkey, String.eqb_refl. reflexivity. }
    rewrite Hlive. cbn [snd TTLCache.set_links TTLCache.links]. rewrite Hl.
    apply Z.ltb_ge. apply Z.ltb_ge in Hlive. lia.
  - cbn [snd]. now rewrite E.
Qed.

(** ** [message_owner] and the cache *)

Lemma set_cache_cache (self : Notifier) (c : TTLCache.t) : cache (set_cache self c) = c.
Proof. reflexivity. Qed.

Lemma requested_clock (req : Request) (w : World) : clock w <= clock (requested req w).
Proof. unfold requested. simpl. lia. Qed.

(** The clock does not go back during a call. *)
Lemma message_owner_clock (owner text : string) (pods : list Pod) (s : State) :
  clock (snd s) <= clock (snd (exec (message_owner owner text pods) s)).
Proof.
  destruct s as [self w]. unfold exec. simpl fst; simpl snd.
  rewrite message_owner_eq. cbv zeta.
  destruct (TTLCache.getitem _ _ _) as [[[] |] c]; simpl; [lia |].
  pose proof (requested_clock (owner_request (bot_token self) owner text pods) w).
  outcomes;
    simpl; assumption.
Qed.

(** A call under another key keeps key [k], if fewer than 127 entries have
    been used since it was. *)
Lemma message_owner_other (owner text : string) (pods : list Pod)
  (self : Notifier) (w : World) (k : string) (e : Z) (n : nat) :
  _cache_key self owner text pods <> k ->
  kept k e n (cache self) ->
  (n + 2 <= TTLCache.maxsize (cache self))%nat ->
  let s' := exec (message_owner owner text pods) (self, w) in
  clock (snd s') < e ->
  kept k e (S n) (cache (fst s'))
  /\ TTLCache.maxsize (cache (fst s')) = TTLCache.maxsize (cache self)
  /\ TTLCache.ttl (cache (fst s')) = TTLCache.ttl (cache self).
Proof.
  intros Hne Hk Hn. cbv zeta. unfold exec. simpl fst; simpl snd.
  rewrite message_owner_eq. cbv zeta.
  destruct (getitem_other (cache self) k (_cache_key self owner text pods) e
              (clock w) n Hne Hk) as (Hk1 & Hm1 & Ht1 & Hexp).
  destruct (TTLCache.getitem _ _ _) as [[[] |] c1]; simpl in Hk1, Hm1, Ht1, Hexp.
  - simpl. auto.
  - pose proof (requested_clock (owner_request (bot_token self) owner text pods) w) as Hclk.
    assert (Hstore :
              clock (requested (owner_request (bot_token self) owner text pods) w) < e ->
              let c2 := snd (TTLCache.setitem c1 (_cache_key self owner text pods)
                               (clock (requested (owner_request (bot_token self)
                                                    owner text pods) w))) in
              kept k e (S n) c2
              /\ TTLCache.maxsize c2 = TTLCache.maxsize (cache self)
              /\ TTLCache.ttl c2 = TTLCache.ttl (cache self)).
    { intros Hlt. specialize (Hexp eq_refl _ Hclk Hlt).
      destruct (setitem_other c1 k (_cache_key self owner text pods) e _ Hne
                  (proj1 Hk1) Hlt) as (Hk2 & Hm2 & Ht2); [lia |].
      cbv zeta. split; [| split; congruence].
      eapply kept_weaken; [| exact Hk2]. lia. }
    outcomes;
      simpl; auto.
Qed.

(** A call under key [k] before its time has come does nothing but make
    the key the one used last. *)
Lemma message_owner_hit (owner text : string) (pods : list Pod)
  (self : Notifier) (w : World) (e : Z) (n : nat) :
  kept (_cache_key self owner text pods) e n (cache self) ->
  clock w < e ->
  exists self',
    message_owner owner text pods self w = (Return tt, self', w)
    /\ kept (_cache_key self owner text pods) e 0 (cache self')
    /\ TTLCache.maxsize (cache self') = TTLCache.maxsize (cache self)
    /\ TTLCache.ttl (cache self') = TTLCache.ttl (cache self).
Proof.
  intros Hk Ht. rewrite message_owner_eq. cbv zeta.
  destruct (getitem_same _ _ _ _ _ Hk Ht) as (Hv & Hk' & Hm & Httl).
  destruct (TTLCache.getitem _ _ _) as [v c1]. simpl in *. subst v.
  exists (set_cache self c1). auto.
Qed.

Lemma getitem_config (c : TTLCache.t) (k : string) (t : Z) :
  TTLCache.maxsize (snd (TTLCache.getitem c k t)) = TTLCache.maxsize c
  /\ TTLCache.ttl (snd (TTLCache.getitem c k t)) = TTLCache.ttl c.
Proof.
  unfold TTLCache.getitem.
  destruct (TTLCache.getlink k (TTLCache.links c)) as [l |]; [| auto].
  destruct (t <? TTLCache.expires l); auto.
Qed.

Lemma posts_requested (req : Request) (evs : list Event) (self self' : Notifier) (w : World) :
  filter is_post evs = [] ->
  posts (self', logged evs (requested req w)) = (posts (self, w) ++ [requests_post req])%list.
Proof.
  intros H. unfold posts, logged, requested. simpl.
  rewrite !filter_app, H. simpl. now rewrite app_nil_r.
Qed.

(** A call under a key that is not in the cache, or has expired, posts
    the request; if it returns, the key is stored, to expire [ttl] after
    the time at which the call ends. *)
Lemma message_owner_miss (owner text : string) (pods : list Pod)
  (self : Notifier) (w : World) :
  let k := _cache_key self owner text pods in
  let s' := exec (message_owner owner text pods) (self, w) in
  TTLCache.live (cache self) k (clock w) = false ->
  posts s' = (posts (self, w)
                ++ [requests_post (owner_request (bot_token self) owner text pods)])%list
  /\ bot_token (fst s') = bot_token self
  /\ TTLCache.maxsize (cache (fst s')) = TTLCache.maxsize (cache self)
  /\ TTLCache.ttl (cache (fst s')) = TTLCache.ttl (cache self)
  /\ ((1 <= TTLCache.maxsize (cache self))%nat ->
      result (message_owner owner text pods) (self, w) = Return tt ->
      kept k (clock (snd s') + TTLCache.ttl (cache self)) 0 (cache (fst s'))
      /\ expiring k (clock (snd s') + TTLCache.ttl (cache self)) (cache (fst s'))).
Proof.
  cbv zeta. intros Hlive. unfold exec, result. simpl fst; simpl snd.
  rewrite message_owner_eq. cbv zeta.
  pose proof (live_getitem (cache self) (_cache_key self owner text pods) (clock w)) as Hv.
  pose proof (getitem_config (cache self) (_cache_key self owner text pods) (clock w))
    as [Hm Ht].
  rewrite Hlive in Hv.
  destruct (TTLCache.getitem _ _ _) as [v c1]. simpl in Hv, Hm, Ht. subst v.
  set (req := owner_request (bot_token self) owner text pods).
  assert (Hstore : (1 <= TTLCache.maxsize (cache self))%nat ->
            kept (_cache_key self owner text pods)
                 (clock (requested req w) + TTLCache.ttl (cache self)) 0
                 (snd (TTLCache.setitem c1 (_cache_key self owner text pods)
                         (clock (requested req w))))
            /\ expiring (_cache_key self owner text pods)
                 (clock (requested req w) + TTLCache.ttl (cache self))
                 (snd (TTLCache.setitem c1 (_cache_key self owner text pods)
                         (clock (requested req w))))).
  { intros Hsize. rewrite <- Ht.
    destruct (setitem_same c1 (_cache_key self owner text pods)
                (clock (requested req w))) as (H1 & H2 & _); [lia | auto]. }
  assert (Hcfg : forall t,
            TTLCache.maxsize (snd (TTLCache.setitem c1 (_cache_key self owner text pods) t))
            = TTLCache.maxsize (cache self)
            /\ TTLCache.ttl (snd (TTLCache.setitem c1 (_cache_key self owner text pods) t))
               = TTLCache.ttl (cache self)).
  { intros t. unfold TTLCache.setitem.
    destruct (TTLCache.maxsize c1 <? 1)%nat; simpl; auto. }
  destruct (reply req w) as [t | ex]; [| destruct (isinstance_RequestException ex)];
    simpl fst; simpl snd; rewrite ?set_cache_cache.
  - split; [now apply posts_requested |]. destruct (Hcfg (clock (requested req w))). auto.
  - split; [now apply posts_requested |]. destruct (Hcfg (clock (requested req w))). auto.
  - split; [| repeat split; auto; discriminate].
    rewrite <- (logged_nil (requested req w)). now apply posts_requested.
Qed.

(** ** Calls in a row *)

Lemma run_calls_cons (c : Call) (cs : list Call) (s : State) :
  run_calls (c :: cs) s = run_calls cs (run_call c s).
Proof. reflexivity. Qed.

Lemma run_call_clock (c : Call) (s : State) :
  clock (snd s) <= clock (snd (run_call c s)).
Proof.
  unfold run_call.
  pose proof (message_owner_clock (c_owner c) (c_message c) (c_pods c) (wait (idle c) s)).
  unfold wait in *. simpl in *. lia.
Qed.

Lemma run_calls_clock (cs : list Call) (s : State) :
  clock (snd s) <= clock (snd (run_calls cs s)).
Proof.
  revert s. induction cs as [| c cs IH]; intros s; [simpl; lia |].
  rewrite run_calls_cons. pose proof (run_call_clock c s). specialize (IH (run_call c s)). lia.
Qed.

Lemma run_call_bot_token (c : Call) (s : State) :
  bot_token (fst (run_call c s)) = bot_token (fst s).
Proof.
  unfold run_call, exec. destruct s as [self w]. simpl fst; simpl snd.
  rewrite message_owner_eq. cbv zeta.
  destruct (TTLCache.getitem _ _ _) as [[[] |] c1]; [reflexivity |].
  outcomes;
    reflexivity.
Qed.

Lemma run_calls_bot_token (cs : list Call) (s : State) :
  bot_token (fst (run_calls cs s)) = bot_token (fst s).
Proof.
  revert s. induction cs as [| c cs IH]; intros s; [reflexivity |].
  rewrite run_calls_cons, IH. apply run_call_bot_token.
Qed.

Lemma run_call_wait_clock (c : Call) (s : State) :
  clock (snd (wait (idle c) s)) <= clock (snd (run_call c s)).
Proof. unfold run_call. apply message_owner_clock. Qed.

(** A call under key [k] before its time has come: time passes, and
    nothing else happens in the world. *)
Lemma run_call_hit (self0 : Notifier) (c : Call) (s : State) (e : Z) (n : nat) :
  kept (call_key self0 c) e n (cache (fst s)) ->
  clock (snd (wait (idle c) s)) < e ->
  snd (run_call c s) = snd (wait (idle c) s)
  /\ kept (call_key self0 c) e 0 (cache (fst (run_call c s)))
  /\ TTLCache.maxsize (cache (fst (run_call c s))) = TTLCache.maxsize (cache (fst s))
  /\ TTLCache.ttl (cache (fst (run_call c s))) = TTLCache.ttl (cache (fst s)).
Proof.
  intros Hk Ht. unfold run_call, exec.
  destruct (message_owner_hit (c_owner c) (c_message c) (c_pods c)
              (fst (wait (idle c) s)) (snd (wait (idle c) s)) e n Hk Ht)
    as (self' & Heq & H').
  rewrite Heq. exact (conj eq_refl H').
Qed.

Lemma run_call_expiring (self0 : Notifier) (c : Call) (s : State) (k : string) (e : Z) :
  call_key self0 c <> k ->
  expiring k e (cache (fst s)) ->
  expiring k e (cache (fst (run_call c s))).
Proof.
  intros Hne He. unfold run_call, exec. destruct s as [self w].
  unfold wait. simpl fst; simpl snd.
  rewrite message_owner_eq. cbv zeta. simpl clock at 1.
  assert (H1 : expiring k e
                 (snd (TTLCache.getitem (cache self)
                         (_cache_key self (c_owner c) (c_message c) (c_pods c))
                         (clock w + Z.of_N (idle c))))).
  { intros l Hin. apply He. eapply getitem_In. exact Hin. }
  destruct (TTLCache.getitem _ _ _) as [[[] |] c1]; simpl snd in H1; [exact H1 |].
  assert (H2 : forall t,
             expiring k e
               (snd (TTLCache.setitem c1
                       (_cache_key self (c_owner c) (c_message c) (c_pods c)) t))).
  { intros t l Hin Hk. destruct (setitem_In _ _ _ _ Hin) as [H | H].
    - now apply H1.
    - exfalso. apply Hne. change (call_key self0 c)
        with (_cache_key self (c_owner c) (c_message c) (c_pods c)). congruence. }
  outcomes;
    simpl fst; rewrite set_cache_cache; auto.
Qed.

Lemma run_calls_expiring (self0 : Notifier) (cs : list Call) (s : State)
  (k : string) (e : Z) :
  Forall (fun c => call_key self0 c <> k) cs ->
  expiring k e (cache (fst s)) ->
  expiring k e (cache (fst (run_calls cs s))).
Proof.
  intros Hcs. revert s. induction Hcs as [| c cs Hc _ IH]; intros s He; [exact He |].
  rewrite run_calls_cons. apply IH. now apply (run_call_expiring self0).
Qed.

Lemma run_call_config (c : Call) (s : State) :
  TTLCache.maxsize (cache (fst (run_call c s))) = TTLCache.maxsize (cache (fst s))
  /\ TTLCache.ttl (cache (fst (run_call c s))) = TTLCache.ttl (cache (fst s)).
Proof.
  unfold run_call, exec. destruct s as [self w]. unfold wait. simpl fst; simpl snd.
  rewrite message_owner_eq. cbv zeta.
  pose proof (getitem_config (cache self)
                (_cache_key self (c_owner c) (c_message c) (c_pods c))
                (clock w + Z.of_N (idle c))) as Hg.
  simpl clock at 1.
  destruct (TTLCache.getitem _ _ _) as [[[] |] c1]; simpl snd in Hg; [exact Hg |].
  assert (H2 : forall t,
             TTLCache.maxsize (snd (TTLCache.setitem c1
                       (_cache_key self (c_owner c) (c_message c) (c_pods c)) t))
             = TTLCache.maxsize (cache self)
             /\ TTLCache.ttl (snd (TTLCache.setitem c1
                       (_cache_key self (c_owner c) (c_message c) (c_pods c)) t))
                = TTLCache.ttl (cache self)).
  { intros t. unfold TTLCache.setitem.
    destruct (TTLCache.maxsize c1 <? 1)%nat; simpl; exact Hg. }
  outcomes;
    simpl fst; rewrite set_cache_cache; auto.
Qed.

Lemma run_calls_config (cs : list Call) (s : State) :
  TTLCache.maxsize (cache (fst (run_calls cs s))) = TTLCache.maxsize (cache (fst s))
  /\ TTLCache.ttl (cache (fst (run_calls cs s))) = TTLCache.ttl (cache (fst s)).
Proof.
  revert s. induction cs as [| c cs IH]; intros s; [auto |].
  rewrite run_calls_cons. destruct (IH (run_call c s)) as [H1 H2].
  destruct (run_call_config c s) as [H3 H4]. split; congruence.
Qed.

(** A call under another key keeps key [k], when the keys used since key
    [k] was, the key of the call among them, are fewer than the cache has
    room for. *)
Lemma message_owner_other_recent (owner text : string) (pods : list Pod)
  (self : Notifier) (w : World) (k : string) (e : Z) (seen : list string) :
  _cache_key self owner text pods <> k ->
  TTLCache.getlink k (TTLCache.links (cache self))
  = Some {| TTLCache.key := k; TTLCache.expires := e |} ->
  recent k seen (cache self) ->
  In (_cache_key self owner text pods) seen ->
  (List.length seen < TTLCache.maxsize (cache self))%nat ->
  let s' := exec (message_owner owner text pods) (self, w) in
  clock (snd s') < e ->
  TTLCache.getlink k (TTLCache.links (cache (fst s')))
  = Some {| TTLCache.key := k; TTLCache.expires := e |}
  /\ recent k seen (cache (fst s')).
Proof.
  intros Hne Hk Hrec Hin Hroom. cbv zeta. unfold exec. simpl fst; simpl snd.
  rewrite message_owner_eq. cbv zeta.
  destruct (getitem_other (cache self) k (_cache_key self owner text pods) e
              (clock w) _ Hne (conj Hk (le_n _))) as ((Hk1 & _) & Hm1 & _).
  pose proof (getitem_other_recent (cache self) k (_cache_key self owner text pods) e
                (clock w) seen Hne Hk Hrec Hin) as Hrec1.
  destruct (TTLCache.getitem _ _ _) as [[[] |] c1]; simpl in Hk1, Hm1, Hrec1.
  - simpl. auto.
  - assert (Hstore :
              clock (requested (owner_request (bot_token self) owner text pods) w) < e ->
              let c2 := snd (TTLCache.setitem c1 (_cache_key self owner text pods)
                               (clock (requested (owner_request (bot_token self)
                                                    owner text pods) w))) in
              TTLCache.getlink k (TTLCache.links c2)
              = Some {| TTLCache.key := k; TTLCache.expires := e |}
              /\ recent k seen c2).
    { intros Hlt. apply setitem_other_recent; auto. rewrite Hm1. exact Hroom. }
    outcomes;
      simpl; auto.
Qed.

Lemma run_call_other_recent (self0 : Notifier) (c : Call) (s : State)
  (k : string) (e : Z) (seen : list string) :
  call_key self0 c <> k ->
  TTLCache.getlink k (TTLCache.links (cache (fst s)))
  = Some {| TTLCache.key := k; TTLCache.expires := e |} ->
  recent k seen (cache (fst s)) ->
  In (call_key self0 c) seen ->
  (List.length seen < TTLCache.maxsize (cache (fst s)))%nat ->
  clock (snd (run_call c s)) < e ->
  TTLCache.getlink k (TTLCache.links (cache (fst (run_call c s))))
  = Some {| TTLCache.key := k; TTLCache.expires := e |}
  /\ recent k seen (cache (fst (run_call c s))).
Proof.
  intros Hne Hk Hrec Hin Hroom Ht. unfold run_call in *.
  exact (message_owner_other_recent (c_owner c) (c_message c) (c_pods c)
           (fst s) (snd (wait (idle c) s)) k e seen Hne Hk Hrec Hin Hroom Ht).
Qed.

(** A call that finds its key stores nothing: the entries keep their
    expiry times. *)
Lemma run_call_hit_expiring (self0 : Notifier) (c : Call) (s : State)
  (k : string) (e e' : Z) (n : nat) :
  kept (call_key self0 c) e' n (cache (fst s)) ->
  clock (snd (wait (idle c) s)) < e' ->
  expiring k e (cache (fst s)) ->
  expiring k e (cache (fst (run_call c s))).
Proof.
  intros Hk Ht He. unfold run_call, exec. destruct s as [self w].
  unfold wait in *. simpl fst in *; simpl snd in *.
  rewrite message_owner_eq. cbv zeta. simpl clock at 1. simpl clock in Ht.
  destruct (getitem_same _ _ _ _ _ Hk Ht) as (Hv & _).
  change (call_key self0 c)
    with (_cache_key self (c_owner c) (c_message c) (c_pods c)) in Hv.
  assert (H1 : expiring k e
                 (snd (TTLCache.getitem (cache self)
                         (_cache_key self (c_owner c) (c_message c) (c_pods c))
                         (clock w + Z.of_N (idle c))))).
  { intros l Hin. apply He. eapply getitem_In. exact Hin. }
  destruct (TTLCache.getitem _ _ _) as [[[] |] c1]; [| discriminate Hv].
  simpl fst. rewrite set_cache_cache. exact H1.
Qed.

(** Through calls that never crowd key [k] out, and that end before its
    time has come, key [k] stays in the cache with the expiry time it
    had. *)
Lemma run_calls_quiet (self0 : Notifier) (cs : list Call) (s : State)
  (k : string) (e : Z) (seen : list string) :
  TTLCache.getlink k (TTLCache.links (cache (fst s)))
  = Some {| TTLCache.key := k; TTLCache.expires := e |} ->
  recent k seen (cache (fst s)) ->
  expiring k e (cache (fst s)) ->
  never_crowded (TTLCache.maxsize (cache (fst s))) self0 k seen cs = true ->
  clock (snd (run_calls cs s)) < e ->
  (exists n, kept k e n (cache (fst (run_calls cs s))))
  /\ expiring k e (cache (fst (run_calls cs s))).
Proof.
  revert s seen. induction cs as [| c cs IH]; intros s seen Hk Hrec Hexp Hquiet Hlt.
  - split; [| exact Hexp]. exists (List.length (used_after k (TTLCache.links (cache (fst s))))).
    split; [exact Hk | apply le_n].
  - rewrite run_calls_cons in *.
    pose proof (run_calls_clock cs (run_call c s)) as Hclk.
    pose proof (run_call_wait_clock c s) as Hw.
    destruct (run_call_config c s) as [Hm1 _].
    cbn [never_crowded] in Hquiet.
    destruct (call_key self0 c =? k)%string eqn:E.
    + apply String.eqb_eq in E. subst k.
      assert (Hkept : kept (call_key self0 c) e
                        (List.length (used_after (call_key self0 c)
                                        (TTLCache.links (cache (fst s)))))
                        (cache (fst s)))
        by (split; [exact Hk | apply le_n]).
      destruct (run_call_hit self0 c s e _ Hkept) as (_ & H1 & _); [lia |].
      apply (IH (run_call c s) []).
      * exact (proj1 H1).
      * exact (kept_recent _ _ _ H1).
      * apply (run_call_hit_expiring self0 c s _ e e _ Hkept); [lia | exact Hexp].
      * rewrite Hm1. exact Hquiet.
      * exact Hlt.
    + apply String.eqb_neq in E. apply andb_prop in Hquiet.
      destruct Hquiet as [Hroom Hquiet]. apply Nat.ltb_lt in Hroom.
      destruct (run_call_other_recent self0 c s k e (note_key (call_key self0 c) seen) E Hk)
        as (Hk1 & Hrec1).
      * exact (recent_incl _ _ _ _ (note_key_incl _ _) Hrec).
      * apply note_key_In.
      * exact Hroom.
      * lia.
      * apply (IH (run_call c s) (note_key (call_key self0 c) seen)).
        -- exact Hk1.
        -- exact Hrec1.
        -- now apply (run_call_expiring self0).
        -- rewrite Hm1. exact Hquiet.
        -- exact Hlt.
Qed.

(** ** The window of a fingerprint *)

(** A new notifier has a cache of 128 entries that live 1800 seconds. *)
Lemma Notifier__init__as_init (hook bot_token : option string) :
  as_init (Notifier__init__ hook bot_token).
Proof. split; reflexivity. Qed.

(** C1, amended: a call of [message_owner] whose key is not in the cache,
    or has expired, performs the send; if that call returns, the key is
    stored and expires 1800 seconds after the end of the call. From then
    on, through any calls under this key and under other keys that never
    crowd the key out (the cache holds 128 keys and drops the least
    recently used one to make room: at no time have 128 different other
    keys been used since this key was last used), a call under the key
    that begins before the expiry time sends nothing, does nothing in the
    world, and leaves the expiry time as it was. After such calls, and
    whatever calls under other keys follow them, a call under the key that
    begins after the expiry time performs the send again, and if it
    returns stores the key to expire 1800 seconds after its own end. *)
Theorem message_owner_window
  (self : Notifier) (w : World) (owner message : string) (pods : list Pod) :
  let k := _cache_key self owner message pods in
  let req := requests_post (owner_request (bot_token self) owner message pods) in
  let s1 := exec (message_owner owner message pods) (self, w) in
  let e := clock (snd s1) + 1800 in
  as_init self ->
  TTLCache.live (cache self) k (clock w) = false ->
  result (message_owner owner message pods) (self, w) = Return tt ->
  posts s1 = (posts (self, w) ++ [req])%list
  /\ kept k e 0 (cache (fst s1))
  /\ (forall (cs : list Call) (d : N),
        let s2 := run_calls cs s1 in
        let s3 := run_call (again d owner message pods) s2 in
        never_crowded 128 self k [] cs = true ->
        clock (snd s2) + Z.of_N d < e ->
        snd s3 = snd (wait d s2)
        /\ kept k e 0 (cache (fst s3)))
  /\ (forall (cs1 cs2 : list Call) (d : N),
        let s2 := run_calls cs2 (run_calls cs1 s1) in
        let s3 := run_call (again d owner message pods) s2 in
        never_crowded 128 self k [] cs1 = true ->
        clock (snd (run_calls cs1 s1)) < e ->
        Forall (fun c => call_key self c <> k) cs2 ->
        e < clock (snd s2) + Z.of_N d ->
        posts s3 = (posts s2 ++ [req])%list
        /\ (result (message_owner owner message pods) (wait d s2) = Return tt ->
            kept k (clock (snd s3) + 1800) 0 (cache (fst s3)))).
Proof.
  cbv zeta. intros [Hsize Httl] Hlive Hret.
  destruct (message_owner_miss owner message pods self w Hlive)
    as (Hposts & Htok & Hm1 & Ht1 & Hstore).
  destruct Hstore as [Hkept Hexp]; [lia | exact Hret |].
  rewrite Httl in Hkept, Hexp.
  set (s1 := exec (message_owner owner message pods) (self, w)) in *.
  clearbody s1.
  assert (Hquiet : forall cs,
             never_crowded 128 self (_cache_key self owner message pods) [] cs = true ->
             clock (snd (run_calls cs s1)) < clock (snd s1) + 1800 ->
             (exists n, kept (_cache_key self owner message pods)
                             (clock (snd s1) + 1800) n (cache (fst (run_calls cs s1))))
             /\ expiring (_cache_key self owner message pods) (clock (snd s1) + 1800)
                         (cache (fst (run_calls cs s1)))).
  { intros cs Hn Hlt.
    apply (run_calls_quiet self cs s1 _ _ []);
      [exact (proj1 Hkept) | exact (kept_recent _ _ _ Hkept) | exact Hexp
       | rewrite Hm1, Hsize; exact Hn | exact Hlt]. }
  split; [exact Hposts | split; [exact Hkept | split]].
  - intros cs d Hn Hlt. pose proof (N2Z.is_nonneg d) as Hd.
    destruct (Hquiet cs Hn) as ((n & Hk2) & _); [lia |].
    destruct (run_call_hit self (again d owner message pods) (run_calls cs s1)
                (clock (snd s1) + 1800) _ Hk2) as (Hw & Hk3 & _).
    + unfold wait, again. simpl. lia.
    + split; [exact Hw | exact Hk3].
  - intros cs1 cs2 d Hn Hlt1 Hcs Hlt. pose proof (N2Z.is_nonneg d) as Hd.
    destruct (Hquiet cs1 Hn Hlt1) as (_ & Hexp1).
    pose proof (run_calls_expiring self cs2 (run_calls cs1 s1) _ _ Hcs Hexp1) as Hexp2.
    destruct (run_calls_config cs1 s1) as [_ Ht2'].
    destruct (run_calls_config cs2 (run_calls cs1 s1)) as [Hm2 Ht2].
    pose proof (run_calls_bot_token cs1 s1) as Htok1.
    pose proof (run_calls_bot_token cs2 (run_calls cs1 s1)) as Htok2.
    destruct (run_calls_config cs1 s1) as [Hm1' _].
    set (s2 := run_calls cs2 (run_calls cs1 s1)) in *. clearbody s2.
    assert (Hlive2 : TTLCache.live (cache (fst (wait d s2)))
                       (_cache_key (fst (wait d s2)) owner message pods)
                       (clock (snd (wait d s2))) = false).
    { apply (expiring_not_live _ _ _ _ Hexp2). unfold wait. simpl. lia. }
    destruct (message_owner_miss owner message pods (fst (wait d s2)) (snd (wait d s2))
                Hlive2) as (Hposts3 & _ & _ & _ & Hstore3).
    split.
    + unfold run_call, again. simpl c_owner; simpl c_message; simpl c_pods; simpl idle.
      replace (wait d s2) with (fst (wait d s2), snd (wait d s2))
        by (destruct (wait d s2); reflexivity).
      rewrite Hposts3. simpl fst. rewrite Htok2, Htok1, Htok. reflexivity.
    + intros Hret3.
      replace (wait d s2) with (fst (wait d s2), snd (wait d s2)) in Hret3
        by (destruct (wait d s2); reflexivity).
      destruct Hstore3 as [Hk3 _]; [simpl fst; lia | exact Hret3 |].
      simpl fst in Hk3. rewrite Ht2, Ht2', Ht1, Httl in Hk3.
      unfold run_call, again. simpl c_owner; simpl c_message; simpl c_pods; simpl idle.
      replace (wait d s2) with (fst (wait d s2), snd (wait d s2))
        by (destruct (wait d s2); reflexivity).
      exact Hk3.
Qed.

Lemma message_owner_window_witness :
  let k := _cache_key sample_notifier "alice" "m" sample_pods in
  let req := requests_post (owner_request (bot_token sample_notifier) "alice" "m"
                              sample_pods) in
  let s1 := exec (message_owner "alice" "m" sample_pods) (sample_notifier, sample_world) in
  let cs := busy_calls in
  let s2 := run_calls cs s1 in
  let s3 := run_calls (other_owners 3) s2 in
  as_init sample_notifier
  /\ TTLCache.live (cache sample_notifier) k (clock sample_world) = false
  /\ result (message_owner "alice" "m" sample_pods) (sample_notifier, sample_world)
     = Return tt
  /\ never_crowded 128 sample_notifier k [] cs = true
  /\ clock (snd s2) + Z.of_N 10 < clock (snd s1) + 1800
  /\ clock (snd s2) < clock (snd s1) + 1800
  /\ Forall (fun c => call_key sample_notifier c <> k) (other_owners 3)
  /\ clock (snd s1) + 1800 < clock (snd s3) + Z.of_N 2000
  /\ posts s1 = (posts (sample_notifier, sample_world) ++ [req])%list
  /\ snd (run_call (again 10 "alice" "m" sample_pods) s2) = snd (wait 10 s2)
  /\ posts (run_call (again 2000 "alice" "m" sample_pods) s3) = (posts s3 ++ [req])%list.
Proof.
  cbv zeta.
  assert (H1 : as_init sample_notifier) by (split; reflexivity).
  assert (H2 : TTLCache.live (cache sample_notifier)
                 (_cache_key sample_notifier "alice" "m" sample_pods)
                 (clock sample_world) = false) by reflexivity.
  assert (H3 : result (message_owner "alice" "m" sample_pods)
                      (sample_notifier, sample_world) = Return tt)
    by (vm_compute; reflexivity).
  assert (H4 : never_crowded 128 sample_notifier
                 (_cache_key sample_notifier "alice" "m" sample_pods) []
                 busy_calls
               = true)
    by (vm_compute; reflexivity).
  assert (H5 : clock (snd (run_calls
                             busy_calls
                             (exec (message_owner "alice" "m" sample_pods)
                                   (sample_notifier, sample_world))))
               + Z.of_N 10
               < clock (snd (exec (message_owner "alice" "m" sample_pods)
                                  (sample_notifier, sample_world))) + 1800)
    by (apply Z.ltb_lt; vm_compute; reflexivity).
  assert (H5' : clock (snd (run_calls
                              busy_calls
                              (exec (message_owner "alice" "m" sample_pods)
                                    (sample_notifier, sample_world))))
                < clock (snd (exec (message_owner "alice" "m" sample_pods)
                                   (sample_notifier, sample_world))) + 1800)
    by (apply Z.ltb_lt; vm_compute; reflexivity).
  assert (H6 : Forall (fun c => call_key sample_notifier c
                                <> _cache_key sample_notifier "alice" "m" sample_pods)
                      (other_owners 3))
    by (repeat constructor; vm_compute; discriminate).
  assert (H7 : clock (snd (exec (message_owner "alice" "m" sample_pods)
                                (sample_notifier, sample_world))) + 1800
               < clock (snd (run_calls (other_owners 3)
                               (run_calls
                                  busy_calls
                                  (exec (message_owner "alice" "m" sample_pods)
                                        (sample_notifier, sample_world)))))
                 + Z.of_N 2000)
    by (apply Z.ltb_lt; vm_compute; reflexivity).
  destruct (message_owner_window sample_notifier sample_world "alice" "m" sample_pods
              H1 H2 H3) as (P1 & _ & P2 & P3).
  exact (conj H1 (conj H2 (conj H3 (conj H4 (conj H5 (conj H5' (conj H6 (conj H7
           (conj P1 (conj (proj1 (P2 _ _ H4 H5))
                          (proj1 (P3 _ _ _ H4 H5' H6 H7)))))))))))).
Defined.

(** C1 as stated fails: alice is sent a message; in the four minutes that
    follow 128 other owners are sent one each, which fills the cache and
    drops the key of alice; the same message to alice, well within the
    1800 seconds, is sent again. *)
Lemma message_owner_resent_within_window :
  let pods := [sample_pod "id1" (Some "alice")] in
  let s1 := exec (message_owner "alice" "m" pods) (sample_notifier, sample_world) in
  let s2 := run_calls (other_owners 128) s1 in
  let s3 := run_call (again 1 "alice" "m" pods) s2 in
  clock (snd s1) = 1
  /\ clock (snd s3) = 259
  /\ posts s3
     = (posts s2 ++ [requests_post (owner_request (bot_token sample_notifier)
                                      "alice" "m" pods)])%list.
Proof. vm_compute. repeat split. Qed.

(** The proviso is the bound of the cache: 127 other keys since the key
    was used never crowd it out, and the 128th does. *)
Example other_owners_crowd_out :
  never_crowded 128 sample_notifier
    (_cache_key sample_notifier "alice" "m" sample_pods) [] (other_owners 127) = true
  /\ never_crowded 128 sample_notifier
       (_cache_key sample_notifier "alice" "m" sample_pods) [] (other_owners 128) = false.
Proof. vm_compute. split; reflexivity. Qed.

(** ** A send that fails *)

(** C10, amended: when the request of [message_owner] raises a
    [RequestException], the exception is logged as critical, the call
    returns, and the key is stored all the same, to expire 1800 seconds
    after the end of the call. From then on, through any calls under this
    key and under other keys that never crowd the key out (the cache holds
    128 keys and drops the least recently used one to make room: at no
    time have 128 different other keys been used since this key was last
    used), a call under the key that begins before the expiry time makes
    no request, does nothing in the world, and leaves the expiry time as
    it was. *)
Theorem message_owner_failure_recorded
  (self : Notifier) (w : World) (owner message : string) (pods : list Pod)
  (ex : exception) :
  let k := _cache_key self owner message pods in
  let req := owner_request (bot_token self) owner message pods in
  let s1 := exec (message_owner owner message pods) (self, w) in
  let e := clock (snd s1) + 1800 in
  as_init self ->
  TTLCache.live (cache self) k (clock w) = false ->
  reply req w = inr ex ->
  isinstance_RequestException ex = true ->
  result (message_owner owner message pods) (self, w) = Return tt
  /\ trace (snd s1)
     = (trace w ++ [requests_post req;
                    logger_critical ("Failed to SLACK: " ++ exc_str ex)])%list
  /\ kept k e 0 (cache (fst s1))
  /\ (forall (cs : list Call) (d : N),
        let s2 := run_calls cs s1 in
        let s3 := run_call (again d owner message pods) s2 in
        never_crowded 128 self k [] cs = true ->
        clock (snd s2) + Z.of_N d < e ->
        snd s3 = snd (wait d s2)
        /\ kept k e 0 (cache (fst s3))).
Proof.
  cbv zeta. intros [Hsize Httl] Hlive Hreply Hex.
  assert (Hret : result (message_owner owner message pods) (self, w) = Return tt
                 /\ trace (snd (exec (message_owner owner message pods) (self, w)))
                    = (trace w
                         ++ [requests_post (owner_request (bot_token self) owner message pods);
                             logger_critical ("Failed to SLACK: " ++ exc_str ex)])%list).
  { unfold result, exec. simpl fst; simpl snd. rewrite message_owner_eq. cbv zeta.
    pose proof (live_getitem (cache self) (_cache_key self owner message pods) (clock w))
      as Hv.
    rewrite Hlive in Hv.
    destruct (TTLCache.getitem _ _ _) as [v c1]. simpl in Hv. subst v.
    rewrite Hreply, Hex. split; [reflexivity |].
    unfold logged, requested. simpl. now rewrite <- app_assoc. }
  destruct Hret as [Hret Htrace].
  destruct (message_owner_miss owner message pods self w Hlive)
    as (_ & _ & Hm1 & _ & Hstore).
  destruct Hstore as [Hkept Hexp]; [lia | exact Hret |].
  rewrite Httl in Hkept, Hexp.
  split; [exact Hret | split; [exact Htrace | split; [exact Hkept |]]].
  intros cs d Hn Hlt. pose proof (N2Z.is_nonneg d) as Hd.
  set (s1 := exec (message_owner owner message pods) (self, w)) in *.
  clearbody s1.
  destruct (run_calls_quiet self cs s1 (_cache_key self owner message pods)
              (clock (snd s1) + 1800) []) as ((n & Hk2) & _);
    [exact (proj1 Hkept) | exact (kept_recent _ _ _ Hkept) | exact Hexp
     | rewrite Hm1, Hsize; exact Hn | lia |].
  destruct (run_call_hit self (again d owner message pods) (run_calls cs s1)
              (clock (snd s1) + 1800) _ Hk2) as (Hw & Hk3 & _).
  - unfold wait, again. simpl. lia.
  - split; [exact Hw | exact Hk3].
Qed.

Lemma message_owner_failure_recorded_witness :
  let k := _cache_key sample_notifier "alice" "m" sample_pods in
  let req := owner_request (bot_token sample_notifier) "alice" "m" sample_pods in
  let s1 := exec (message_owner "alice" "m" sample_pods) (sample_notifier, down_world) in
  let cs := busy_calls in
  let s2 := run_calls cs s1 in
  as_init sample_notifier
  /\ TTLCache.live (cache sample_notifier) k (clock down_world) = false
  /\ reply req down_world = inr connection_refused
  /\ isinstance_RequestException connection_refused = true
  /\ never_crowded 128 sample_notifier k [] cs = true
  /\ clock (snd s2) + Z.of_N 10 < clock (snd s1) + 1800
  /\ result (message_owner "alice" "m" sample_pods) (sample_notifier, down_world)
     = Return tt
  /\ kept k (clock (snd s1) + 1800) 0 (cache (fst s1))
  /\ snd (run_call (again 10 "alice" "m" sample_pods) s2) = snd (wait 10 s2).
Proof.
  cbv zeta.
  assert (H1 : as_init sample_notifier) by (split; reflexivity).
  assert (H2 : TTLCache.live (cache sample_notifier)
                 (_cache_key sample_notifier "alice" "m" sample_pods)
                 (clock down_world) = false) by reflexivity.
  assert (H3 : reply (owner_request (bot_token sample_notifier) "alice" "m" sample_pods)
                     down_world = inr connection_refused) by reflexivity.
  assert (H4 : isinstance_RequestException connection_refused = true) by reflexivity.
  assert (H5 : never_crowded 128 sample_notifier
                 (_cache_key sample_notifier "alice" "m" sample_pods) []
                 busy_calls
               = true)
    by (vm_compute; reflexivity).
  assert (H6 : clock (snd (run_calls
                             busy_calls
                             (exec (message_owner "alice" "m" sample_pods)
                                   (sample_notifier, down_world))))
               + Z.of_N 10
               < clock (snd (exec (message_owner "alice" "m" sample_pods)
                                  (sample_notifier, down_world))) + 1800)
    by (apply Z.ltb_lt; vm_compute; reflexivity).
  destruct (message_owner_failure_recorded sample_notifier down_world "alice" "m"
              sample_pods connection_refused H1 H2 H3 H4) as (P1 & _ & P3 & P4).
  exact (conj H1 (conj H2 (conj H3 (conj H4 (conj H5 (conj H6
           (conj P1 (conj P3 (proj1 (P4 _ _ H5 H6)))))))))).
Defined.

(** C10 as stated fails: the message to alice cannot be sent, and neither
    can the messages to 128 other owners in the four minutes that follow;
    their keys fill the cache and drop the key of alice, and the same
    message to alice, well within the 1800 seconds, is requested again. *)
Lemma message_owner_failure_retried_within_window :
  let pods := [sample_pod "id1" (Some "alice")] in
  let s1 := exec (message_owner "alice" "m" pods) (sample_notifier, down_world) in
  let s2 := run_calls (other_owners 128) s1 in
  let s3 := run_call (again 1 "alice" "m" pods) s2 in
  trace (snd s1)
  = [requests_post (owner_request (bot_token sample_notifier) "alice" "m" pods);
     logger_critical "Failed to SLACK: Connection refused"]
  /\ clock (snd s1) = 1
  /\ clock (snd s3) = 259
  /\ posts s3
     = (posts s2 ++ [requests_post (owner_request (bot_token sample_notifier)
                                      "alice" "m" pods)])%list.
Proof. vm_compute. repeat split. Qed.

(** ** Keys that differ, keys that collide *)

Lemma app_same_length {A : Type} (x y r1 r2 : list A) :
  List.length x = List.length y -> (x ++ r1 = y ++ r2)%list -> x = y /\ r1 = r2.
Proof.
  revert y. induction x as [| a x IH]; intros [| b y]; simpl; try discriminate.
  - auto.
  - intros Hlen H. injection Hlen as Hlen. injection H as -> H.
    destruct (IH y Hlen H) as [-> ->]. auto.
Qed.

(** Chunks of one length, not zero, can be told apart in their concatenation. *)
Lemma concat_fixed_inj {A : Type} (n : nat) (l1 l2 : list (list A)) :
  (0 < n)%nat ->
  Forall (fun x => List.length x = n) l1 ->
  Forall (fun x => List.length x = n) l2 ->
  List.concat l1 = List.concat l2 -> l1 = l2.
Proof.
  intros Hn H1. revert l2. induction H1 as [| x l1 Hx _ IH]; intros l2 H2 H.
  - destruct H2 as [| y l2 Hy _]; [reflexivity |].
    simpl in H. apply (f_equal (@List.length A)) in H.
    rewrite length_app in H. simpl in H. lia.
  - destruct H2 as [| y l2 Hy H2].
    + simpl in H. apply (f_equal (@List.length A)) in H.
      rewrite length_app in H. simpl in H. lia.
    + simpl in H. destruct (app_same_length x y _ _ (eq_trans Hx (eq_sym Hy)) H)
        as [-> H'].
      f_equal. now apply IH.
Qed.

Lemma map_encode_inj (l1 l2 : list string) :
  map encode l1 = map encode l2 -> l1 = l2.
Proof.
  revert l2. induction l1 as [| s l1 IH]; intros [| s' l2]; simpl; try discriminate.
  - reflexivity.
  - intros H. injection H as Hs H. f_equal; [now apply encode_inj | now apply IH].
Qed.

Lemma message_owner_links (owner text : string) (pods : list Pod)
  (self : Notifier) (w : World) (l : TTLCache.link) :
  In l (TTLCache.links (cache (fst (exec (message_owner owner text pods) (self, w))))) ->
  In l (TTLCache.links (cache self))
  \/ TTLCache.key l = _cache_key self owner text pods.
Proof.
  unfold exec. simpl fst; simpl snd. rewrite message_owner_eq. cbv zeta.
  pose proof (getitem_In (cache self) (_cache_key self owner text pods) (clock w) l) as Hg.
  destruct (TTLCache.getitem _ _ _) as [[[] |] c1]; simpl snd in Hg; [auto |].
  assert (Hs : forall t,
             In l (TTLCache.links
                     (snd (TTLCache.setitem c1 (_cache_key self owner text pods) t))) ->
             In l (TTLCache.links (cache self))
             \/ TTLCache.key l = _cache_key self owner text pods).
  { intros t Hin. destruct (setitem_In _ _ _ _ Hin); auto. }
  outcomes;
    simpl fst; rewrite set_cache_cache; intros Hin;
    [exact (Hs _ Hin) | exact (Hs _ Hin) | left; exact (Hg Hin)].
Qed.

Lemma live_other_key (c : TTLCache.t) (k k' : string) (t : Z) :
  (forall l, In l (TTLCache.links c) -> TTLCache.key l = k) ->
  k' <> k -> TTLCache.live c k' t = false.
Proof.
  intros Hall Hne. unfold TTLCache.live.
  destruct (TTLCache.getlink k' (TTLCache.links c)) as [l |] eqn:E; [| reflexivity].
  apply getlink_key in E. destruct E as [Hk Hin]. rewrite (Hall l Hin) in Hk. congruence.
Qed.

(** C3, amended: what [_cache_key] hashes is the owner, the message and
    the sorted ids, end to end. Another owner alone, or another message
    alone, changes the hashed data; other pod ids change it when all the
    ids have one same length, not zero; and the key is the MD5 digest of
    the hashed data. On a new notifier, the message of owner "a" for the
    pod of id "id1" and then for the pods of ids "id1" and "id2" are both
    sent. *)
Theorem cache_key_distinct
  (owner owner' message message' : string) (pods pods' : list Pod) (n : nat) :
  (owner <> owner' ->
     _cache_key_data owner message pods <> _cache_key_data owner' message pods)
  /\ (message <> message' ->
        _cache_key_data owner message pods <> _cache_key_data owner message' pods)
  /\ ((0 < n)%nat ->
      Forall (fun pod => String.length (uid pod) = n) pods ->
      Forall (fun pod => String.length (uid pod) = n) pods' ->
      ~ Permutation (map uid pods) (map uid pods') ->
      _cache_key_data owner message pods <> _cache_key_data owner message pods')
  /\ (forall (self : Notifier),
        _cache_key self owner message pods
        = "v0.md5." ++ MD5.hexdigest (_cache_key_data owner message pods))
  /\ (forall (hook bot_token : option string) (w : World),
        let self := Notifier__init__ hook bot_token in
        let u1 := sample_pod "id1" None in
        let u2 := sample_pod "id2" None in
        let s1 := exec (message_owner "a" "m" [u1]) (self, w) in
        let s2 := exec (message_owner "a" "m" [u1; u2]) s1 in
        posts s2
        = (posts (self, w)
             ++ [requests_post (owner_request bot_token "a" "m" [u1]);
                 requests_post (owner_request bot_token "a" "m" [u1; u2])])%list).
Proof.
  split; [| split; [| split; [| split]]].
  - intros Hne H. rewrite !_cache_key_data_eq in H.
    apply app_inv_tail in H. now apply encode_inj in H.
  - intros Hne H. rewrite !_cache_key_data_eq in H.
    apply app_inv_head, app_inv_tail in H. now apply encode_inj in H.
  - intros Hn Hp Hp' Hperm H. apply Hperm. rewrite !_cache_key_data_eq in H.
    do 2 apply app_inv_head in H.
    assert (Hlen : forall ps : list Pod,
               Forall (fun pod => String.length (uid pod) = n) ps ->
               Forall (fun x => List.length x = n)
                      (map encode (sorted (fun s => s) (map uid ps)))).
    { intros ps Hps. apply Forall_forall. intros x Hx.
      apply in_map_iff in Hx. destruct Hx as (s & <- & Hs).
      rewrite encode_length.
      apply (Permutation_in _ (Permutation_sym (sorted_Permutation _ _))) in Hs.
      apply in_map_iff in Hs. destruct Hs as (pod & <- & Hpod).
      rewrite Forall_forall in Hps. now apply Hps. }
    apply (concat_fixed_inj n _ _ Hn (Hlen _ Hp) (Hlen _ Hp')) in H.
    apply map_encode_inj in H.
    eapply perm_trans; [apply (sorted_Permutation (fun s => s)) |].
    rewrite H. apply Permutation_sym, sorted_Permutation.
  - reflexivity.
  - intros hook bot_token w. cbv zeta.
    set (self := Notifier__init__ hook bot_token).
    set (u1 := sample_pod "id1" None). set (u2 := sample_pod "id2" None).
    assert (Hne : _cache_key self "a" "m" [u1; u2] <> _cache_key self "a" "m" [u1]).
    { vm_compute. discriminate. }
    destruct (message_owner_miss "a" "m" [u1] self w eq_refl) as (Hp1 & Htok & _).
    pose proof (message_owner_links "a" "m" [u1] self w) as Hlinks.
    set (s1 := exec (message_owner "a" "m" [u1]) (self, w)) in *.
    assert (Hlive : TTLCache.live (cache (fst s1))
                      (_cache_key (fst s1) "a" "m" [u1; u2]) (clock (snd s1)) = false).
    { apply live_other_key with (k := _cache_key self "a" "m" [u1]); [| exact Hne].
      intros l Hin. destruct (Hlinks l Hin) as [[] | H]. exact H. }
    destruct (message_owner_miss "a" "m" [u1; u2] (fst s1) (snd s1) Hlive) as (Hp2 & _).
    replace (fst s1, snd s1) with s1 in Hp2 by (destruct s1; reflexivity).
    rewrite Hp2, Hp1, Htok, <- app_assoc. reflexivity.
Qed.

Lemma cache_key_distinct_witness :
  "alice" <> "bob"
  /\ "scaling up" <> "backing off"
  /\ (0 < 3)%nat
  /\ Forall (fun pod => String.length (uid pod) = 3%nat) [sample_pod "id1" None]
  /\ Forall (fun pod => String.length (uid pod) = 3%nat) [sample_pod "id2" None]
  /\ ~ Permutation (map uid [sample_pod "id1" None]) (map uid [sample_pod "id2" None])
  /\ _cache_key_data "alice" "scaling up" [sample_pod "id1" None]
     <> _cache_key_data "bob" "scaling up" [sample_pod "id1" None]
  /\ _cache_key_data "alice" "scaling up" [sample_pod "id1" None]
     <> _cache_key_data "alice" "backing off" [sample_pod "id1" None]
  /\ _cache_key_data "alice" "scaling up" [sample_pod "id1" None]
     <> _cache_key_data "alice" "scaling up" [sample_pod "id2" None].
Proof.
  assert (H1 : "alice" <> "bob") by discriminate.
  assert (H2 : "scaling up" <> "backing off") by discriminate.
  assert (H3 : (0 < 3)%nat) by lia.
  assert (H4 : Forall (fun pod => String.length (uid pod) = 3%nat)
                      [sample_pod "id1" None]) by (repeat constructor).
  assert (H5 : Forall (fun pod => String.length (uid pod) = 3%nat)
                      [sample_pod "id2" None]) by (repeat constructor).
  assert (H6 : ~ Permutation (map uid [sample_pod "id1" None])
                             (map uid [sample_pod "id2" None])).
  { intros H. apply Permutation_length_1_inv in H. discriminate H. }
  destruct (cache_key_distinct "alice" "bob" "scaling up" "backing off"
              [sample_pod "id1" None] [sample_pod "id2" None] 3)
    as (P1 & P2 & P3 & _).
  exact (conj H1 (conj H2 (conj H3 (conj H4 (conj H5 (conj H6
           (conj (P1 H1) (conj (P2 H2) (P3 H3 H4 H5 H6))))))))).
Defined.

(** C3 as stated fails: the pod of id "ab" and the two pods of ids "a" and
    "b" are different sets of ids, and since the ids are hashed end to end
    the two keys are the same; after the message for the first, the
    message for the second, a second later, is not sent. *)
Lemma cache_key_unit_sets_collide :
  let pods1 := [sample_pod "ab" (Some "alice")] in
  let pods2 := [sample_pod "a" (Some "alice"); sample_pod "b" (Some "alice")] in
  let s1 := exec (message_owner "alice" "m" pods1) (sample_notifier, sample_world) in
  ~ same_uid_set pods1 pods2
  /\ _cache_key sample_notifier "alice" "m" pods1
     = _cache_key sample_notifier "alice" "m" pods2
  /\ posts s1 = [requests_post (owner_request (bot_token sample_notifier) "alice" "m" pods1)]
  /\ snd (run_call (again 1 "alice" "m" pods2) s1) = snd (wait 1 s1).
Proof.
  cbv zeta. split; [| split; [| split]].
  - intros H. destruct (proj1 (H "ab") (or_introl eq_refl)) as [E | [E | []]];
      discriminate.
  - vm_compute. reflexivity.
  - vm_compute. reflexivity.
  - vm_compute. reflexivity.
Qed.

(** MD5 itself collides: two owner names that differ in one letter, with
    the same digest, so that the messages to the two owners have one key. *)
Lemma cache_key_owner_collision :
  "TEXTCOLLBYfGiJUETHQ4hAcKSMd5zYpgqf1YRDhkmxHkhPWptrkoyz28wnI9V0aHeAuaKnak"
  <> "TEXTCOLLBYfGiJUETHQ4hEcKSMd5zYpgqf1YRDhkmxHkhPWptrkoyz28wnI9V0aHeAuaKnak"
  /\ _cache_key sample_notifier
       "TEXTCOLLBYfGiJUETHQ4hAcKSMd5zYpgqf1YRDhkmxHkhPWptrkoyz28wnI9V0aHeAuaKnak"
       EmptyString []
     = _cache_key sample_notifier
         "TEXTCOLLBYfGiJUETHQ4hEcKSMd5zYpgqf1YRDhkmxHkhPWptrkoyz28wnI9V0aHeAuaKnak"
         EmptyString [].
Proof. split; [discriminate | vm_compute; reflexivity]. Qed.

(** ** Callers at the same time *)

Lemma run_schedule_app (l1 l2 : list nat) (ths : list Caller) (s : State) :
  run_schedule (l1 ++ l2) ths s
  = let '(ths', s') := run_schedule l1 ths s in run_schedule l2 ths' s'.
Proof.
  revert ths s. induction l1 as [| i l1 IH]; intros ths s; simpl; [reflexivity |].
  destruct (step_nth i ths s) as [ths' s']. apply IH.
Qed.

Lemma step_lookup_hit (owner message : string) (pods : list Pod) (s : State)
  (e : Z) (n : nat) :
  kept (_cache_key (fst s) owner message pods) e n (cache (fst s)) ->
  clock (snd s) < e ->
  exists self',
    step (caller owner message pods) s
    = (at_stage (caller owner message pods) (Done false), (self', snd s)).
Proof.
  intros Hk Ht. destruct (getitem_same _ _ _ _ _ Hk Ht) as (Hv & _).
  unfold step, caller, cache_getitem. cbn [stage t_owner t_message t_pods].
  destruct (TTLCache.getitem _ _ _) as [v c1]. simpl in Hv. subst v.
  exists (set_cache (fst s) c1). reflexivity.
Qed.

(** The three steps of one caller are the call of [message_owner]. *)
Lemma steps_message_owner (owner message : string) (pods : list Pod) (s : State) :
  snd (run_schedule [0; 0; 0]%nat [caller owner message pods] s)
  = exec (message_owner owner message pods) s.
Proof.
  destruct s as [self w]. unfold exec. simpl fst; simpl snd.
  rewrite message_owner_eq. cbv zeta.
  cbn [run_schedule step_nth].
  unfold step at 1, caller at 1, cache_getitem. cbn [stage t_owner t_message t_pods fst snd].
  destruct (TTLCache.getitem _ _ _) as [[[] |] c1]; [reflexivity |].
  unfold step at 1, at_stage at 1. cbn [stage t_owner t_message t_pods fst snd].
  rewrite message_owner_method_eq. cbv zeta. cbn [bot_token set_cache].
  outcomes.
  - unfold step, at_stage, cache_setitem. cbn [stage t_owner t_message t_pods fst snd].
    unfold logged, requested. simpl.
    destruct (TTLCache.setitem _ _ _); reflexivity.
  - unfold step, at_stage, cache_setitem. cbn [stage t_owner t_message t_pods fst snd].
    unfold logged, requested. simpl.
    destruct (TTLCache.setitem _ _ _); reflexivity.
  - reflexivity.
Qed.

(** *** Any schedule *)

Lemma caught_direct_network (w w' : World) :
  network w' = network w -> caught_direct w -> caught_direct w'.
Proof. intros Hn Hc i url data e H. rewrite Hn in H. exact (Hc i url data e H). Qed.

Lemma run_schedule_cons (i : nat) (sched : list nat) (ths : list Caller) (s : State) :
  run_schedule (i :: sched) ths s
  = run_schedule sched (fst (step_nth i ths s)) (snd (step_nth i ths s)).
Proof. cbn [run_schedule]. destruct (step_nth i ths s); reflexivity. Qed.

Lemma step_nth_length (i : nat) (ths : list Caller) (s : State) :
  List.length (fst (step_nth i ths s)) = List.length ths.
Proof.
  revert i. induction ths as [| th ths IH]; intros i; [destruct i; reflexivity |].
  destruct i as [| i]; cbn [step_nth].
  - destruct (step th s); reflexivity.
  - specialize (IH i). destruct (step_nth i ths s). cbn in *. now rewrite IH.
Qed.

Lemma step_nth_other (i j : nat) (ths : list Caller) (s : State) :
  i <> j -> nth_error (fst (step_nth i ths s)) j = nth_error ths j.
Proof.
  revert i j. induction ths as [| th ths IH]; intros i j Hne; [destruct i; reflexivity |].
  destruct i as [| i]; cbn [step_nth].
  - destruct (step th s). destruct j; [congruence | reflexivity].
  - destruct j as [| j].
    + destruct (step_nth i ths s); reflexivity.
    + assert (Hij : i <> j) by congruence.
      specialize (IH i j Hij). destruct (step_nth i ths s). exact IH.
Qed.

Lemma step_nth_at (i : nat) (ths : list Caller) (s : State) (th : Caller) :
  nth_error ths i = Some th ->
  nth_error (fst (step_nth i ths s)) i = Some (fst (step th s))
  /\ snd (step_nth i ths s) = snd (step th s).
Proof.
  revert i. induction ths as [| x ths IH]; intros i Hi; [destruct i; discriminate |].
  destruct i as [| i]; cbn [step_nth nth_error] in *.
  - injection Hi as ->. destruct (step th s); split; reflexivity.
  - specialize (IH i Hi). destruct (step_nth i ths s). exact IH.
Qed.

Lemma step_nth_none (i : nat) (ths : list Caller) (s : State) :
  nth_error ths i = None -> step_nth i ths s = (ths, s).
Proof.
  revert i. induction ths as [| x ths IH]; intros i Hi; [destruct i; reflexivity |].
  destruct i as [| i]; cbn [step_nth nth_error] in *; [discriminate |].
  now rewrite (IH i Hi).
Qed.

Lemma steps_snoc (j i : nat) (hist : list nat) :
  steps j (hist ++ [i]) = (steps j hist + if Nat.eqb i j then 1 else 0)%nat.
Proof.
  unfold steps. rewrite count_occ_app. cbn [count_occ].
  destruct (Nat.eq_dec i j) as [-> | Hne].
  - now rewrite Nat.eqb_refl.
  - apply Nat.eqb_neq in Hne. now rewrite Hne.
Qed.

Lemma steps_app_le (j : nat) (l1 l2 : list nat) : (steps j l1 <= steps j (l1 ++ l2))%nat.
Proof. unfold steps. rewrite count_occ_app. lia. Qed.

Lemma live_later (c : TTLCache.t) (k : string) (t t' : Z) :
  TTLCache.live c k t = false -> t <= t' -> TTLCache.live c k t' = false.
Proof.
  unfold TTLCache.live. destruct (TTLCache.getlink k (TTLCache.links c)); [| auto].
  intros H Ht. apply Z.ltb_ge. apply Z.ltb_ge in H. lia.
Qed.

(** One step of a caller, by the stage it is at. *)
Lemma step_at (owner message : string) (pods : list Pod) (st : Stage) (s : State) :
  exists (st' : Stage) (s' : State),
    step (at_stage (caller owner message pods) st) s
    = (at_stage (caller owner message pods) st', s')
    /\ bot_token (fst s') = bot_token (fst s)
    /\ network (snd s') = network (snd s)
    /\ match st with
       | Lookup =>
           snd s' = snd s
           /\ cache (fst s')
              = snd (TTLCache.getitem (cache (fst s))
                       (_cache_key (fst s) owner message pods) (clock (snd s)))
           /\ st' = (if TTLCache.live (cache (fst s))
                          (_cache_key (fst s) owner message pods) (clock (snd s))
                     then Done false else Method)
       | Method =>
           cache (fst s') = cache (fst s)
           /\ clock (snd s) <= clock (snd s')
           /\ posts s'
              = (posts s ++ [requests_post
                               (owner_request (bot_token (fst s)) owner message pods)])%list
           /\ (st' = Store \/ exists e, st' = Raised e)
           /\ (caught_direct (snd s) -> st' = Store)
       | Store => snd s' = snd s /\ st' = Done true
       | Done _ | Raised _ => s' = s /\ st' = st
       end.
Proof.
  destruct s as [self w]. unfold step, at_stage, caller.
  cbn [stage t_owner t_message t_pods fst snd].
  destruct st as [| | | b | e].
  - unfold cache_getitem.
    pose proof (live_getitem (cache self) (_cache_key self owner message pods) (clock w))
      as Hv. revert Hv.
    destruct (TTLCache.getitem _ _ _) as [v c1]. cbn [fst snd]. intros ->.
    destruct (TTLCache.live _ _ _); do 2 eexists;
      (split; [reflexivity |]); cbn [fst snd]; repeat split.
  - rewrite message_owner_method_eq. cbv zeta.
    pose proof (requested_clock (owner_request (bot_token self) owner message pods) w)
      as Hclk.
    unfold reply. destruct (response _) as [t | ex] eqn:E;
      [| destruct (isinstance_RequestException ex) eqn:Ex].
    + do 2 eexists. split; [reflexivity |]. cbn [fst snd].
      split; [reflexivity | split; [reflexivity | split; [reflexivity |]]].
      split; [exact Hclk | split; [now apply posts_requested | split; [now left | auto]]].
    + do 2 eexists. split; [reflexivity |]. cbn [fst snd].
      split; [reflexivity | split; [reflexivity | split; [reflexivity |]]].
      split; [exact Hclk | split; [now apply posts_requested | split; [now left | auto]]].
    + do 2 eexists. split; [reflexivity |]. cbn [fst snd].
      split; [reflexivity | split; [reflexivity | split; [reflexivity |]]].
      split; [exact Hclk | split; [| split; [right; eauto |]]].
      * rewrite <- (logged_nil (requested _ w)). now apply posts_requested.
      * intros Hc. apply Hc in E. congruence.
  - unfold cache_setitem. destruct (TTLCache.setitem _ _ _) as [b c1].
    do 2 eexists. split; [reflexivity |]. cbn [fst snd]. repeat split.
  - do 2 eexists. split; [reflexivity |]. repeat split.
  - do 2 eexists. split; [reflexivity |]. repeat split.
Qed.

(** A step of the schedule, for callers that have not found the key:
    each caller is at the stage its number of steps gives, as long as no
    caller looks the key up after a caller has stored it. *)
Lemma step_nth_stages (owner message : string) (pods : list Pod) (self0 : Notifier)
  (i : nat) (hist : list nat) (ths : list Caller) (s : State) :
  Forall (same_call owner message pods) ths ->
  (forall j th, nth_error ths j = Some th -> stage_after (steps j hist) (stage th)) ->
  ((forall j, (j < List.length ths)%nat -> (1 <= steps j hist)%nat)
   \/ missing (_cache_key self0 owner message pods) s) ->
  Forall (same_call owner message pods) (fst (step_nth i ths s))
  /\ (forall j th, nth_error (fst (step_nth i ths s)) j = Some th ->
        stage_after (steps j (hist ++ [i])) (stage th))
  /\ (missing (_cache_key self0 owner message pods) s ->
      (forall j, (j < List.length ths)%nat -> (steps j (hist ++ [i]) <= 2)%nat) ->
      missing (_cache_key self0 owner message pods) (snd (step_nth i ths s))).
Proof.
  intros Hsame Hst Halt.
  destruct (nth_error ths i) as [th |] eqn:Hi.
  2: { rewrite (step_nth_none _ _ _ Hi). cbn [fst snd].
       split; [exact Hsame | split; [| auto]].
       intros j th Hj. rewrite steps_snoc.
       assert (Hne : i <> j) by (intros ->; congruence).
       apply Nat.eqb_neq in Hne. rewrite Hne, Nat.add_0_r. now apply Hst. }
  assert (Hth : same_call owner message pods th)
    by (apply (proj1 (Forall_forall _ _) Hsame); eapply nth_error_In; exact Hi).
  assert (Hlen : (i < List.length ths)%nat)
    by (apply nth_error_Some; congruence).
  destruct (step_at owner message pods (stage th) s)
    as (st' & s' & Hstep & Htok & Hnet & Hcase).
  unfold same_call in Hth. rewrite <- Hth in Hstep.
  destruct (step_nth_at i ths s th Hi) as [Hn1 Hs1].
  rewrite Hstep in Hn1, Hs1. cbn [fst snd] in Hn1, Hs1. rewrite Hs1.
  pose proof (Hst i th Hi) as Hsti.
  assert (Hnew : stage_after (S (steps i hist)) st'
                 /\ (missing (_cache_key self0 owner message pods) s ->
                     (steps i (hist ++ [i]) <= 2)%nat ->
                     missing (_cache_key self0 owner message pods) s')).
  { destruct (steps i hist) as [| [| [| c]]] eqn:Hc; cbn [stage_after] in Hsti |- *.
    - rewrite Hsti in Hcase. destruct Hcase as (Hw & Hcache & Hst').
      destruct Halt as [Hall | Hmiss]; [specialize (Hall i Hlen); lia |].
      pose proof (Hmiss (clock (snd s)) (Z.le_refl _)) as Hlive.
      change (_cache_key (fst s) owner message pods)
        with (_cache_key self0 owner message pods) in Hst', Hcache.
      rewrite Hlive in Hst'. split; [exact Hst' |].
      intros _ _ t Ht. rewrite Hcache. rewrite Hw in Ht.
      now apply getitem_miss_stays.
    - rewrite Hsti in Hcase. destruct Hcase as (Hcache & Hclk & _ & Hst' & _).
      split; [exact Hst' |]. intros Hm _ t Ht. rewrite Hcache. apply Hm. lia.
    - destruct Hsti as [Hsti | (e & Hsti)]; rewrite Hsti in Hcase.
      + destruct Hcase as (_ & ->). split; [now left |].
        intros _ Hle. rewrite steps_snoc, Hc, Nat.eqb_refl in Hle. lia.
      + destruct Hcase as (-> & ->). split; [right; eauto | auto].
    - destruct Hsti as [Hsti | (e & Hsti)]; rewrite Hsti in Hcase;
        destruct Hcase as (-> & ->); (split; [| auto]); [now left | right; eauto]. }
  destruct Hnew as [Hnew Hmiss']. split; [| split].
  - apply Forall_forall. intros x Hx. apply In_nth_error in Hx. destruct Hx as (j & Hj).
    destruct (Nat.eq_dec i j) as [<- | Hne].
    + rewrite Hn1 in Hj. injection Hj as <-. reflexivity.
    + rewrite (step_nth_other i j ths s Hne) in Hj.
      apply (proj1 (Forall_forall _ _) Hsame). eapply nth_error_In. exact Hj.
  - intros j x Hj. rewrite steps_snoc.
    destruct (Nat.eq_dec i j) as [<- | Hne].
    + rewrite Nat.eqb_refl, Nat.add_1_r. rewrite Hn1 in Hj. injection Hj as <-.
      exact Hnew.
    + rewrite (step_nth_other i j ths s Hne) in Hj.
      apply Nat.eqb_neq in Hne. rewrite Hne, Nat.add_0_r. now apply Hst.
  - intros Hm Hle. apply (Hmiss' Hm). now apply Hle.
Qed.

(** A schedule in which no caller looks the key up after a caller has
    stored it: whatever the order of the steps, each caller is at the
    stage its number of steps gives. *)
Lemma run_schedule_stages (owner message : string) (pods : list Pod) (self0 : Notifier)
  (sched hist : list nat) (ths : list Caller) (s : State) :
  Forall (same_call owner message pods) ths ->
  (forall j th, nth_error ths j = Some th -> stage_after (steps j hist) (stage th)) ->
  ((forall j, (j < List.length ths)%nat -> (1 <= steps j hist)%nat)
   \/ (missing (_cache_key self0 owner message pods) s
       /\ forall j, (j < List.length ths)%nat -> (steps j (hist ++ sched) <= 2)%nat)) ->
  Forall (same_call owner message pods) (fst (run_schedule sched ths s))
  /\ List.length (fst (run_schedule sched ths s)) = List.length ths
  /\ (forall j th, nth_error (fst (run_schedule sched ths s)) j = Some th ->
        stage_after (steps j (hist ++ sched)) (stage th)).
Proof.
  revert hist ths s. induction sched as [| i sched IH]; intros hist ths s Hsame Hst Halt.
  - cbn [run_schedule fst]. rewrite app_nil_r. auto.
  - rewrite run_schedule_cons.
    assert (Halt1 : (forall j, (j < List.length ths)%nat -> (1 <= steps j hist)%nat)
                    \/ missing (_cache_key self0 owner message pods) s)
      by (destruct Halt as [H | [H _]]; auto).
    destruct (step_nth_stages owner message pods self0 i hist ths s Hsame Hst Halt1)
      as (Hsame1 & Hst1 & Hmiss1).
    pose proof (step_nth_length i ths s) as Hlen1.
    replace (hist ++ i :: sched)%list with ((hist ++ [i]) ++ sched)%list
      by (now rewrite <- app_assoc).
    destruct (IH (hist ++ [i])%list (fst (step_nth i ths s)) (snd (step_nth i ths s))
                Hsame1 Hst1) as (H1 & H2 & H3).
    + rewrite Hlen1. destruct Halt as [Hall | [Hm Hle]].
      * left. intros j Hj. pose proof (steps_app_le j hist [i]).
        specialize (Hall j Hj). lia.
      * right.
        assert (Hle' : forall j, (j < List.length ths)%nat ->
                         (steps j ((hist ++ [i]) ++ sched) <= 2)%nat).
        { intros j Hj. rewrite <- app_assoc. now apply Hle. }
        split; [| exact Hle'].
        apply Hmiss1; [exact Hm |]. intros j Hj.
        pose proof (steps_app_le j (hist ++ [i]) sched). specialize (Hle' j Hj). lia.
    + split; [exact H1 | split; [congruence | exact H3]].
Qed.

Lemma posted_count_cons (th : Caller) (ths : list Caller) :
  posted_count (th :: ths)
  = ((if has_posted th then 1 else 0) + posted_count ths)%nat.
Proof. unfold posted_count. cbn [filter]. destruct (has_posted th); reflexivity. Qed.

(** A step of the schedule posts the request when it takes a caller
    through the method, and at no other time; on a network whose
    exceptions the method catches no caller ends by raising. *)
Lemma step_nth_posted (owner message : string) (pods : list Pod)
  (i : nat) (ths : list Caller) (s : State) :
  Forall (same_call owner message pods) ths ->
  Forall (same_call owner message pods) (fst (step_nth i ths s))
  /\ bot_token (fst (snd (step_nth i ths s))) = bot_token (fst s)
  /\ (exists n : nat,
        posts (snd (step_nth i ths s))
        = (posts s ++ repeat (requests_post
                                (owner_request (bot_token (fst s)) owner message pods)) n)%list
        /\ posted_count (fst (step_nth i ths s)) = (posted_count ths + n)%nat)
  /\ (caught_direct (snd s) -> Forall not_raised ths ->
      caught_direct (snd (snd (step_nth i ths s)))
      /\ Forall not_raised (fst (step_nth i ths s))).
Proof.
  revert i. induction ths as [| th ths IH]; intros i Hsame.
  - assert (E : step_nth i [] s = ([], s)) by (destruct i; reflexivity).
    rewrite E. cbn [fst snd].
    split; [constructor | split; [reflexivity | split; [| auto]]].
    exists 0%nat. cbn [repeat]. now rewrite app_nil_r.
  - inversion Hsame as [| ? ? Hth Hsame']; subst.
    destruct i as [| i]; cbn [step_nth].
    + destruct (step_at owner message pods (stage th) s)
        as (st' & s' & Hstep & Htok & Hnet & Hcase).
      unfold same_call in Hth. rewrite <- Hth in Hstep. rewrite Hstep. cbn [fst snd].
      split; [constructor; [reflexivity | exact Hsame'] | split; [exact Htok |]].
      rewrite !posted_count_cons. unfold has_posted at 1 2, not_raised.
      cbn [stage at_stage].
      destruct (stage th) as [| | | b | e] eqn:Est.
      * destruct Hcase as (Hw & _ & ->). split.
        -- exists 0%nat. cbn [repeat]. rewrite app_nil_r. unfold posts. rewrite Hw.
           split; [reflexivity |]. destruct (TTLCache.live _ _ _); lia.
        -- intros Hc Hnr. rewrite Hw. split; [exact Hc |].
           inversion Hnr; subst. constructor; [| assumption].
           unfold not_raised. cbn [stage at_stage]. destruct (TTLCache.live _ _ _); exact I.
      * destruct Hcase as (_ & _ & Hposts & Hst' & Hcaught). split.
        -- exists 1%nat. split; [exact Hposts |].
           destruct Hst' as [-> | (e & ->)]; lia.
        -- intros Hc Hnr. split; [now apply (caught_direct_network _ _ Hnet) |].
           inversion Hnr; subst. constructor; [| assumption].
           unfold not_raised. cbn [stage at_stage]. now rewrite (Hcaught Hc).
      * destruct Hcase as (Hw & ->). split.
        -- exists 0%nat. cbn [repeat]. rewrite app_nil_r. unfold posts. rewrite Hw.
           split; [reflexivity | lia].
        -- intros Hc Hnr. rewrite Hw. split; [exact Hc |].
           inversion Hnr; subst. constructor; [exact I | assumption].
      * destruct Hcase as (-> & ->). split.
        -- exists 0%nat. cbn [repeat]. rewrite app_nil_r. split; [reflexivity | lia].
        -- intros Hc Hnr. split; [exact Hc |].
           inversion Hnr; subst. constructor; [exact I | assumption].
      * destruct Hcase as (-> & ->). split.
        -- exists 0%nat. cbn [repeat]. rewrite app_nil_r. split; [reflexivity | lia].
        -- intros Hc Hnr. split; [exact Hc |].
           inversion Hnr as [| ? ? Hr ?]; subst. unfold not_raised in Hr.
           rewrite Est in Hr. destruct Hr.
    + destruct (IH i Hsame') as (H1 & H2 & (n & H3 & H4) & H5).
      destruct (step_nth i ths s) as [ths' s']. cbn [fst snd] in *.
      split; [constructor; assumption | split; [exact H2 | split]].
      * exists n. split; [exact H3 |]. rewrite !posted_count_cons, H4. lia.
      * intros Hc Hnr. inversion Hnr as [| ? ? Hr Hnr']; subst.
        destruct (H5 Hc Hnr') as [Hc' Hnr''].
        split; [exact Hc' | constructor; assumption].
Qed.

Lemma run_schedule_posted (owner message : string) (pods : list Pod)
  (sched : list nat) (ths : list Caller) (s : State) :
  Forall (same_call owner message pods) ths ->
  (exists n : nat,
     posts (snd (run_schedule sched ths s))
     = (posts s ++ repeat (requests_post
                             (owner_request (bot_token (fst s)) owner message pods)) n)%list
     /\ posted_count (fst (run_schedule sched ths s)) = (posted_count ths + n)%nat)
  /\ (caught_direct (snd s) -> Forall not_raised ths ->
      Forall not_raised (fst (run_schedule sched ths s))).
Proof.
  revert ths s. induction sched as [| i sched IH]; intros ths s Hsame.
  - cbn [run_schedule fst snd]. split; [| auto].
    exists 0%nat. cbn [repeat]. now rewrite app_nil_r.
  - rewrite run_schedule_cons.
    destruct (step_nth_posted owner message pods i ths s Hsame)
      as (Hsame1 & Htok1 & (n1 & Hp1 & Hc1) & Hcaught1).
    destruct (IH (fst (step_nth i ths s)) (snd (step_nth i ths s)) Hsame1)
      as ((n2 & Hp2 & Hc2) & Hcaught2).
    split.
    + exists (n1 + n2)%nat. rewrite Hp2, Hp1, Htok1, Hc2, Hc1.
      rewrite repeat_app, <- app_assoc. split; [reflexivity | lia].
    + intros Hc Hnr. destruct (Hcaught1 Hc Hnr) as [Hc' Hnr']. now apply Hcaught2.
Qed.

Lemma filter_all {A : Type} (f : A -> bool) (l : list A) :
  (forall x, In x l -> f x = true) -> List.length (filter f l) = List.length l.
Proof.
  induction l as [| x l IH]; intros H; cbn [filter List.length]; [reflexivity |].
  rewrite (H x (or_introl eq_refl)). cbn [List.length]. rewrite IH; [reflexivity |].
  intros y Hy. apply H. now right.
Qed.

Lemma posted_count_callers (owner message : string) (pods : list Pod) (n : nat) :
  posted_count (repeat (caller owner message pods) n) = 0%nat.
Proof. induction n as [| n IH]; [reflexivity |]. cbn [repeat]. now rewrite posted_count_cons. Qed.

Lemma stage_after_posted (c : nat) (th : Caller) :
  (2 <= c)%nat -> stage_after c (stage th) -> has_posted th = true.
Proof.
  unfold has_posted. intros Hc H.
  destruct c as [| [| [| c]]]; [lia | lia | |]; cbn [stage_after] in H;
    destruct H as [-> | (e & ->)]; reflexivity.
Qed.

Lemma stage_after_done (c : nat) (th : Caller) :
  (3 <= c)%nat -> stage_after c (stage th) -> not_raised th -> stage th = Done true.
Proof.
  unfold not_raised. intros Hc H Hnr.
  destruct c as [| [| [| c]]]; [lia | lia | lia |]; cbn [stage_after] in H.
  destruct H as [-> | (e & E)]; [reflexivity |]. rewrite E in Hnr. destruct Hnr.
Qed.

Lemma at_least_steps (m n : nat) (sched : list nat) (j : nat) :
  at_least m n sched = true -> (j < n)%nat -> (m <= steps j sched)%nat.
Proof.
  unfold at_least. intros H Hj. rewrite forallb_forall in H.
  apply Nat.leb_le. apply H. apply in_seq. lia.
Qed.

Lemma lookups_only_steps (n : nat) (sched : list nat) (j : nat) :
  lookups_only n sched = true -> (j < n)%nat ->
  (1 <= steps j sched)%nat /\ (steps j sched <= 2)%nat.
Proof.
  unfold lookups_only. intros H Hj. rewrite forallb_forall in H.
  assert (Hin : In j (seq 0 n)) by (apply in_seq; lia).
  specialize (H j Hin). apply andb_prop in H. destruct H as [H1 H2].
  apply Nat.leb_le in H1. apply Nat.leb_le in H2. auto.
Qed.

(** C4, amended: [message_owner] is memoised without a lock; a caller
    looks the key up, calls the method and stores the result in three
    steps, and the steps of other callers can come between them. Take [n]
    callers with the same arguments, a key that is not in the cache or has
    expired, and any order of their steps in which every caller looks the
    key up before any caller stores it (the schedule is [pre ++ post], and
    in [pre] every caller makes one step or two). Then every caller that
    gets as far as the method posts the request: once every caller has
    made two steps, the request has been posted [n] times; and when the
    requests to the chat API raise no other exceptions than those the
    method catches, once every caller has made its three steps, all [n]
    end having sent. A caller whose lookup
    comes when the key is in the cache and has not expired sends nothing.
    A caller alone does what the call of [message_owner] does. *)
Theorem message_owner_without_lock
  (n : nat) (owner message : string) (pods : list Pod) (s : State) :
  let k := _cache_key (fst s) owner message pods in
  let req := requests_post (owner_request (bot_token (fst s)) owner message pods) in
  (forall pre post : list nat,
     let run := run_schedule (pre ++ post) (repeat (caller owner message pods) n) s in
     TTLCache.live (cache (fst s)) k (clock (snd s)) = false ->
     lookups_only n pre = true ->
     (at_least 2 n (pre ++ post) = true ->
      posts (snd run) = (posts s ++ repeat req n)%list)
     /\ (caught_direct (snd s) -> at_least 3 n (pre ++ post) = true ->
         fst run = repeat (at_stage (caller owner message pods) (Done true)) n))
  /\ (forall (e : Z) (m : nat),
        kept k e m (cache (fst s)) -> clock (snd s) < e ->
        exists self',
          step (caller owner message pods) s
          = (at_stage (caller owner message pods) (Done false), (self', snd s)))
  /\ snd (run_schedule [0; 0; 0]%nat [caller owner message pods] s)
     = exec (message_owner owner message pods) s.
Proof.
  cbv zeta. split; [| split].
  - intros pre post Hlive Hpre.
    set (ths0 := repeat (caller owner message pods) n).
    assert (Hlen0 : List.length ths0 = n) by apply repeat_length.
    assert (Hall0 : forall x, In x ths0 -> x = caller owner message pods)
      by (intros x Hx; now apply repeat_spec in Hx).
    assert (Hsame0 : Forall (same_call owner message pods) ths0).
    { apply Forall_forall. intros x Hx. rewrite (Hall0 x Hx). reflexivity. }
    assert (Hst0 : forall j th, nth_error ths0 j = Some th ->
                     stage_after (steps j []) (stage th)).
    { intros j th Hj. apply nth_error_In in Hj. rewrite (Hall0 th Hj). reflexivity. }
    destruct (run_schedule_posted owner message pods (pre ++ post) ths0 s Hsame0)
      as ((n' & Hposts & Hcount) & Hcaught).
    unfold ths0 in Hcount at 2. rewrite posted_count_callers in Hcount.
    assert (Hrun : run_schedule (pre ++ post) ths0 s
                   = run_schedule post (fst (run_schedule pre ths0 s))
                                  (snd (run_schedule pre ths0 s))).
    { rewrite run_schedule_app. destruct (run_schedule pre ths0 s); reflexivity. }
    destruct (run_schedule_stages owner message pods (fst s) pre [] ths0 s Hsame0 Hst0)
      as (Hsame1 & Hlen1 & Hst1).
    { right. split.
      - intros t Ht. exact (live_later _ _ _ _ Hlive Ht).
      - intros j Hj. rewrite Hlen0 in Hj.
        exact (proj2 (lookups_only_steps n pre j Hpre Hj)). }
    cbn [app] in Hst1.
    destruct (run_schedule_stages owner message pods (fst s) post pre
                (fst (run_schedule pre ths0 s)) (snd (run_schedule pre ths0 s))
                Hsame1 Hst1) as (Hsame2 & Hlen2 & Hst2).
    { left. intros j Hj. rewrite Hlen1, Hlen0 in Hj.
      exact (proj1 (lookups_only_steps n pre j Hpre Hj)). }
    rewrite <- Hrun in Hsame2, Hlen2, Hst2. rewrite Hlen1, Hlen0 in Hlen2.
    set (run := run_schedule (pre ++ post) ths0 s) in *. clearbody run.
    assert (Hnth : forall x, In x (fst run) ->
                     exists j, (j < n)%nat /\ nth_error (fst run) j = Some x).
    { intros x Hx. apply In_nth_error in Hx. destruct Hx as (j & Hj).
      exists j. split; [| exact Hj]. rewrite <- Hlen2. apply nth_error_Some. congruence. }
    split.
    + intros H2.
      assert (Hall : List.length (filter has_posted (fst run)) = List.length (fst run)).
      { apply filter_all. intros x Hx. destruct (Hnth x Hx) as (j & Hj & Hx').
        apply (stage_after_posted (steps j (pre ++ post)));
          [exact (at_least_steps 2 n _ j H2 Hj) | now apply Hst2]. }
      unfold posted_count in Hcount. rewrite Hall, Hlen2 in Hcount. simpl in Hcount.
      rewrite Hposts, <- Hcount. reflexivity.
    + intros Hc H3.
      assert (Hnr0 : Forall not_raised ths0).
      { apply Forall_forall. intros x Hx. rewrite (Hall0 x Hx). exact I. }
      specialize (Hcaught Hc Hnr0).
      assert (Hall : Forall (eq (at_stage (caller owner message pods) (Done true)))
                            (fst run)).
      { apply Forall_forall. intros x Hx. destruct (Hnth x Hx) as (j & Hj & Hx').
        pose proof (proj1 (Forall_forall _ _) Hsame2 x Hx) as Hsx.
        pose proof (proj1 (Forall_forall _ _) Hcaught x Hx) as Hnx.
        unfold same_call in Hsx. rewrite Hsx.
        rewrite (stage_after_done (steps j (pre ++ post)) x);
          [reflexivity | exact (at_least_steps 3 n _ j H3 Hj) | now apply Hst2
           | exact Hnx]. }
      apply Forall_eq_repeat in Hall. rewrite Hlen2 in Hall. exact Hall.
  - intros e m. apply step_lookup_hit.
  - apply steps_message_owner.
Qed.

Lemma sample_world_caught : caught sample_world.
Proof. intros i req e H. discriminate H. Qed.

Lemma sample_world_caught_direct : caught_direct sample_world.
Proof. intros i url data e H. discriminate H. Qed.

Lemma message_owner_without_lock_witness :
  let k := _cache_key sample_notifier "alice" "m" sample_pods in
  let req := requests_post (owner_request (bot_token sample_notifier) "alice" "m"
                              sample_pods) in
  let s1 := exec (message_owner "alice" "m" sample_pods) (sample_notifier, sample_world) in
  let run := run_schedule ([0; 1; 0]%nat ++ [0; 1; 1]%nat)%list
                          (repeat (caller "alice" "m" sample_pods) 2)
                          (sample_notifier, sample_world) in
  caught_direct sample_world
  /\ TTLCache.live (cache sample_notifier) k (clock sample_world) = false
  /\ lookups_only 2 [0; 1; 0]%nat = true
  /\ at_least 2 2 ([0; 1; 0]%nat ++ [0; 1; 1]%nat)%list = true
  /\ at_least 3 2 ([0; 1; 0]%nat ++ [0; 1; 1]%nat)%list = true
  /\ kept k 1801 0 (cache (fst s1))
  /\ clock (snd s1) < 1801
  /\ posts (snd run) = (posts (sample_notifier, sample_world) ++ repeat req 2)%list
  /\ fst run = repeat (at_stage (caller "alice" "m" sample_pods) (Done true)) 2
  /\ (exists self',
        step (caller "alice" "m" sample_pods) s1
        = (at_stage (caller "alice" "m" sample_pods) (Done false), (self', snd s1))).
Proof.
  cbv zeta.
  assert (H1 : caught_direct sample_world) by exact sample_world_caught_direct.
  assert (H2 : TTLCache.live (cache sample_notifier)
                 (_cache_key sample_notifier "alice" "m" sample_pods)
                 (clock sample_world) = false) by reflexivity.
  assert (H3 : lookups_only 2 [0; 1; 0]%nat = true) by reflexivity.
  assert (H4 : at_least 2 2 ([0; 1; 0]%nat ++ [0; 1; 1]%nat)%list = true) by reflexivity.
  assert (H5 : at_least 3 2 ([0; 1; 0]%nat ++ [0; 1; 1]%nat)%list = true) by reflexivity.
  assert (H6 : kept (_cache_key sample_notifier "alice" "m" sample_pods) 1801 0
                 (cache (fst (exec (message_owner "alice" "m" sample_pods)
                                   (sample_notifier, sample_world)))))
    by (split; [vm_compute; reflexivity | apply Nat.leb_le; vm_compute; reflexivity]).
  assert (H7 : clock (snd (exec (message_owner "alice" "m" sample_pods)
                                (sample_notifier, sample_world))) < 1801)
    by (apply Z.ltb_lt; vm_compute; reflexivity).
  destruct (proj1 (message_owner_without_lock 2 "alice" "m" sample_pods
                     (sample_notifier, sample_world))
                  [0; 1; 0]%nat [0; 1; 1]%nat H2 H3) as [P1 P1'].
  pose proof (proj1 (proj2 (message_owner_without_lock 2 "alice" "m" sample_pods
                              (exec (message_owner "alice" "m" sample_pods)
                                    (sample_notifier, sample_world))))
                    1801 0%nat H6 H7) as P2.
  exact (conj H1 (conj H2 (conj H3 (conj H4 (conj H5 (conj H6 (conj H7
           (conj (P1 H4) (conj (P1' H1 H5) P2))))))))).
Defined.

(** C4 as stated fails: two callers send alice the same message at the
    same time. Both look the key up before either stores it, both post the
    request, and both end having sent. *)
Lemma two_callers_both_send :
  let pods := [sample_pod "id1" (Some "alice")] in
  let run := run_schedule [0; 1; 0; 1; 0; 1]%nat
                          [caller "alice" "m" pods; caller "alice" "m" pods]
                          (sample_notifier, sample_world) in
  map stage (fst run) = [Done true; Done true]
  /\ posts (snd run)
     = [requests_post (owner_request (bot_token sample_notifier) "alice" "m" pods);
        requests_post (owner_request (bot_token sample_notifier) "alice" "m" pods)].
Proof. vm_compute. split; reflexivity. Qed.

(** * More properties of the module *)

(** ** The form of a key *)

Lemma bytes_of_int_range (width : nat) (w : Z) :
  Forall (fun b => 0 <= b < 256) (MD5.bytes_of_int width w).
Proof.
  unfold MD5.bytes_of_int. apply Forall_forall. intros b Hb.
  apply in_map_iff in Hb. destruct Hb as (i & <- & _).
  change 0xff with (Z.ones 8). rewrite Z.land_ones by lia.
  apply Z.mod_pos_bound. reflexivity.
Qed.

Lemma digest_range (bs : list MD5.byte) :
  Forall (fun b => 0 <= b < 256) (MD5.digest bs)
  /\ List.length (MD5.digest bs) = 16%nat.
Proof.
  unfold MD5.digest. cbv zeta. split.
  - repeat (apply Forall_app; split); apply bytes_of_int_range.
  - rewrite !length_app. unfold MD5.bytes_of_int. rewrite !length_map. reflexivity.
Qed.

Lemma hex_digit_is_hex (d : Z) : 0 <= d < 16 -> is_hex (MD5.hex_digit d) = true.
Proof.
  intros H.
  assert (Hd : d = 0 \/ d = 1 \/ d = 2 \/ d = 3 \/ d = 4 \/ d = 5 \/ d = 6 \/ d = 7
               \/ d = 8 \/ d = 9 \/ d = 10 \/ d = 11 \/ d = 12 \/ d = 13 \/ d = 14
               \/ d = 15) by lia.
  repeat (destruct Hd as [-> | Hd]; [reflexivity |]). subst d. reflexivity.
Qed.

Lemma hex_form (bs : list MD5.byte) :
  Forall (fun b => 0 <= b < 256) bs ->
  String.length (MD5.hex bs) = (2 * List.length bs)%nat
  /\ forallb is_hex (list_ascii_of_string (MD5.hex bs)) = true.
Proof.
  induction 1 as [| b bs Hb _ [IHlen IHhex]]; [split; reflexivity |].
  cbn [MD5.hex String.length list_ascii_of_string forallb List.length].
  split; [rewrite IHlen; lia |].
  rewrite IHhex, !andb_true_r. apply andb_true_iff. split; apply hex_digit_is_hex.
  - rewrite Z.shiftr_div_pow2 by lia. change (2 ^ 4) with 16.
    split; [apply Z.div_pos; lia | apply Z.div_lt_upper_bound; lia].
  - change 0xf with (Z.ones 4). rewrite Z.land_ones by lia.
    apply Z.mod_pos_bound. reflexivity.
Qed.

(** X1: whatever the owner, the message and the pods, the key is
    ["v0.md5."] followed by 32 lower-case hexadecimal digits: 39
    characters in all. *)
Theorem cache_key_form
  (notifier : Notifier) (owner message : string) (pods : list Pod) :
  exists digest : string,
    _cache_key notifier owner message pods = "v0.md5." ++ digest
    /\ String.length digest = 32%nat
    /\ forallb is_hex (list_ascii_of_string digest) = true
    /\ String.length (_cache_key notifier owner message pods) = 39%nat.
Proof.
  exists (MD5.hexdigest (_cache_key_data owner message pods)).
  unfold MD5.hexdigest.
  destruct (digest_range (_cache_key_data owner message pods)) as [Hr Hl].
  destruct (hex_form _ Hr) as [Hlen Hhex]. rewrite Hl in Hlen.
  split; [reflexivity | split; [exact Hlen | split; [exact Hhex |]]].
  unfold _cache_key, MD5.hexdigest. cbv zeta. cbn [append String.length].
  now rewrite Hlen.
Qed.

(** ** The batches of [message_owners] *)

Lemma pods_by_owner_app (pods : list Pod) (p : Pod) :
  pods_by_owner (pods ++ [p])
  = if truthy (owner p)
    then setdefault_append (pods_by_owner pods) (value_of (owner p)) p
    else pods_by_owner pods.
Proof. unfold pods_by_owner. rewrite fold_left_app. reflexivity. Qed.

Lemma setdefault_append_keys_in (d : list (string * list Pod)) (k : string) (p : Pod) :
  In k (map fst d) -> map fst (setdefault_append d k p) = map fst d.
Proof.
  induction d as [| [k' ps] d IH]; simpl; [intros [] |].
  destruct (k' =? k)%string eqn:E; [reflexivity |].
  intros [H | H]; [apply String.eqb_neq in E; contradiction |].
  simpl. now rewrite IH.
Qed.

Lemma setdefault_append_keys_notin (d : list (string * list Pod)) (k : string) (p : Pod) :
  ~ In k (map fst d) -> map fst (setdefault_append d k p) = (map fst d ++ [k])%list.
Proof.
  induction d as [| [k' ps] d IH]; simpl; [reflexivity |].
  intros H. destruct (k' =? k)%string eqn:E.
  - apply String.eqb_eq in E. tauto.
  - simpl. rewrite IH; [reflexivity | tauto].
Qed.

(** What [setdefault(k, []).append(p)] leaves in a dict: the other keys
    as they were, and under [k] its list with [p] at the end. *)
Lemma setdefault_append_entries (d : list (string * list Pod)) (k : string) (p : Pod)
  (o : string) (batch : list Pod) :
  NoDup (map fst d) ->
  In (o, batch) (setdefault_append d k p) ->
  (o <> k /\ In (o, batch) d)
  \/ (o = k /\ exists batch0,
         batch = (batch0 ++ [p])%list
         /\ (In (k, batch0) d \/ (batch0 = [] /\ ~ In k (map fst d)))).
Proof.
  induction d as [| [k' ps] d IH]; simpl; intros Hnd Hin.
  - destruct Hin as [H | []]. injection H as <- <-. right. split; [reflexivity |].
    exists []. auto.
  - inversion Hnd as [| ? ? Hk' Hnd']; subst.
    destruct (k' =? k)%string eqn:E.
    + apply String.eqb_eq in E. subst k'. destruct Hin as [H | H].
      * injection H as <- <-. right. split; [reflexivity |]. exists ps. auto.
      * left. split; [| now right]. intros ->. apply Hk'.
        apply in_map_iff. now exists (k, batch).
    + apply String.eqb_neq in E. destruct Hin as [H | H].
      * injection H as <- <-. left. split; [exact E | now left].
      * destruct (IH Hnd' H) as [[Hne Hd] | (-> & b0 & -> & [Hd | [-> Hd]])].
        -- left. split; [exact Hne | now right].
        -- right. split; [reflexivity |]. exists b0. split; [reflexivity |]. left. now right.
        -- right. split; [reflexivity |]. exists []. split; [reflexivity |]. right.
           split; [reflexivity |]. intros [H' | H']; [congruence | contradiction].
Qed.

Lemma filter_none {A : Type} (f : A -> bool) (l : list A) :
  (forall x, In x l -> f x = false) -> filter f l = [].
Proof.
  induction l as [| x l IH]; intros H; simpl; [reflexivity |].
  rewrite (H x (or_introl eq_refl)). apply IH. intros y Hy. apply H. now right.
Qed.

Lemma owned_by_owner (o : string) (p : Pod) :
  truthy (owner p) = true -> owned_by o p = (value_of (owner p) =? o)%string.
Proof. unfold owned_by. now intros ->. Qed.

Lemma pods_by_owner_invariant (pods : list Pod) :
  NoDup (map fst (pods_by_owner pods))
  /\ (forall o batch, In (o, batch) (pods_by_owner pods) ->
        batch = filter (owned_by o) pods /\ batch <> [])
  /\ (forall o pod, In pod pods -> owned_by o pod = true ->
        In o (map fst (pods_by_owner pods))).
Proof.
  induction pods as [| p pods (Hnd & Hb & Hk)] using rev_ind.
  - split; [constructor | split; [intros o b [] | intros o pod []]].
  - rewrite pods_by_owner_app. destruct (truthy (owner p)) eqn:Ht.
    + set (k := value_of (owner p)) in *.
      assert (Hkeys : forall o, In o (map fst (pods_by_owner pods)) \/ o = k ->
                 In o (map fst (setdefault_append (pods_by_owner pods) k p))).
      { intros o Ho.
        destruct (in_dec string_dec k (map fst (pods_by_owner pods))) as [Hin | Hin].
        - rewrite setdefault_append_keys_in by exact Hin.
          destruct Ho as [Ho | ->]; assumption.
        - rewrite setdefault_append_keys_notin by exact Hin.
          apply in_or_app. destruct Ho as [Ho | ->]; [now left | right; now left]. }
      split; [| split].
      * destruct (in_dec string_dec k (map fst (pods_by_owner pods))) as [Hin | Hin].
        -- now rewrite setdefault_append_keys_in.
        -- rewrite setdefault_append_keys_notin by exact Hin. now apply NoDup_snoc.
      * intros o batch Hin. rewrite filter_app. cbn [filter].
        rewrite (owned_by_owner o p Ht). fold k.
        destruct (setdefault_append_entries _ _ _ _ _ Hnd Hin)
          as [[Hne Hd] | (-> & b0 & -> & [Hd | [-> Hd]])].
        -- destruct (Hb _ _ Hd) as [-> Hnil].
           assert (E : (k =? o)%string = false) by (apply String.eqb_neq; congruence).
           rewrite E, app_nil_r. auto.
        -- destruct (Hb _ _ Hd) as [-> _]. rewrite String.eqb_refl.
           split; [reflexivity |]. intros H. now apply app_eq_nil in H as [_ H].
        -- rewrite String.eqb_refl. split; [| discriminate].
           rewrite filter_none; [reflexivity |].
           intros x Hx. destruct (owned_by k x) eqn:E; [| reflexivity].
           exfalso. apply Hd. now apply (Hk k x).
      * intros o pod Hin Ho. apply Hkeys. apply in_app_or in Hin.
        destruct Hin as [Hin | [<- | []]]; [left; now apply (Hk o pod) | right].
        rewrite (owned_by_owner o p Ht) in Ho. apply String.eqb_eq in Ho. now subst k.
    + split; [exact Hnd | split].
      * intros o batch Hin. rewrite filter_app. cbn [filter].
        unfold owned_by at 2. rewrite Ht. cbn [andb]. rewrite app_nil_r. now apply Hb.
      * intros o pod Hin Ho. apply in_app_or in Hin.
        destruct Hin as [Hin | [<- | []]]; [now apply (Hk o pod) |].
        unfold owned_by in Ho. rewrite Ht in Ho. discriminate.
Qed.

(** X2: [message_owners] groups the pods in batches, one for each owner:
    no owner has two batches; the batch of an owner is made of all the
    pods of that owner, and of no other pod, in the order of the list;
    no batch is empty; and every owner of a pod has a batch. *)
Theorem pods_by_owner_partition (pods : list Pod) :
  NoDup (map fst (pods_by_owner pods))
  /\ (forall o batch, In (o, batch) (pods_by_owner pods) ->
        batch = filter (owned_by o) pods /\ batch <> [])
  /\ (forall pod, In pod pods -> truthy (owner pod) = true ->
        In (value_of (owner pod), filter (owned_by (value_of (owner pod))) pods)
           (pods_by_owner pods)).
Proof.
  destruct (pods_by_owner_invariant pods) as (Hnd & Hb & Hk).
  split; [exact Hnd | split; [exact Hb |]].
  intros pod Hin Ht.
  assert (Ho : owned_by (value_of (owner pod)) pod = true).
  { rewrite (owned_by_owner _ _ Ht). apply String.eqb_refl. }
  pose proof (Hk _ _ Hin Ho) as Hkey. apply in_map_iff in Hkey.
  destruct Hkey as ([o b] & Heq & Hd). simpl in Heq. subst o.
  destruct (Hb _ _ Hd) as [-> _]. exact Hd.
Qed.

Lemma pods_by_owner_partition_witness :
  In (sample_pod "id2" (Some "bob"))
     [sample_pod "id1" (Some "alice"); sample_pod "id2" (Some "bob");
      sample_pod "id3" (Some "alice")]
  /\ truthy (owner (sample_pod "id2" (Some "bob"))) = true
  /\ In ("bob", [sample_pod "id2" (Some "bob")])
        (pods_by_owner [sample_pod "id1" (Some "alice"); sample_pod "id2" (Some "bob");
                        sample_pod "id3" (Some "alice")]).
Proof.
  assert (H1 : In (sample_pod "id2" (Some "bob"))
                  [sample_pod "id1" (Some "alice"); sample_pod "id2" (Some "bob");
                   sample_pod "id3" (Some "alice")]) by (right; left; reflexivity).
  assert (H2 : truthy (owner (sample_pod "id2" (Some "bob"))) = true) by reflexivity.
  split; [exact H1 | split; [exact H2 |]].
  exact (proj2 (proj2 (pods_by_owner_partition
                         [sample_pod "id1" (Some "alice"); sample_pod "id2" (Some "bob");
                          sample_pod "id3" (Some "alice")])) _ H1 H2).
Defined.

(** ** The records of [struct_log] *)

Lemma dict_get_set (d : dict) (k k' : string) (v : Value) :
  dict_get (dict_set d k v) k' = if (k =? k')%string then Some v else dict_get d k'.
Proof.
  induction d as [| [k0 v0] d IH]; simpl; [reflexivity |].
  destruct (k0 =? k)%string eqn:E; simpl.
  - apply String.eqb_eq in E. subst k0. destruct (k =? k')%string; reflexivity.
  - destruct (k0 =? k')%string eqn:E'; [| exact IH].
    apply String.eqb_eq in E'. subst k0. now rewrite String.eqb_sym, E.
Qed.

Lemma dict_get_None (d : dict) (k : string) :
  dict_get d k = None <-> ~ In k (map fst d).
Proof.
  induction d as [| [k0 v0] d IH]; simpl; [tauto |].
  destruct (k0 =? k)%string eqn:E.
  - apply String.eqb_eq in E. split; [discriminate | tauto].
  - apply String.eqb_neq in E. rewrite IH. tauto.
Qed.

(** [d.update(extra)] leaves the keys that [extra] does not have. *)
Lemma dict_get_update_other (extra d : dict) (k : string) :
  dict_get extra k = None -> dict_get (dict_update d extra) k = dict_get d k.
Proof.
  unfold dict_update. revert d. induction extra as [| [k0 v0] extra IH]; intros d H; simpl.
  - reflexivity.
  - simpl in H. destruct (k0 =? k)%string eqn:E; [discriminate |].
    rewrite (IH _ H). simpl. rewrite dict_get_set. now rewrite E.
Qed.

(** [d.update(extra)] gives the keys of [extra] the values of [extra]. *)
Lemma dict_get_update (extra d : dict) (k : string) (v : Value) :
  NoDup (map fst extra) -> In (k, v) extra ->
  dict_get (dict_update d extra) k = Some v.
Proof.
  revert d. induction extra as [| [k0 v0] extra IH]; intros d Hnd Hin; [destruct Hin |].
  inversion Hnd as [| ? ? Hk0 Hnd']; subst.
  change (dict_update d ((k0, v0) :: extra)) with (dict_update (dict_set d k0 v0) extra).
  destruct Hin as [H | H].
  - injection H as -> ->. rewrite dict_get_update_other by (now apply dict_get_None).
    rewrite dict_get_set. now rewrite String.eqb_refl.
  - now apply IH.
Qed.

(** [d[k] = v] puts a new key last and leaves the other keys where they
    are: the first refused key is the one it was, or the new key. *)
Lemma find_dict_set (P : string -> bool) (d : dict) (k : string) (v : Value) :
  find P (map fst (dict_set d k v))
  = match find P (map fst d) with
    | Some x => Some x
    | None => if P k then Some k else None
    end.
Proof.
  induction d as [| [k0 v0] d IH]; cbn [dict_set map fst find]; [reflexivity |].
  destruct (k0 =? k)%string eqn:E; cbn [map fst find].
  - apply String.eqb_eq in E. subst k0.
    destruct (P k); [reflexivity |]. destruct (find P (map fst d)); reflexivity.
  - destruct (P k0); [reflexivity | exact IH].
Qed.

Lemma find_dict_update (P : string -> bool) (extra d : dict) :
  find P (map fst (dict_update d extra))
  = match find P (map fst d) with
    | Some x => Some x
    | None => find P (map fst extra)
    end.
Proof.
  unfold dict_update. revert d.
  induction extra as [| [k v] extra IH]; intros d; cbn [fold_left map fst snd find].
  - destruct (find P (map fst d)); reflexivity.
  - rewrite IH, find_dict_set.
    destruct (find P (map fst d)); [reflexivity |]. destruct (P k); reflexivity.
Qed.

(** The keys of the record of a pod that [logging] refuses are those of
    [extra]. *)
Lemma find_log_extra (pod : Pod) (extra : dict) :
  find is_LogRecord_attribute
       (map fst match extra with
                | [] => pod_fields pod
                | _ => dict_update (pod_fields pod) extra
                end)
  = find is_LogRecord_attribute (map fst extra).
Proof.
  destruct extra as [| kv extra]; [reflexivity |].
  now rewrite find_dict_update.
Qed.

(** X3: [struct_log] with extra fields that [logging] accepts writes one
    record for each pod, in the order of the pods, each under the given
    message; it makes no request, returns, and leaves the notifier and the
    clock as they were; in the record of a pod, a key of [extra] has the
    value [extra] gives it, and any other key has the value of the fields
    of the pod ([pod_name], [pod_id] and the streaming target). When a key
    of [extra] names an attribute of a [LogRecord], and there is a pod,
    [struct_log] raises [KeyError] for the first such key before it has
    written anything. The key [taskName], on which versions of Python
    differ, is left out. *)
Theorem struct_log_records
  (message : string) (pods : list Pod) (extra : dict) (self : Notifier) (w : World) :
  names_taskName extra = false ->
  match find is_LogRecord_attribute (map fst extra), pods with
  | Some key, _ :: _ =>
      struct_log message pods extra self w = (Raise (KeyError_overwrite key), self, w)
  | Some _, [] => struct_log message pods extra self w = (Return tt, self, w)
  | None, _ =>
      exists records : list Event,
        struct_log message pods extra self w = (Return tt, self, logged records w)
        /\ List.length records = List.length pods
        /\ filter is_post records = []
        /\ forall (i : nat) (pod : Pod),
             nth_error pods i = Some pod ->
             exists d : dict,
               nth_error records i = Some (struct_logger_debug message d)
               /\ (forall k, dict_get extra k = None ->
                     dict_get d k = dict_get (pod_fields pod) k)
               /\ (NoDup (map fst extra) ->
                   forall k v, In (k, v) extra -> dict_get d k = Some v)
  end.
Proof.
  intros _.
  destruct (find is_LogRecord_attribute (map fst extra)) as [key |] eqn:Hfind.
  - destruct pods as [| pod0 rest]; [reflexivity |].
    unfold struct_log. cbn [for_each]. unfold bind. cbv zeta.
    unfold struct_logger__debug.
    change [("pod_name", VStr (pod_path pod0)); ("pod_id", VStr (uid pod0));
            ("_log_streaming_target_mapping", VStr "kubernetes-ec2-autoscaler")]
      with (pod_fields pod0).
    now rewrite find_log_extra, Hfind.
  - set (fields := fun pod : Pod =>
                     match extra with
                     | [] => pod_fields pod
                     | _ => dict_update (pod_fields pod) extra
                     end).
    exists (map (fun pod => struct_logger_debug message (fields pod)) pods).
    split; [| split; [| split]].
    + apply struct_log_eq. intros pod.
      change [("pod_name", VStr (pod_path pod)); ("pod_id", VStr (uid pod));
              ("_log_streaming_target_mapping", VStr "kubernetes-ec2-autoscaler")]
        with (pod_fields pod).
      now rewrite find_log_extra.
    + apply length_map.
    + induction pods as [| p ps IH]; simpl; auto.
    + intros i pod Hi. exists (fields pod). split; [| split].
      * now rewrite nth_error_map, Hi.
      * intros k Hk. unfold fields. destruct extra as [| kv extra']; [reflexivity |].
        now apply dict_get_update_other.
      * intros Hnd k v Hin. unfold fields.
        destruct extra as [| kv extra']; [destruct Hin |].
        now apply dict_get_update.
Qed.

Lemma struct_log_records_witness :
  names_taskName [("node", VStr "ip-10-0-0-1")] = false
  /\ names_taskName [("node", VStr "ip-10-0-0-1"); ("name", VStr "n")] = false
  /\ nth_error [sample_pod "id1" None; sample_pod "id2" None] 1
     = Some (sample_pod "id2" None)
  /\ dict_get [("node", VStr "ip-10-0-0-1")] "pod_id" = None
  /\ NoDup (map fst [("node", VStr "ip-10-0-0-1")])
  /\ In ("node", VStr "ip-10-0-0-1") [("node", VStr "ip-10-0-0-1")]
  /\ (exists records,
        struct_log "drain" [sample_pod "id1" None; sample_pod "id2" None]
                   [("node", VStr "ip-10-0-0-1")] sample_notifier sample_world
        = (Return tt, sample_notifier, logged records sample_world)
        /\ exists d,
             nth_error records 1 = Some (struct_logger_debug "drain" d)
             /\ dict_get d "pod_id" = Some (VStr "id2")
             /\ dict_get d "node" = Some (VStr "ip-10-0-0-1"))
  /\ struct_log "drain" [sample_pod "id1" None; sample_pod "id2" None]
                [("node", VStr "ip-10-0-0-1"); ("name", VStr "n")]
                sample_notifier sample_world
     = (Raise (KeyError_overwrite "name"), sample_notifier, sample_world).
Proof.
  assert (H0 : names_taskName [("node", VStr "ip-10-0-0-1")] = false) by reflexivity.
  assert (H0' : names_taskName [("node", VStr "ip-10-0-0-1"); ("name", VStr "n")] = false)
    by reflexivity.
  assert (H1 : nth_error [sample_pod "id1" None; sample_pod "id2" None] 1
               = Some (sample_pod "id2" None)) by reflexivity.
  assert (H2 : dict_get [("node", VStr "ip-10-0-0-1")] "pod_id" = None) by reflexivity.
  assert (H3 : NoDup (map fst [("node", VStr "ip-10-0-0-1")]))
    by (repeat constructor; simpl; tauto).
  assert (H4 : In ("node", VStr "ip-10-0-0-1") [("node", VStr "ip-10-0-0-1")])
    by (left; reflexivity).
  split; [exact H0 | split; [exact H0' | split; [exact H1 | split; [exact H2 |
    split; [exact H3 | split; [exact H4 | split]]]]]].
  - pose proof (struct_log_records "drain" [sample_pod "id1" None; sample_pod "id2" None]
                  [("node", VStr "ip-10-0-0-1")] sample_notifier sample_world H0) as H.
    assert (E : find is_LogRecord_attribute (map fst [("node", VStr "ip-10-0-0-1")])
                = None) by reflexivity.
    rewrite E in H. destruct H as (records & Heq & _ & _ & Hrec).
    exists records. split; [exact Heq |].
    destruct (Hrec 1%nat _ H1) as (d & Hd & Hother & Hextra).
    exists d. split; [exact Hd | split].
    + rewrite (Hother "pod_id" H2). reflexivity.
    + exact (Hextra H3 "node" _ H4).
  - pose proof (struct_log_records "drain" [sample_pod "id1" None; sample_pod "id2" None]
                  [("node", VStr "ip-10-0-0-1"); ("name", VStr "n")]
                  sample_notifier sample_world H0') as H.
    assert (E : find is_LogRecord_attribute
                     (map fst [("node", VStr "ip-10-0-0-1"); ("name", VStr "n")])
                = Some "name") by reflexivity.
    rewrite E in H. exact H.
Defined.

(** ** What a notification writes and posts *)

Lemma message_owner_events (owner text : string) (pods : list Pod)
  (self : Notifier) (w : World) :
  exists r self' w' evs,
    message_owner owner text pods self w = (r, self', w')
    /\ trace w' = (trace w ++ evs)%list
    /\ bot_token self' = bot_token self
    /\ (filter is_post evs = []
        \/ filter is_post evs
           = [requests_post (owner_request (bot_token self) owner text pods)]).
Proof.
  rewrite message_owner_eq. cbv zeta.
  destruct (TTLCache.getitem _ _ _) as [[[] |] c1].
  - exists (Return tt), (set_cache self c1), w, []. rewrite app_nil_r. auto.
  - outcomes.
    + do 4 eexists. split; [reflexivity |]. unfold logged, requested. simpl.
      rewrite <- app_assoc. split; [reflexivity | split; [reflexivity |]]. right. reflexivity.
    + do 4 eexists. split; [reflexivity |]. unfold logged, requested. simpl.
      rewrite <- app_assoc. split; [reflexivity | split; [reflexivity |]]. right. reflexivity.
    + do 4 eexists. split; [reflexivity |]. unfold requested. simpl.
      split; [reflexivity | split; [reflexivity |]]. right. reflexivity.
Qed.

Lemma post_only (evs : list Event) (ev : Event) :
  In ev evs -> is_post ev = true -> In ev (filter is_post evs).
Proof. intros Hin Hp. apply filter_In. auto. Qed.

(** The loop of [message_owners]: requests for owners of the list only,
    and no more of them than the list has owners. *)
Lemma for_each_message_owner_events (text : string) (d : list (string * list Pod))
  (self : Notifier) (w : World) :
  exists r self' w' evs,
    for_each d (fun '(owner, pods) => message_owner owner text pods) self w = (r, self', w')
    /\ trace w' = (trace w ++ evs)%list
    /\ (forall ev, In ev evs -> is_post ev = true ->
          exists o batch, In (o, batch) d
                          /\ ev = requests_post (owner_request (bot_token self) o text batch))
    /\ (List.length (filter is_post evs) <= List.length d)%nat.
Proof.
  revert self w. induction d as [| [o b] d IH]; intros self w.
  - exists (Return tt), self, w, []. simpl. rewrite app_nil_r.
    split; [reflexivity | split; [reflexivity | split; [intros ev [] | lia]]].
  - cbn [for_each]. unfold bind.
    destruct (message_owner_events o text b self w)
      as (r1 & self1 & w1 & evs1 & -> & Ht1 & Htok1 & Hp1).
    assert (Hev1 : forall ev, In ev evs1 -> is_post ev = true ->
                     ev = requests_post (owner_request (bot_token self) o text b)).
    { intros ev Hin Hp. apply (post_only _ _ Hin) in Hp.
      destruct Hp1 as [E | E]; rewrite E in Hp; [destruct Hp |].
      destruct Hp as [<- | []]. reflexivity. }
    assert (Hlen1 : (List.length (filter is_post evs1) <= 1)%nat).
    { destruct Hp1 as [E | E]; rewrite E; simpl; lia. }
    destruct r1 as [[] | e].
    + destruct (IH self1 w1) as (r2 & self2 & w2 & evs2 & -> & Ht2 & Hev2 & Hlen2).
      exists r2, self2, w2, (evs1 ++ evs2)%list.
      split; [reflexivity | split; [| split]].
      * now rewrite Ht2, Ht1, app_assoc.
      * intros ev Hin Hp. apply in_app_or in Hin. destruct Hin as [Hin | Hin].
        -- exists o, b. split; [now left | now apply Hev1].
        -- destruct (Hev2 ev Hin Hp) as (o' & b' & Hd & ->).
           exists o', b'. split; [now right | now rewrite Htok1].
      * rewrite filter_app, length_app. simpl. lia.
    + exists (Raise e), self1, w1, evs1.
      split; [reflexivity | split; [exact Ht1 | split]].
      * intros ev Hin Hp. exists o, b. split; [now left | now apply Hev1].
      * simpl. lia.
Qed.

Lemma message_owners_events (text : string) (pods : list Pod)
  (self : Notifier) (w : World) :
  exists r self' w' evs,
    message_owners text pods self w = (r, self', w')
    /\ trace w' = (trace w ++ evs)%list
    /\ (forall ev, In ev evs -> is_post ev = true ->
          is_owner_request (bot_token self) text pods ev)
    /\ (List.length (filter is_post evs) <= List.length (pods_by_owner pods))%nat.
Proof.
  rewrite message_owners_eq. destruct (truthy (bot_token self)).
  - destruct (for_each_message_owner_events text (pods_by_owner pods) self w)
      as (r & self' & w' & evs & Heq & Ht & Hev & Hlen).
    exists r, self', w', evs. repeat split; assumption.
  - do 4 eexists. split; [reflexivity |]. unfold logged. simpl.
    split; [reflexivity | split; [| simpl; lia]].
    intros ev [<- | []]. discriminate.
Qed.

Lemma struct_records_length (n : Notification) :
  List.length (struct_records n) = List.length (affected n)
  /\ filter is_post (struct_records n) = [].
Proof.
  unfold struct_records.
  destruct n; cbv beta iota zeta; (split; [apply length_map |]);
    cbn [affected]; match goal with |- filter _ (map _ ?l) = _ =>
                      induction l as [| p ps IH]; simpl; auto end.
Qed.

Lemma direct_le_post (evs : list Event) :
  (List.length (filter is_direct evs) <= List.length (filter is_post evs))%nat.
Proof.
  induction evs as [| ev evs IH]; simpl; [lia |].
  destruct ev as [m d | m | m | [u j | u d]]; simpl; lia.
Qed.

Lemma no_post_no_direct (evs : list Event) :
  filter is_post evs = [] -> filter is_direct evs = [].
Proof.
  intros H. pose proof (direct_le_post evs) as Hle. rewrite H in Hle.
  destruct (filter is_direct evs); [reflexivity | simpl in Hle; lia].
Qed.

Lemma notify_events (n : Notification) (self : Notifier) (w : World) :
  exists rest : list Event,
    trace (snd (exec (notify n) (self, w))) = (trace w ++ struct_records n ++ rest)%list
    /\ (forall ev, In ev rest -> is_post ev = true -> notify_request n self ev)
    /\ (List.length (filter is_post rest) <= 1 + owners_count n)%nat
    /\ (truthy (hook self) = false -> filter is_post rest = [])
    /\ (List.length (filter is_direct rest) <= owners_count n)%nat.
Proof.
  unfold exec. simpl fst; simpl snd. rewrite notify_eq. cbv zeta.
  destruct (truthy (hook self)) eqn:Hh.
  - set (w1 := logged (struct_records n) w).
    set (req := hook_request (value_of (hook self)) (broadcast_text n)).
    assert (Hcont : forall (log : list Event) ,
               filter is_post log = [] ->
               exists rest,
                 trace (snd (let '(r, self', w') :=
                               match owners_text n with
                               | Some text =>
                                   message_owners text (affected n) self
                                     (logged log (requested req w1))
                               | None => (Return tt, self, logged log (requested req w1))
                               end in (self', w')))
                 = (trace w ++ struct_records n ++ rest)%list
                 /\ (forall ev, In ev rest -> is_post ev = true -> notify_request n self ev)
                 /\ (List.length (filter is_post rest) <= 1 + owners_count n)%nat
                 /\ (List.length (filter is_direct rest) <= owners_count n)%nat).
    { intros log Hlog. unfold owners_count.
      pose proof (no_post_no_direct log Hlog) as Hlogd.
      assert (Hlogp : forall ev, In ev log -> is_post ev = true -> False).
      { intros ev Hin Hp. apply (post_only _ _ Hin) in Hp. now rewrite Hlog in Hp. }
      destruct (owners_text n) as [text |] eqn:Ht.
      - destruct (message_owners_events text (affected n) self
                    (logged log (requested req w1)))
          as (r & self' & w' & evs & -> & Htr & Hev & Hlen).
        exists (requests_post req :: log ++ evs)%list. simpl snd.
        split; [| split; [| split]].
        + rewrite Htr. unfold logged, requested, w1. simpl.
          now rewrite <- !app_assoc.
        + intros ev [<- | Hin] Hp; [now left |].
          apply in_app_or in Hin. destruct Hin as [Hin | Hin]; [now destruct (Hlogp ev) |].
          right. exists text. split; [exact Ht | now apply Hev].
        + cbn [filter is_post List.length]. rewrite filter_app, Hlog. simpl. lia.
        + unfold req, hook_request. cbn [filter is_direct].
          rewrite filter_app, Hlogd. simpl. pose proof (direct_le_post evs). lia.
      - exists (requests_post req :: log)%list. simpl snd. split; [| split; [| split]].
        + unfold logged, requested, w1. simpl. now rewrite <- !app_assoc.
        + intros ev [<- | Hin] Hp; [now left | now destruct (Hlogp ev)].
        + cbn [filter is_post List.length]. rewrite Hlog. simpl. lia.
        + unfold req, hook_request. cbn [filter is_direct]. rewrite Hlogd. simpl. lia. }
    rewrite post_hook_eq. fold req.
    destruct (reply req w1) as [t | e]; [| destruct (isinstance_ConnectionError e)].
    + destruct (Hcont [logger_debug ("SLACK: " ++ t)] eq_refl)
        as (rest & H1 & H2 & H3 & H4).
      exists rest. repeat split; try assumption. discriminate.
    + destruct (Hcont [logger_critical ("Failed to SLACK: " ++ exc_str e)] eq_refl)
        as (rest & H1 & H2 & H3 & H4).
      exists rest. repeat split; try assumption. discriminate.
    + exists [requests_post req]. simpl snd. split; [| split; [| split; [| split]]].
      * unfold requested, w1, logged. simpl. now rewrite <- app_assoc.
      * intros ev [<- | []] _. now left.
      * simpl. lia.
      * discriminate.
      * unfold req, hook_request. simpl. lia.
  - exists [logger_debug "SLACK_HOOK not configured."]. simpl snd.
    split; [| split; [| split; [| split]]].
    + unfold logged. simpl. now rewrite <- app_assoc.
    + intros ev [<- | []]. discriminate.
    + simpl. lia.
    + reflexivity.
    + simpl. lia.
Qed.

(** X4: each of the four notifications writes its structured records
    before anything else, one for each affected pod, whatever the web hook
    and the bot token are and whatever the network answers, also when the
    notification ends by raising. *)
Theorem notify_records_first (n : Notification) (self : Notifier) (w : World) :
  exists rest : list Event,
    trace (snd (exec (notify n) (self, w))) = (trace w ++ struct_records n ++ rest)%list
    /\ List.length (struct_records n) = List.length (affected n)
    /\ filter is_post (struct_records n) = [].
Proof.
  destruct (notify_events n self w) as (rest & Htr & _).
  destruct (struct_records_length n) as [Hlen Hp].
  exists rest. auto.
Qed.

(** *** The requests to one owner *)

Lemma sent_to_owner_request (token : option string) (owner text : string)
  (pods : list Pod) (o : string) :
  sent_to o (requests_post (owner_request token owner text pods)) = (owner =? o)%string.
Proof. reflexivity. Qed.

Lemma sent_to_direct (o : string) (ev : Event) : sent_to o ev = true -> is_direct ev = true.
Proof. destruct ev as [m d | m | m | [u j | u d]]; simpl; congruence. Qed.

Lemma no_direct_no_sent_to (o : string) (evs : list Event) :
  filter is_direct evs = [] -> filter (sent_to o) evs = [].
Proof.
  induction evs as [| ev evs IH]; cbn [filter]; [reflexivity |].
  destruct (sent_to o ev) eqn:E.
  - apply sent_to_direct in E. rewrite E. discriminate.
  - destruct (is_direct ev); [discriminate | exact IH].
Qed.

(** A call of [message_owner] makes at most one request to its owner, and
    none to another. *)
Lemma message_owner_sent_to (owner text : string) (pods : list Pod) (s : State)
  (o : string) :
  (List.length (filter (sent_to o)
                       (trace (snd (exec (message_owner owner text pods) s))))
   <= List.length (filter (sent_to o) (trace (snd s)))
      + (if (owner =? o)%string then 1 else 0))%nat.
Proof.
  destruct s as [self w]. unfold exec. cbn [fst snd].
  rewrite message_owner_eq. cbv zeta.
  destruct (TTLCache.getitem _ _ _) as [[[] |] c1]; cbn [snd]; [lia |].
  pose proof (sent_to_owner_request (bot_token self) owner text pods o) as Hs.
  outcomes; cbn [snd]; unfold logged, requested; cbn [trace];
    rewrite ?filter_app, ?length_app; cbn [filter]; rewrite Hs; cbn [sent_to];
    destruct (owner =? o)%string; cbn [List.length]; lia.
Qed.

Lemma for_each_message_owner_sent_to (text : string) (d : list (string * list Pod))
  (s : State) (o : string) :
  (List.length
     (filter (sent_to o)
             (trace (snd (exec (for_each d (fun '(owner, pods) =>
                                              message_owner owner text pods)) s))))
   <= List.length (filter (sent_to o) (trace (snd s)))
      + count_occ string_dec (map fst d) o)%nat.
Proof.
  revert s. induction d as [| [o' b] d IH]; intros s.
  - destruct s as [self w]. cbn. lia.
  - pose proof (message_owner_sent_to o' text b s o) as H1.
    unfold exec in *. cbn [for_each]. unfold bind.
    destruct (message_owner o' text b (fst s) (snd s)) as [[[[] | e] self1] w1];
      cbn [snd] in H1; cbn [map fst count_occ].
    + specialize (IH (self1, w1)). cbn [fst snd] in IH.
      destruct (string_dec o' o) as [-> | Hne].
      * rewrite String.eqb_refl in H1. lia.
      * apply String.eqb_neq in Hne. rewrite Hne in H1. lia.
    + cbn [snd]. destruct (string_dec o' o) as [-> | Hne].
      * rewrite String.eqb_refl in H1. lia.
      * apply String.eqb_neq in Hne. rewrite Hne in H1. lia.
Qed.

(** [message_owners] makes at most one request to an owner: an owner has
    one batch. *)
Lemma message_owners_sent_to (text : string) (pods : list Pod) (s : State) (o : string) :
  (List.length (filter (sent_to o) (trace (snd (exec (message_owners text pods) s))))
   <= List.length (filter (sent_to o) (trace (snd s))) + 1)%nat.
Proof.
  destruct s as [self w]. unfold exec. cbn [fst snd].
  rewrite message_owners_eq. destruct (truthy (bot_token self)).
  - pose proof (for_each_message_owner_sent_to text (pods_by_owner pods) (self, w) o) as H.
    unfold exec in H. cbn [fst snd] in H.
    destruct (pods_by_owner_invariant pods) as (Hnd & _).
    pose proof (proj1 (NoDup_count_occ string_dec _) Hnd o) as Hc. lia.
  - cbn [snd]. unfold logged. cbn [trace].
    rewrite filter_app, length_app. cbn. lia.
Qed.

Lemma notify_sent_to (n : Notification) (s : State) (o : string) :
  (List.length (filter (sent_to o) (trace (snd (exec (notify n) s))))
   <= List.length (filter (sent_to o) (trace (snd s))) + 1)%nat.
Proof.
  destruct s as [self w]. unfold exec. cbn [fst snd].
  rewrite notify_eq. cbv zeta.
  destruct (struct_records_length n) as [_ Hrec].
  pose proof (no_direct_no_sent_to o _ (no_post_no_direct _ Hrec)) as Hrec'.
  set (w1 := logged (struct_records n) w).
  assert (H1 : filter (sent_to o) (trace w1) = filter (sent_to o) (trace w)).
  { unfold w1, logged. cbn [trace]. now rewrite filter_app, Hrec', app_nil_r. }
  destruct (truthy (hook self)).
  - rewrite post_hook_eq.
    set (req := hook_request (value_of (hook self)) (broadcast_text n)).
    assert (H2 : forall log : list Event,
               filter (sent_to o) log = [] ->
               filter (sent_to o) (trace (logged log (requested req w1)))
               = filter (sent_to o) (trace w)).
    { intros log Hlog. unfold logged, requested. cbn [trace].
      rewrite !filter_app, H1, Hlog. cbn. now rewrite !app_nil_r. }
    destruct (reply req w1) as [t | e]; [| destruct (isinstance_ConnectionError e)].
    + destruct (owners_text n) as [text |].
      * pose proof (message_owners_sent_to text (affected n)
                      (self, logged [logger_debug ("SLACK: " ++ t)] (requested req w1)) o)
          as H.
        unfold exec in H. cbn [fst snd] in H.
        rewrite (H2 [logger_debug ("SLACK: " ++ t)] eq_refl) in H. exact H.
      * cbn [snd]. rewrite (H2 [logger_debug ("SLACK: " ++ t)] eq_refl). lia.
    + destruct (owners_text n) as [text |].
      * pose proof (message_owners_sent_to text (affected n)
                      (self, logged [logger_critical ("Failed to SLACK: " ++ exc_str e)]
                                    (requested req w1)) o) as H.
        unfold exec in H. cbn [fst snd] in H.
        rewrite (H2 [logger_critical ("Failed to SLACK: " ++ exc_str e)] eq_refl) in H.
        exact H.
      * cbn [snd].
        rewrite (H2 [logger_critical ("Failed to SLACK: " ++ exc_str e)] eq_refl). lia.
    + cbn [snd]. rewrite <- (logged_nil (requested req w1)), (H2 [] eq_refl). lia.
  - cbn [snd]. unfold logged at 1. cbn [trace].
    rewrite filter_app, H1, length_app. cbn. lia.
Qed.

(** X5: a notification makes no other request than the request to the
    web hook, with the text of the broadcast, and the requests of
    [message_owners] to the chat API, each to an owner of an affected pod
    with the batch of that owner. It makes at most one request more than
    the pods have owners, at most as many requests to the chat API as the
    pods have owners, and at most one to the channel of any one owner; at
    most one request for a drained node; and none when no web hook is
    configured. *)
Theorem notify_requests (n : Notification) (self : Notifier) (w : World) :
  exists evs : list Event,
    trace (snd (exec (notify n) (self, w))) = (trace w ++ evs)%list
    /\ (forall ev, In ev evs -> is_post ev = true -> notify_request n self ev)
    /\ (List.length (filter is_post evs) <= 1 + owners_count n)%nat
    /\ (List.length (filter is_direct evs) <= owners_count n)%nat
    /\ (forall o, (List.length (filter (sent_to o) evs) <= 1)%nat)
    /\ (forall node pods, n = DrainedNode node pods ->
          (List.length (filter is_post evs) <= 1)%nat)
    /\ (truthy (hook self) = false -> filter is_post evs = []).
Proof.
  destruct (notify_events n self w) as (rest & Htr & Hev & Hlen & Hnone & Hdir).
  destruct (struct_records_length n) as [_ Hp].
  exists (struct_records n ++ rest)%list.
  assert (Hf : filter is_post (struct_records n ++ rest) = filter is_post rest)
    by now rewrite filter_app, Hp.
  assert (Hd : filter is_direct (struct_records n ++ rest) = filter is_direct rest)
    by now rewrite filter_app, (no_post_no_direct _ Hp).
  rewrite Hf, Hd.
  split; [exact Htr | split; [| split; [exact Hlen | split; [exact Hdir | split;
    [| split]]]]].
  - intros ev Hin Hpost. apply in_app_or in Hin. destruct Hin as [Hin | Hin].
    + apply (post_only _ _ Hin) in Hpost. rewrite Hp in Hpost. destruct Hpost.
    + now apply Hev.
  - intros o. pose proof (notify_sent_to n (self, w) o) as Hs.
    rewrite Htr in Hs. cbn [snd] in Hs. rewrite filter_app, length_app in Hs. lia.
  - intros node pods ->. exact Hlen.
  - exact Hnone.
Qed.

Lemma notify_requests_witness :
  exists evs,
    trace (snd (exec (notify (Scale sample_asg 3 sample_pods3))
                     (sample_notifier, sample_world)))
    = (trace sample_world ++ evs)%list
    /\ (List.length (filter is_post evs) <= 3)%nat
    /\ (List.length (filter is_direct evs) <= 2)%nat
    /\ (List.length (filter (sent_to "alice") evs) <= 1)%nat
    /\ (List.length (filter (sent_to "bob") evs) <= 1)%nat.
Proof.
  destruct (notify_requests (Scale sample_asg 3 sample_pods3)
              sample_notifier sample_world) as (evs & Htr & _ & Hp & Hd & Ho & _).
  exists evs.
  split; [exact Htr | split; [exact Hp | split; [exact Hd | split;
    [exact (Ho "alice") | exact (Ho "bob")]]]].
Defined.

(** X6: the notification of an invalid pod capacity writes to the chat
    API at most once, and only to the owner of the pod, with the text it
    sends to the web hook and the pod alone as the relevant pod; a pod
    without an owner gets no such request. *)
Theorem notify_invalid_pod_capacity_owner
  (pod : Pod) (recommended_capacity : string) (self : Notifier) (w : World) :
  let n := InvalidPodCapacity pod recommended_capacity in
  exists evs : list Event,
    trace (snd (exec (notify_invalid_pod_capacity pod recommended_capacity) (self, w)))
    = (trace w ++ evs)%list
    /\ (List.length (filter is_direct evs) <= 1)%nat
    /\ (forall ev, In ev evs -> is_direct ev = true ->
          truthy (owner pod) = true
          /\ ev = requests_post
                    (owner_request (bot_token self) (value_of (owner pod))
                                   (broadcast_text n) [pod])).
Proof.
  cbv zeta.
  destruct (notify_events (InvalidPodCapacity pod recommended_capacity) self w)
    as (rest & Htr & Hev' & _ & _ & Hdir').
  destruct (struct_records_length (InvalidPodCapacity pod recommended_capacity))
    as [_ Hrec].
  set (evs := (struct_records (InvalidPodCapacity pod recommended_capacity) ++ rest)%list)
    in *.
  assert (Hdir : (List.length (filter is_direct evs)
                  <= owners_count (InvalidPodCapacity pod recommended_capacity))%nat).
  { unfold evs. now rewrite filter_app, (no_post_no_direct _ Hrec). }
  assert (Hev : forall ev, In ev evs -> is_post ev = true ->
                  notify_request (InvalidPodCapacity pod recommended_capacity) self ev).
  { intros ev Hin Hpost. apply in_app_or in Hin. destruct Hin as [Hin | Hin].
    - apply (post_only _ _ Hin) in Hpost. rewrite Hrec in Hpost. destruct Hpost.
    - now apply Hev'. }
  clearbody evs. clear Hev' Hdir'.
  exists evs. split; [exact Htr |].
  assert (Hpods : pods_by_owner [pod]
                  = if truthy (owner pod) then [(value_of (owner pod), [pod])] else []).
  { unfold pods_by_owner. simpl. destruct (truthy (owner pod)); reflexivity. }
  split.
  - unfold owners_count in Hdir. simpl in Hdir. rewrite Hpods in Hdir.
    destruct (truthy (owner pod)); simpl in Hdir; lia.
  - intros ev Hin Hd.
    assert (Hp : is_post ev = true).
    { destruct ev as [m d | m | m | r]; try discriminate. reflexivity. }
    destruct (Hev ev Hin Hp) as [-> | (text & Ht & o & b & Hob & ->)].
    + discriminate Hd.
    + simpl in Ht. injection Ht as <-. simpl affected in Hob. rewrite Hpods in Hob.
      destruct (truthy (owner pod)); [| destruct Hob].
      destruct Hob as [H | []]. injection H as <- <-. auto.
Qed.

Lemma notify_invalid_pod_capacity_owner_witness :
  exists evs,
    trace (snd (exec (notify_invalid_pod_capacity (sample_pod "id1" (Some "alice")) "8")
                     (sample_notifier, sample_world)))
    = (trace sample_world ++ evs)%list
    /\ (List.length (filter is_direct evs) <= 1)%nat.
Proof.
  destruct (notify_invalid_pod_capacity_owner (sample_pod "id1" (Some "alice")) "8"
              sample_notifier sample_world) as (evs & Htr & Hlen & _).
  exists evs. split; [exact Htr | exact Hlen].
Defined.

(** ** What the cache keeps true *)

Lemma remove_shorter (k : string) (ls : list TTLCache.link) (l : TTLCache.link) :
  In l ls -> TTLCache.has_key k l = true ->
  (List.length (TTLCache.remove k ls) < List.length ls)%nat.
Proof.
  unfold TTLCache.remove. induction ls as [| x ls IH]; intros Hin Hk; [destruct Hin |].
  simpl. destruct Hin as [-> | Hin].
  - rewrite Hk. simpl. pose proof (filter_length_le (fun l => negb (TTLCache.has_key k l)) ls).
    lia.
  - specialize (IH Hin Hk). destruct (negb (TTLCache.has_key k x)); simpl; lia.
Qed.

Lemma make_room_suffix (maxsize : nat) (ls : list TTLCache.link) :
  exists dropped, ls = (dropped ++ TTLCache.make_room maxsize ls)%list.
Proof.
  induction ls as [| x ls (dropped & IH)]; [exists []; reflexivity |].
  cbn [TTLCache.make_room].
  destruct (maxsize <? List.length (x :: ls) + 1)%nat.
  - exists (x :: dropped). simpl. now rewrite <- IH.
  - exists []. reflexivity.
Qed.

Lemma make_room_length (maxsize : nat) (ls : list TTLCache.link) :
  (1 <= maxsize)%nat ->
  (List.length (TTLCache.make_room maxsize ls) + 1 <= maxsize)%nat.
Proof.
  intros Hm. induction ls as [| x ls IH]; [simpl; lia |].
  cbn [TTLCache.make_room].
  destruct (maxsize <? List.length (x :: ls) + 1)%nat eqn:E; [exact IH |].
  apply Nat.ltb_ge in E. exact E.
Qed.

Lemma cache_ok_later (now now' : Z) (c : TTLCache.t) :
  now <= now' -> cache_ok now c -> cache_ok now' c.
Proof.
  intros Hle (Hlen & Hnd & Hexp). split; [exact Hlen | split; [exact Hnd |]].
  eapply Forall_impl; [| exact Hexp]. simpl. intros l Hl. lia.
Qed.

Lemma cache_ok_getitem (now : Z) (c : TTLCache.t) (k : string) (t : Z) :
  cache_ok now c -> cache_ok now (snd (TTLCache.getitem c k t)).
Proof.
  intros (Hlen & Hnd & Hexp). unfold TTLCache.getitem.
  destruct (TTLCache.getlink k (TTLCache.links c)) as [l |] eqn:E;
    [| split; [exact Hlen | split; [exact Hnd | exact Hexp]]].
  pose proof E as E'. apply find_some in E'. destruct E' as [Hin Hk].
  assert (H : cache_ok now (TTLCache.set_links c (TTLCache.remove k (TTLCache.links c) ++ [l]))).
  { unfold cache_ok. simpl. split; [| split].
    - rewrite length_app. simpl. pose proof (remove_shorter k _ l Hin Hk). lia.
    - rewrite map_app. simpl. apply NoDup_snoc.
      + now apply filter_keys_NoDup.
      + rewrite (has_key_true _ _ Hk). apply remove_no_key.
    - apply Forall_app. split.
      + unfold TTLCache.remove. rewrite Forall_forall in *. intros x Hx.
        apply filter_In in Hx. now apply Hexp.
      + constructor; [| constructor]. rewrite Forall_forall in Hexp. now apply Hexp. }
  destruct (t <? TTLCache.expires l); exact H.
Qed.

Lemma cache_ok_setitem (now : Z) (c : TTLCache.t) (k : string) (t : Z) :
  now <= t -> cache_ok now c -> cache_ok t (snd (TTLCache.setitem c k t)).
Proof.
  intros Hle (Hlen & Hnd & Hexp). unfold TTLCache.setitem.
  assert (Hok1 : cache_ok t (TTLCache.set_links c (TTLCache.expire t (TTLCache.links c)))).
  { unfold cache_ok, TTLCache.expire. simpl. split; [| split].
    - pose proof (filter_length_le (fun l => t <? TTLCache.expires l) (TTLCache.links c)). lia.
    - now apply filter_keys_NoDup.
    - rewrite Forall_forall in *. intros x Hx. apply filter_In in Hx.
      destruct Hx as [Hx _]. specialize (Hexp x Hx). simpl in Hexp. lia. }
  destruct (TTLCache.maxsize c <? 1)%nat eqn:Hm; [exact Hok1 |].
  apply Nat.ltb_ge in Hm. destruct Hok1 as (Hlen1 & Hnd1 & Hexp1). simpl in *.
  set (ls1 := TTLCache.expire t (TTLCache.links c)) in *.
  assert (H2 : exists ls2,
             match TTLCache.getlink k ls1 with
             | Some _ => ls1
             | None => TTLCache.make_room (TTLCache.maxsize c) ls1
             end = ls2
             /\ (List.length (TTLCache.remove k ls2) + 1 <= TTLCache.maxsize c)%nat
             /\ NoDup (map TTLCache.key ls2)
             /\ Forall (fun l => TTLCache.expires l <= t + TTLCache.ttl c) ls2).
  { destruct (TTLCache.getlink k ls1) as [l |] eqn:E.
    - exists ls1. split; [reflexivity | split; [| auto]].
      apply find_some in E. destruct E as [Hin Hk].
      pose proof (remove_shorter k _ l Hin Hk). lia.
    - exists (TTLCache.make_room (TTLCache.maxsize c) ls1). split; [reflexivity |].
      destruct (make_room_suffix (TTLCache.maxsize c) ls1) as (dropped & Hs).
      split; [| split].
      + pose proof (make_room_length (TTLCache.maxsize c) ls1 Hm).
        pose proof (remove_length k (TTLCache.make_room (TTLCache.maxsize c) ls1)). lia.
      + rewrite Hs, map_app in Hnd1. now apply NoDup_app_remove_l in Hnd1.
      + rewrite Hs in Hexp1. now apply Forall_app in Hexp1. }
  destruct H2 as (ls2 & -> & Hlen2 & Hnd2 & Hexp2).
  unfold cache_ok. simpl. split; [| split].
  - rewrite length_app. simpl. exact Hlen2.
  - rewrite map_app. simpl. apply NoDup_snoc; [now apply filter_keys_NoDup |].
    apply remove_no_key.
  - apply Forall_app. split.
    + unfold TTLCache.remove. rewrite Forall_forall in *. intros x Hx.
      apply filter_In in Hx. now apply Hexp2.
    + constructor; [simpl; lia | constructor].
Qed.

Lemma setitem_config (c : TTLCache.t) (k : string) (t : Z) :
  TTLCache.maxsize (snd (TTLCache.setitem c k t)) = TTLCache.maxsize c
  /\ TTLCache.ttl (snd (TTLCache.setitem c k t)) = TTLCache.ttl c.
Proof.
  unfold TTLCache.setitem. destruct (TTLCache.maxsize c <? 1)%nat; simpl; auto.
Qed.

Lemma state_ok_intro (hook0 bot_token0 : option string) (self : Notifier) (w : World) :
  hook self = hook0 -> bot_token self = bot_token0 ->
  TTLCache.maxsize (cache self) = 128%nat -> TTLCache.ttl (cache self) = 1800 ->
  cache_ok (clock w) (cache self) ->
  state_ok hook0 bot_token0 (self, w).
Proof. intros Hh Ht Hm Httl Hc. exact (conj Hh (conj Ht (conj (conj Hm Httl) Hc))). Qed.

Lemma state_ok_world (hook0 bot_token0 : option string) (self : Notifier) (w w' : World) :
  clock w <= clock w' ->
  state_ok hook0 bot_token0 (self, w) -> state_ok hook0 bot_token0 (self, w').
Proof.
  intros Hle (Hh & Ht & [Hm Httl] & Hc). apply state_ok_intro; try assumption.
  now apply (cache_ok_later (clock w)).
Qed.

Lemma message_owner_state_ok (hook0 bot_token0 : option string)
  (owner text : string) (pods : list Pod) (s : State) :
  state_ok hook0 bot_token0 s ->
  state_ok hook0 bot_token0 (exec (message_owner owner text pods) s).
Proof.
  destruct s as [self w]. intros (Hh & Ht & [Hm Httl] & Hc). simpl in Hh, Ht, Hm, Httl, Hc.
  unfold exec. simpl fst; simpl snd. rewrite message_owner_eq. cbv zeta.
  pose proof (cache_ok_getitem _ _ (_cache_key self owner text pods) (clock w) Hc) as Hc1.
  destruct (getitem_config (cache self) (_cache_key self owner text pods) (clock w))
    as [Hm1 Ht1].
  destruct (TTLCache.getitem _ _ _) as [[[] |] c1]; simpl snd in Hc1, Hm1, Ht1.
  - apply state_ok_intro; simpl; try assumption; congruence.
  - set (req := owner_request (bot_token self) owner text pods).
    pose proof (requested_clock req w) as Hclk.
    assert (Hst : state_ok hook0 bot_token0
                    (set_cache self (snd (TTLCache.setitem c1
                                            (_cache_key self owner text pods)
                                            (clock (requested req w)))),
                     requested req w)).
    { destruct (setitem_config c1 (_cache_key self owner text pods)
                  (clock (requested req w))) as [Hm2 Ht2].
      apply state_ok_intro;
        [exact Hh | exact Ht | rewrite set_cache_cache; congruence
        | rewrite set_cache_cache; congruence |].
      rewrite set_cache_cache. apply (cache_ok_setitem (clock w)); assumption. }
    outcomes.
    + apply (state_ok_world _ _ _ (requested req w)); [simpl; lia | exact Hst].
    + apply (state_ok_world _ _ _ (requested req w)); [simpl; lia | exact Hst].
    + apply (state_ok_world _ _ _ w); [exact Hclk |].
      apply state_ok_intro; simpl; try assumption; congruence.
Qed.

(** What every turn of a loop keeps true, the loop keeps true, also when
    a turn raises. *)
Lemma for_each_keeps {A : Type} (I : State -> Prop) (body : A -> M unit) (l : list A) :
  (forall x s, I s -> I (exec (body x) s)) ->
  forall s, I s -> I (exec (for_each l body) s).
Proof.
  intros Hbody. induction l as [| x l IH]; intros s Hs.
  - destruct s. exact Hs.
  - specialize (Hbody x s Hs). unfold exec in *. cbn [for_each]. unfold bind.
    destruct (body x (fst s) (snd s)) as [[[[] | e] self1] w1]; [| exact Hbody].
    apply (IH (self1, w1) Hbody).
Qed.

Lemma message_owners_state_ok (hook0 bot_token0 : option string)
  (text : string) (pods : list Pod) (s : State) :
  state_ok hook0 bot_token0 s ->
  state_ok hook0 bot_token0 (exec (message_owners text pods) s).
Proof.
  intros Hs. destruct s as [self w]. unfold exec. simpl fst; simpl snd.
  rewrite message_owners_eq. destruct (truthy (bot_token self)).
  - assert (Hbody : forall (x : string * list Pod) (s' : State),
               state_ok hook0 bot_token0 s' ->
               state_ok hook0 bot_token0
                 (exec ((fun '(owner, pods) => message_owner owner text pods) x) s')).
    { intros [o b] s' Hs'. now apply message_owner_state_ok. }
    exact (for_each_keeps (state_ok hook0 bot_token0) _ (pods_by_owner pods)
             Hbody (self, w) Hs).
  - apply (state_ok_world _ _ _ w); [simpl; lia | exact Hs].
Qed.

Lemma notify_state_ok (hook0 bot_token0 : option string) (n : Notification) (s : State) :
  state_ok hook0 bot_token0 s -> state_ok hook0 bot_token0 (exec (notify n) s).
Proof.
  intros Hs. destruct s as [self w]. unfold exec. simpl fst; simpl snd.
  rewrite notify_eq. cbv zeta. destruct (truthy (hook self)).
  - rewrite post_hook_eq.
    set (w1 := logged (struct_records n) w).
    set (req := hook_request (value_of (hook self)) (broadcast_text n)).
    pose proof (requested_clock req w1) as Hclk.
    assert (Hgo : forall log,
               state_ok hook0 bot_token0
                 (let '(_, self', w') :=
                    match owners_text n with
                    | Some text =>
                        message_owners text (affected n) self (logged log (requested req w1))
                    | None => (Return tt, self, logged log (requested req w1))
                    end in (self', w'))).
    { intros log.
      assert (Hs2 : state_ok hook0 bot_token0 (self, logged log (requested req w1)))
        by (apply (state_ok_world _ _ _ w); [simpl in *; lia | exact Hs]).
      destruct (owners_text n) as [text |]; [| exact Hs2].
      exact (message_owners_state_ok _ _ text (affected n) _ Hs2). }
    destruct (reply req w1) as [t | e]; [| destruct (isinstance_ConnectionError e)].
    + apply Hgo.
    + apply Hgo.
    + apply (state_ok_world _ _ _ w); [simpl in *; lia | exact Hs].
  - apply (state_ok_world _ _ _ w); [simpl; lia | exact Hs].
Qed.

(** X7: however many notifications a new notifier has sent, whatever
    the network answered and however long it took, its cache holds at
    most 128 keys, no key twice, and no entry that expires more than 1800
    seconds from now; its web hook and its bot token are those it was
    made with. *)
Theorem notifier_cache_bounded
  (hook0 bot_token0 : option string) (w : World) (ns : list (N * Notification)) :
  let s := run_notifications ns (Notifier__init__ hook0 bot_token0, w) in
  (List.length (TTLCache.links (cache (fst s))) <= 128)%nat
  /\ NoDup (map TTLCache.key (TTLCache.links (cache (fst s))))
  /\ Forall (fun l => TTLCache.expires l <= clock (snd s) + 1800)
            (TTLCache.links (cache (fst s)))
  /\ hook (fst s) = hook0
  /\ bot_token (fst s) = bot_token0.
Proof.
  cbv zeta.
  assert (H0 : state_ok hook0 bot_token0 (Notifier__init__ hook0 bot_token0, w)).
  { apply state_ok_intro; try reflexivity.
    split; [simpl; lia | split; constructor]. }
  assert (H : state_ok hook0 bot_token0
                (run_notifications ns (Notifier__init__ hook0 bot_token0, w))).
  { unfold run_notifications.
    generalize dependent (Notifier__init__ hook0 bot_token0, w).
    induction ns as [| [d n] ns IH]; intros s Hs; [exact Hs |].
    simpl. apply IH. apply notify_state_ok. destruct s as [self w0].
    apply (state_ok_world _ _ _ w0); [simpl; lia | exact Hs]. }
  destruct H as (Hh & Ht & [Hm Httl] & Hlen & Hnd & Hexp).
  rewrite Hm in Hlen. rewrite Httl in Hexp. auto.
Qed.

(** ** [message_owners], once and again *)

Lemma batch_key_eq (self : Notifier) (text : string) (o : string) (b : list Pod) :
  _cache_key self o text b = batch_key text (o, b).
Proof. reflexivity. Qed.

Lemma absent_live (keys : list string) (c : TTLCache.t) (k : string) (t : Z) :
  absent keys c -> In k keys -> TTLCache.live c k t = false.
Proof.
  intros Ha Hk. unfold TTLCache.live.
  destruct (TTLCache.getlink k (TTLCache.links c)) as [l |] eqn:E; [| reflexivity].
  apply getlink_key in E. destruct E as [Hkey Hin].
  exfalso. apply (Ha l Hin). now rewrite Hkey.
Qed.

(** The loop of [message_owners] over batches whose keys differ and are
    not in the cache: every batch is sent. *)
Lemma for_each_sends_all (text : string) (d : list (string * list Pod))
  (self : Notifier) (w : World) :
  caught w ->
  NoDup (map (batch_key text) d) ->
  absent (map (batch_key text) d) (cache self) ->
  exists self' w',
    for_each d (fun '(owner, pods) => message_owner owner text pods) self w
    = (Return tt, self', w')
    /\ posts (self', w')
       = (posts (self, w)
            ++ map (fun ob => requests_post
                                (owner_request (bot_token self) (fst ob) text (snd ob))) d)%list.
Proof.
  revert self w. induction d as [| [o b] d IH]; intros self w Hc Hnd Habs.
  - exists self, w. split; [reflexivity |]. simpl. now rewrite app_nil_r.
  - cbn [for_each map] in *. inversion Hnd as [| ? ? Hk Hnd']; subst.
    assert (Hlive : TTLCache.live (cache self) (_cache_key self o text b) (clock w) = false).
    { apply (absent_live _ _ _ _ Habs). left. reflexivity. }
    destruct (message_owner_miss o text b self w Hlive) as (Hp & Htok & _).
    pose proof (message_owner_links o text b self w) as Hlinks.
    destruct (message_owner_returns o text b self w Hc) as (self1 & w1 & Heq & Hn1 & _).
    unfold exec in Hp, Htok, Hlinks. simpl fst in *; simpl snd in *.
    rewrite Heq in Hp, Htok, Hlinks. simpl fst in *.
    unfold bind. rewrite Heq.
    destruct (IH self1 w1 (caught_network _ _ Hn1 Hc) Hnd') as (self2 & w2 & -> & Hp2).
    { intros l Hin Hkey. destruct (Hlinks l Hin) as [Hold | Hnew].
      - apply (Habs l Hold). now right.
      - apply Hk. rewrite batch_key_eq in Hnew. now rewrite <- Hnew. }
    exists self2, w2. split; [reflexivity |].
    rewrite Hp2, Hp, Htok, <- app_assoc. reflexivity.
Qed.

(** X8: when the keys of the batches differ and none of them is in the
    cache (as in a new notifier), [message_owners] with a bot token, on a
    network whose exceptions [message_owner] catches, posts one request
    for each owner, in the order in which the owners first come in the
    list of pods, and returns. *)
Theorem message_owners_sends_each_owner
  (text : string) (pods : list Pod) (self : Notifier) (w : World) :
  truthy (bot_token self) = true ->
  caught w ->
  NoDup (owner_keys text pods) ->
  absent (owner_keys text pods) (cache self) ->
  result (message_owners text pods) (self, w) = Return tt
  /\ posts (exec (message_owners text pods) (self, w))
     = (posts (self, w) ++ owner_requests (bot_token self) text pods)%list.
Proof.
  intros Htok Hc Hnd Habs. unfold result, exec. simpl fst; simpl snd.
  rewrite message_owners_eq, Htok.
  destruct (for_each_sends_all text (pods_by_owner pods) self w Hc Hnd Habs)
    as (self' & w' & -> & Hp).
  split; [reflexivity | exact Hp].
Qed.

Lemma message_owners_sends_each_owner_witness :
  let pods := [sample_pod "id1" (Some "alice"); sample_pod "id2" (Some "bob");
               sample_pod "id3" (Some "alice")] in
  truthy (bot_token sample_notifier) = true
  /\ caught sample_world
  /\ NoDup (owner_keys "m" pods)
  /\ absent (owner_keys "m" pods) (cache sample_notifier)
  /\ posts (exec (message_owners "m" pods) (sample_notifier, sample_world))
     = [requests_post (owner_request (Some "xoxb-token") "alice" "m"
                         [sample_pod "id1" (Some "alice"); sample_pod "id3" (Some "alice")]);
        requests_post (owner_request (Some "xoxb-token") "bob" "m"
                         [sample_pod "id2" (Some "bob")])].
Proof.
  cbv zeta.
  assert (H1 : truthy (bot_token sample_notifier) = true) by reflexivity.
  assert (H2 : caught sample_world) by exact sample_world_caught.
  assert (H3 : NoDup (owner_keys "m" [sample_pod "id1" (Some "alice");
                                      sample_pod "id2" (Some "bob");
                                      sample_pod "id3" (Some "alice")])).
  { vm_compute. constructor; [intros [H | []]; discriminate H |].
    constructor; [intros [] | constructor]. }
  assert (H4 : absent (owner_keys "m" [sample_pod "id1" (Some "alice");
                                       sample_pod "id2" (Some "bob");
                                       sample_pod "id3" (Some "alice")])
                      (cache sample_notifier)) by (intros l []).
  split; [exact H1 | split; [exact H2 | split; [exact H3 | split; [exact H4 |]]]].
  exact (proj2 (message_owners_sends_each_owner "m" _ sample_notifier sample_world
                  H1 H2 H3 H4)).
Defined.

Lemma kept_same_expiry (k : string) (e e' : Z) (n n' : nat) (c : TTLCache.t) :
  kept k e n c -> kept k e' n' c -> e = e'.
Proof. intros [H _] [H' _]. rewrite H in H'. now injection H'. Qed.

Lemma for_each_message_owner_clock (text : string) (d : list (string * list Pod))
  (s : State) :
  clock (snd s)
  <= clock (snd (exec (for_each d (fun '(owner, pods) => message_owner owner text pods)) s)).
Proof.
  assert (Hbody : forall (x : string * list Pod) (s' : State),
             clock (snd s) <= clock (snd s') ->
             clock (snd s)
             <= clock (snd (exec ((fun '(owner, pods) => message_owner owner text pods) x)
                                 s'))).
  { intros [o b] s' Hs'. pose proof (message_owner_clock o text b s'). lia. }
  exact (for_each_keeps (fun s' => clock (snd s) <= clock (snd s')) _ d Hbody s
           (Z.le_refl _)).
Qed.

(** The loop of [message_owners] over no more batches than the cache has
    room for: at its end the keys stored before it, and those of its
    batches, are all in the cache. *)
Lemma for_each_keeps_keys (text : string) (d : list (string * list Pod))
  (self : Notifier) (w : World) (B : Z) (ks : list string) :
  caught w ->
  NoDup (map (batch_key text) d) ->
  absent (map (batch_key text) d) (cache self) ->
  (List.length ks + List.length d <= TTLCache.maxsize (cache self))%nat ->
  B <= clock w + TTLCache.ttl (cache self) ->
  (forall k, In k ks ->
     exists e n, kept k e n (cache self) /\ B <= e /\ (n + 1 <= List.length ks)%nat) ->
  clock (snd (exec (for_each d (fun '(owner, pods) => message_owner owner text pods))
                   (self, w))) < B ->
  exists self' w',
    for_each d (fun '(owner, pods) => message_owner owner text pods) self w
    = (Return tt, self', w')
    /\ bot_token self' = bot_token self
    /\ (forall k, In k (ks ++ map (batch_key text) d) ->
          exists e n, kept k e n (cache self') /\ B <= e).
Proof.
  revert self w ks. induction d as [| [o b] d IH]; intros self w ks Hc Hnd Habs Hroom HB Hks Hend.
  - exists self, w. split; [reflexivity | split; [reflexivity |]].
    intros k Hk. rewrite app_nil_r in Hk.
    destruct (Hks k Hk) as (e & n & H1 & H2 & _). eauto.
  - cbn [for_each map List.length] in *. inversion Hnd as [| ? ? Hk Hnd']; subst.
    set (k := batch_key text (o, b)) in *.
    assert (Hlive : TTLCache.live (cache self) (_cache_key self o text b) (clock w) = false).
    { apply (absent_live _ _ _ _ Habs). left. reflexivity. }
    destruct (message_owner_miss o text b self w Hlive) as (_ & _ & Hm1 & Ht1 & Hstore).
    pose proof (message_owner_links o text b self w) as Hlinks.
    pose proof (message_owner_clock o text b (self, w)) as Hclk.
    assert (Hother : forall k' e n, k' <> k -> kept k' e n (cache self) ->
               (n + 2 <= TTLCache.maxsize (cache self))%nat ->
               clock (snd (exec (message_owner o text b) (self, w))) < e ->
               kept k' e (S n) (cache (fst (exec (message_owner o text b) (self, w))))).
    { intros k' e n Hne Hkept Hn Hlt.
      apply (message_owner_other o text b self w k' e n); auto. }
    destruct (message_owner_returns o text b self w Hc)
      as (self1 & w1 & Heq & Hn1 & _ & Htok1).
    assert (Hres : result (message_owner o text b) (self, w) = Return tt)
      by (unfold result; simpl fst; simpl snd; now rewrite Heq).
    destruct Hstore as [Hnew _]; [lia | exact Hres |].
    unfold exec in Hm1, Ht1, Hnew, Hlinks, Hclk, Hother, Hend.
    simpl fst in *; simpl snd in *.
    unfold bind in Hend. rewrite Heq in *. simpl fst in *; simpl snd in *.
    pose proof (for_each_message_owner_clock text d (self1, w1)) as Hclk2.
    unfold exec in Hclk2. simpl fst in Hclk2; simpl snd in Hclk2.
    unfold bind. rewrite Heq.
    destruct (IH self1 w1 (ks ++ [k])%list (caught_network _ _ Hn1 Hc) Hnd')
      as (self2 & w2 & -> & Htok2 & Hall).
    + intros l Hin Hkey. destruct (Hlinks l Hin) as [Hold | Hnewk].
      * apply (Habs l Hold). now right.
      * apply Hk. rewrite batch_key_eq in Hnewk. fold k in Hnewk. now rewrite <- Hnewk.
    + rewrite length_app, Hm1. simpl. lia.
    + rewrite Ht1. lia.
    + intros k' Hin. rewrite length_app. simpl.
      apply in_app_or in Hin. destruct Hin as [Hin | [<- | []]].
      * destruct (Hks k' Hin) as (e & n & Hkept & HBe & Hn).
        exists e, (S n). split; [| split; [exact HBe | lia]].
        apply Hother; [| exact Hkept | lia | lia].
        intros ->. destruct Hkept as [Hg _]. apply getlink_key in Hg.
        destruct Hg as [Hkey Hinl]. apply (Habs _ Hinl). rewrite Hkey. now left.
      * exists (clock w1 + TTLCache.ttl (cache self)), 0%nat.
        split; [exact Hnew | split; [lia | lia]].
    + exact Hend.
    + exists self2, w2. split; [reflexivity | split; [congruence |]].
      intros k' Hin. apply Hall. rewrite <- app_assoc. exact Hin.
Qed.

(** The loop of [message_owners] over batches whose keys are all in the
    cache, none expired: nothing is sent and nothing is logged. *)
Lemma for_each_all_hits (text : string) (d : list (string * list Pod))
  (self : Notifier) (w : World) :
  (forall ob, In ob d ->
     exists e n, kept (batch_key text ob) e n (cache self) /\ clock w < e) ->
  exists self',
    for_each d (fun '(owner, pods) => message_owner owner text pods) self w
    = (Return tt, self', w).
Proof.
  revert self. induction d as [| [o b] d IH]; intros self Hall.
  - exists self. reflexivity.
  - cbn [for_each]. unfold bind. rewrite message_owner_eq. cbv zeta.
    destruct (Hall (o, b) (or_introl eq_refl)) as (e & n & Hk & Ht).
    rewrite (batch_key_eq self) .
    destruct (getitem_same _ _ _ _ _ Hk Ht) as (Hv & Hk0 & _).
    assert (Hrest : forall ob, In ob d ->
               exists e' n', kept (batch_key text ob) e' n'
                               (snd (TTLCache.getitem (cache self) (batch_key text (o, b))
                                       (clock w)))
                             /\ clock w < e').
    { intros ob Hin. destruct (Hall ob (or_intror Hin)) as (e' & n' & Hk' & Ht').
      destruct (string_dec (batch_key text (o, b)) (batch_key text ob)) as [E | E].
      - rewrite <- E. exists e, 0%nat. split; [exact Hk0 | exact Ht].
      - destruct (getitem_other (cache self) (batch_key text ob) (batch_key text (o, b))
                    e' (clock w) n' E Hk') as (Hk'' & _). eauto. }
    destruct (TTLCache.getitem _ _ _) as [v c1]. simpl in Hv, Hrest. subst v.
    destruct (IH (set_cache self c1) Hrest) as (self' & ->).
    exists self'. reflexivity.
Qed.

(** X9: [message_owners] called again for the same message and the same
    pods, less than 1800 seconds after the first call began, sends
    nothing and logs nothing, when the first call found none of the keys
    in the cache, the keys of the batches differ, and there are at most
    128 owners (with a bot token, on a network whose exceptions
    [message_owner] catches). *)
Theorem message_owners_again_sends_nothing
  (text : string) (pods : list Pod) (self : Notifier) (w : World) (d : N) :
  let s1 := exec (message_owners text pods) (self, w) in
  as_init self ->
  truthy (bot_token self) = true ->
  caught w ->
  (List.length (pods_by_owner pods) <= 128)%nat ->
  NoDup (owner_keys text pods) ->
  absent (owner_keys text pods) (cache self) ->
  clock (snd s1) + Z.of_N d < clock w + 1800 ->
  result (message_owners text pods) (wait d s1) = Return tt
  /\ snd (exec (message_owners text pods) (wait d s1)) = snd (wait d s1).
Proof.
  cbv zeta. intros [Hm Httl] Htok Hc Hlen Hnd Habs Hlt.
  pose proof (N2Z.is_nonneg d) as Hd.
  assert (Hfirst : message_owners text pods self w
                   = for_each (pods_by_owner pods)
                       (fun '(owner, pods) => message_owner owner text pods) self w)
    by (now rewrite message_owners_eq, Htok).
  unfold exec in Hlt. simpl fst in Hlt; simpl snd in Hlt. rewrite Hfirst in Hlt.
  destruct (for_each_keeps_keys text (pods_by_owner pods) self w (clock w + 1800) []
              Hc Hnd Habs) as (self1 & w1 & Heq & Htok1 & Hall).
  - simpl. lia.
  - lia.
  - intros k [].
  - unfold exec. simpl fst; simpl snd. lia.
  - rewrite Heq in Hlt. simpl snd in Hlt.
    unfold result, exec. simpl fst; simpl snd. rewrite Hfirst, Heq.
    unfold wait. simpl fst; simpl snd.
    rewrite message_owners_eq, Htok1, Htok.
    destruct (for_each_all_hits text (pods_by_owner pods) self1
                {| network := network w1; clock := clock w1 + Z.of_N d;
                   trace := trace w1 |}) as (self2 & ->).
    + intros ob Hin. destruct (Hall (batch_key text ob)) as (e & n & Hk & HB).
      { simpl. now apply in_map. }
      exists e, n. split; [exact Hk | simpl; lia].
    + split; reflexivity.
Qed.

Lemma sample_pods3_keys : NoDup (owner_keys "m" sample_pods3).
Proof.
  vm_compute. constructor; [intros [H | []]; discriminate H |].
  constructor; [intros [] | constructor].
Qed.

Lemma message_owners_again_sends_nothing_witness :
  let s1 := exec (message_owners "m" sample_pods3) (sample_notifier, sample_world) in
  as_init sample_notifier
  /\ truthy (bot_token sample_notifier) = true
  /\ caught sample_world
  /\ (List.length (pods_by_owner sample_pods3) <= 128)%nat
  /\ NoDup (owner_keys "m" sample_pods3)
  /\ absent (owner_keys "m" sample_pods3) (cache sample_notifier)
  /\ clock (snd s1) + Z.of_N 600 < clock sample_world + 1800
  /\ result (message_owners "m" sample_pods3) (wait 600 s1) = Return tt
  /\ snd (exec (message_owners "m" sample_pods3) (wait 600 s1)) = snd (wait 600 s1).
Proof.
  cbv zeta.
  assert (H1 : as_init sample_notifier) by (split; reflexivity).
  assert (H2 : truthy (bot_token sample_notifier) = true) by reflexivity.
  assert (H3 : caught sample_world) by exact sample_world_caught.
  assert (H4 : (List.length (pods_by_owner sample_pods3) <= 128)%nat)
    by (apply Nat.leb_le; vm_compute; reflexivity).
  assert (H5 : NoDup (owner_keys "m" sample_pods3)) by exact sample_pods3_keys.
  assert (H6 : absent (owner_keys "m" sample_pods3) (cache sample_notifier))
    by (intros l []).
  assert (H7 : clock (snd (exec (message_owners "m" sample_pods3)
                                (sample_notifier, sample_world))) + Z.of_N 600
               < clock sample_world + 1800)
    by (apply Z.ltb_lt; vm_compute; reflexivity).
  split; [exact H1 | split; [exact H2 | split; [exact H3 | split; [exact H4 |
    split; [exact H5 | split; [exact H6 | split; [exact H7 |]]]]]]].
  exact (message_owners_again_sends_nothing "m" sample_pods3 sample_notifier sample_world
           600 H1 H2 H3 H4 H5 H6 H7).
Defined.

(** ** A notification, once and again *)

Lemma post_hook_caught (url text : string) (self : Notifier) (w : World) :
  caught w ->
  exists log,
    post_hook url text self w
    = (Return tt, self, logged [log] (requested (hook_request url text) w))
    /\ is_post log = false.
Proof.
  intros Hc. rewrite post_hook_eq. unfold reply.
  destruct (response _) as [t | e] eqn:E.
  - eexists. split; reflexivity.
  - apply Hc in E. simpl in E. rewrite E. eexists. split; reflexivity.
Qed.

Lemma message_owner_config (owner text : string) (pods : list Pod) (s : State) :
  hook (fst (exec (message_owner owner text pods) s)) = hook (fst s)
  /\ bot_token (fst (exec (message_owner owner text pods) s)) = bot_token (fst s).
Proof.
  destruct s as [self w]. unfold exec. simpl fst; simpl snd.
  rewrite message_owner_eq. cbv zeta.
  destruct (TTLCache.getitem _ _ _) as [[[] |] c1]; [split; reflexivity |].
  outcomes; split; reflexivity.
Qed.

Lemma for_each_message_owner_config (text : string) (d : list (string * list Pod))
  (s : State) :
  hook (fst (exec (for_each d (fun '(owner, pods) => message_owner owner text pods)) s))
  = hook (fst s)
  /\ bot_token (fst (exec (for_each d (fun '(owner, pods) => message_owner owner text pods))
                         s))
     = bot_token (fst s).
Proof.
  assert (Hbody : forall (x : string * list Pod) (s' : State),
             hook (fst s') = hook (fst s) /\ bot_token (fst s') = bot_token (fst s) ->
             hook (fst (exec ((fun '(owner, pods) => message_owner owner text pods) x) s'))
             = hook (fst s)
             /\ bot_token (fst (exec ((fun '(owner, pods) => message_owner owner text pods) x)
                                    s'))
                = bot_token (fst s)).
  { intros [o b] s' [Hh Ht]. destruct (message_owner_config o text b s') as [Hh' Ht'].
    split; congruence. }
  exact (for_each_keeps (fun s' => hook (fst s') = hook (fst s)
                                   /\ bot_token (fst s') = bot_token (fst s))
           _ d Hbody s (conj eq_refl eq_refl)).
Qed.

Lemma broadcast_done_posts (n : Notification) (self : Notifier) (log : Event)
  (w : World) :
  is_post log = false ->
  posts (self, broadcast_done n self log w)
  = (posts (self, w)
     ++ [requests_post (hook_request (value_of (hook self)) (broadcast_text n))])%list.
Proof.
  intros Hlog. destruct (struct_records_length n) as [_ Hrec].
  unfold posts, broadcast_done, logged, requested. cbn [snd trace].
  rewrite !filter_app, Hrec. cbn [filter is_post]. rewrite Hlog.
  now rewrite !app_nil_r.
Qed.

(** With a web hook and a bot token, on a network whose exceptions the
    call sites catch, a notification for owners is its records, its
    broadcast with one line of log, and the loop over the owners. *)
Lemma notify_with_hook (n : Notification) (text : string) (self : Notifier) (w : World) :
  owners_text n = Some text ->
  truthy (hook self) = true ->
  truthy (bot_token self) = true ->
  caught w ->
  exists log,
    is_post log = false
    /\ notify n self w
       = for_each (pods_by_owner (affected n))
           (fun '(owner, pods) => message_owner owner text pods)
           self (broadcast_done n self log w).
Proof.
  intros Htext Hhook Htok Hc.
  destruct (post_hook_caught (value_of (hook self)) (broadcast_text n) self
              (logged (struct_records n) w)) as (log & Hpost & Hlog);
    [eapply caught_network; [| exact Hc]; reflexivity |].
  exists log. split; [exact Hlog |].
  rewrite notify_eq. cbv zeta. rewrite Hhook, Hpost, Htext.
  now rewrite message_owners_eq, Htok.
Qed.

(** X10: a notification of a scale-up, of a failure to scale or of an
    invalid capacity that is sent a second time, and ends less than 1800
    seconds after the first began, writes its records and its broadcast
    again and sends no owner a second message: this, with a web hook and a
    bot token, on a network whose exceptions the call sites catch, for at
    most 128 owners whose keys differ and were not in the cache. *)
Theorem notify_again_spares_owners
  (n : Notification) (text : string) (self : Notifier) (w : World) (d : N) :
  let s1 := exec (notify n) (self, w) in
  let s2 := exec (notify n) (wait d s1) in
  let req := requests_post (hook_request (value_of (hook self)) (broadcast_text n)) in
  owners_text n = Some text ->
  as_init self ->
  truthy (hook self) = true ->
  truthy (bot_token self) = true ->
  caught w ->
  (List.length (pods_by_owner (affected n)) <= 128)%nat ->
  NoDup (owner_keys text (affected n)) ->
  absent (owner_keys text (affected n)) (cache self) ->
  clock (snd s2) < clock w + 1800 ->
  posts s1 = (posts (self, w) ++ req :: owner_requests (bot_token self) text (affected n))%list
  /\ result (notify n) (wait d s1) = Return tt
  /\ exists log,
       is_post log = false
       /\ trace (snd s2) = (trace (snd s1) ++ struct_records n ++ [req; log])%list.
Proof.
  cbv zeta. intros Htext [Hm Httl] Hhook Htok Hc Hlen Hnd Habs Hlt.
  pose proof (N2Z.is_nonneg d) as Hd.
  destruct (struct_records_length n) as [_ Hrec].
  (* the first notification *)
  destruct (notify_with_hook n text self w Htext Hhook Htok Hc) as (log1 & Hlog1 & Hn1).
  set (wA := broadcast_done n self log1 w) in *.
  assert (HcA : caught wA) by (eapply caught_network; [| exact Hc]; reflexivity).
  assert (HclkA : clock w <= clock wA) by (unfold wA, broadcast_done; simpl; lia).
  destruct (for_each_sends_all text (pods_by_owner (affected n)) self wA HcA Hnd Habs)
    as (self1 & wB & HeqB & HpostsB).
  destruct (for_each_message_owner_returns text (pods_by_owner (affected n)) self wA HcA)
    as (self1' & wB' & HeqB' & HnetB).
  rewrite HeqB in HeqB'. injection HeqB' as <- <-.
  destruct (for_each_message_owner_config text (pods_by_owner (affected n)) (self, wA))
    as [Hh1 Ht1].
  pose proof (for_each_message_owner_clock text (pods_by_owner (affected n)) (self, wA))
    as HclkB.
  unfold exec in Hh1, Ht1, HclkB. simpl fst in Hh1, Ht1, HclkB; simpl snd in Hh1, Ht1, HclkB.
  rewrite HeqB in Hh1, Ht1, HclkB. simpl fst in Hh1, Ht1; simpl snd in HclkB.
  assert (Hs1 : exec (notify n) (self, w) = (self1, wB)).
  { unfold exec. simpl fst; simpl snd. now rewrite Hn1, HeqB. }
  rewrite Hs1 in *.
  (* the second notification *)
  set (w0 := snd (wait d (self1, wB))) in *.
  assert (Hc0 : caught w0) by (eapply caught_network; [| exact Hc]; exact HnetB).
  destruct (notify_with_hook n text self1 w0 Htext) as (log2 & Hlog2 & Hn2);
    [congruence | congruence | exact Hc0 |].
  set (w2 := broadcast_done n self1 log2 w0) in *.
  pose proof (for_each_message_owner_clock text (pods_by_owner (affected n)) (self1, w2))
    as Hclk2.
  assert (Hw2 : clock wB <= clock w2) by (unfold w2, broadcast_done, w0, wait; simpl; lia).
  assert (Hs2 : exec (notify n) (wait d (self1, wB))
                = exec (for_each (pods_by_owner (affected n))
                          (fun '(owner, pods) => message_owner owner text pods))
                       (self1, w2)).
  { unfold exec. change (fst (wait d (self1, wB))) with self1.
    change (snd (wait d (self1, wB))) with w0. cbn [fst snd]. now rewrite Hn2. }
  rewrite Hs2 in Hlt. cbn [snd] in Hclk2.
  destruct (for_each_keeps_keys text (pods_by_owner (affected n)) self wA
              (clock w + 1800) [] HcA Hnd Habs) as (self1' & wB' & Heq' & _ & Hall).
  { simpl. lia. }
  { lia. }
  { intros k []. }
  { unfold exec. cbn [fst snd]. rewrite HeqB. cbn [snd]. cbn [snd] in Hclk2. lia. }
  rewrite HeqB in Heq'. injection Heq' as <- <-.
  destruct (for_each_all_hits text (pods_by_owner (affected n)) self1 w2) as (self2 & Hhits).
  { intros ob Hin. destruct (Hall (batch_key text ob)) as (e & m & Hk & HB);
      [simpl; now apply in_map |].
    exists e, m. split; [exact Hk | lia]. }
  split; [| split].
  - rewrite HpostsB. unfold wA. rewrite (broadcast_done_posts n self log1 w Hlog1).
    now rewrite <- app_assoc.
  - unfold result. change (fst (wait d (self1, wB))) with self1.
    change (snd (wait d (self1, wB))) with w0.
    now rewrite Hn2, Hhits.
  - exists log2. split; [exact Hlog2 |].
    rewrite Hs2. unfold exec. cbn [fst snd].
    rewrite Hhits. cbn [snd]. unfold w2, broadcast_done, logged, requested. simpl.
    rewrite Hh1, <- !app_assoc. reflexivity.
Qed.

Lemma sample_scale_keys :
  NoDup (owner_keys "ASG asg-1[us-east-1] scaling up" sample_pods3).
Proof.
  vm_compute. constructor; [intros [H | []]; discriminate H |].
  constructor; [intros [] | constructor].
Qed.

Lemma notify_again_spares_owners_witness :
  let n := Scale sample_asg 3 sample_pods3 in
  let text := "ASG asg-1[us-east-1] scaling up" in
  let s1 := exec (notify n) (sample_notifier, sample_world) in
  let s2 := exec (notify n) (wait 600 s1) in
  let req := requests_post (hook_request (value_of (hook sample_notifier))
                                         (broadcast_text n)) in
  owners_text n = Some text
  /\ as_init sample_notifier
  /\ truthy (hook sample_notifier) = true
  /\ truthy (bot_token sample_notifier) = true
  /\ caught sample_world
  /\ (List.length (pods_by_owner (affected n)) <= 128)%nat
  /\ NoDup (owner_keys text (affected n))
  /\ absent (owner_keys text (affected n)) (cache sample_notifier)
  /\ clock (snd s2) < clock sample_world + 1800
  /\ posts s1
     = (posts (sample_notifier, sample_world)
        ++ req :: owner_requests (bot_token sample_notifier) text (affected n))%list
  /\ result (notify n) (wait 600 s1) = Return tt
  /\ exists log,
       is_post log = false
       /\ trace (snd s2) = (trace (snd s1) ++ struct_records n ++ [req; log])%list.
Proof.
  cbv zeta.
  assert (H0 : owners_text (Scale sample_asg 3 sample_pods3)
               = Some "ASG asg-1[us-east-1] scaling up") by reflexivity.
  assert (H1 : as_init sample_notifier) by (split; reflexivity).
  assert (H2 : truthy (hook sample_notifier) = true) by reflexivity.
  assert (H3 : truthy (bot_token sample_notifier) = true) by reflexivity.
  assert (H4 : caught sample_world) by exact sample_world_caught.
  assert (H5 : (List.length (pods_by_owner (affected (Scale sample_asg 3 sample_pods3)))
                <= 128)%nat)
    by (apply Nat.leb_le; vm_compute; reflexivity).
  assert (H6 : NoDup (owner_keys "ASG asg-1[us-east-1] scaling up"
                        (affected (Scale sample_asg 3 sample_pods3))))
    by exact sample_scale_keys.
  assert (H7 : absent (owner_keys "ASG asg-1[us-east-1] scaling up"
                         (affected (Scale sample_asg 3 sample_pods3)))
                      (cache sample_notifier))
    by (intros l []).
  assert (H8 : clock (snd (exec (notify (Scale sample_asg 3 sample_pods3))
                             (wait 600 (exec (notify (Scale sample_asg 3 sample_pods3))
                                             (sample_notifier, sample_world)))))
               < clock sample_world + 1800)
    by (apply Z.ltb_lt; vm_compute; reflexivity).
  split; [exact H0 | split; [exact H1 | split; [exact H2 | split; [exact H3 |
    split; [exact H4 | split; [exact H5 | split; [exact H6 | split; [exact H7 |
    split; [exact H8 |]]]]]]]]].
  exact (notify_again_spares_owners (Scale sample_asg 3 sample_pods3)
           "ASG asg-1[us-east-1] scaling up" sample_notifier sample_world 600
           H0 H1 H2 H3 H4 H5 H6 H7 H8).
Defined.

(** ** An exception that [message_owner] does not catch *)

(** X11: when the key of a call of [message_owner] is not in the cache, or
    has expired, and the request ends in an exception that is no
    [RequestException], the call raises that exception after the request,
    logs nothing and stores nothing: the key is in the cache no more than
    before. [message_owners] then raises it too, and the owners that come
    after get no message. *)
Theorem message_owner_raise_not_recorded
  (owner text : string) (pods : list Pod) (self : Notifier) (w : World) (e : exception) :
  let k := _cache_key self owner text pods in
  let req := owner_request (bot_token self) owner text pods in
  let s' := exec (message_owner owner text pods) (self, w) in
  TTLCache.live (cache self) k (clock w) = false ->
  reply req w = inr e ->
  isinstance_RequestException e = false ->
  result (message_owner owner text pods) (self, w) = Raise e
  /\ trace (snd s') = (trace w ++ [requests_post req])%list
  /\ (forall t, clock w <= t -> TTLCache.live (cache (fst s')) k t = false)
  /\ forall (all : list Pod) (rest : list (string * list Pod)),
       truthy (bot_token self) = true ->
       pods_by_owner all = (owner, pods) :: rest ->
       result (message_owners text all) (self, w) = Raise e
       /\ trace (snd (exec (message_owners text all) (self, w)))
          = (trace w ++ [requests_post req])%list.
Proof.
  cbv zeta. intros Hlive Hreply He.
  assert (Hcall : message_owner owner text pods self w
                  = (Raise e,
                     set_cache self
                       (snd (TTLCache.getitem (cache self)
                               (_cache_key self owner text pods) (clock w))),
                     requested (owner_request (bot_token self) owner text pods) w)).
  { rewrite message_owner_eq. cbv zeta.
    pose proof (live_getitem (cache self) (_cache_key self owner text pods) (clock w))
      as Hg.
    rewrite Hlive in Hg.
    destruct (TTLCache.getitem _ _ _) as [[[] |] c]; [discriminate Hg |].
    now rewrite Hreply, He. }
  split; [| split; [| split]].
  - unfold result. cbn [fst snd]. now rewrite Hcall.
  - unfold exec. cbn [fst snd]. now rewrite Hcall.
  - intros t Ht. unfold exec. cbn [fst snd]. rewrite Hcall. cbn [fst].
    rewrite set_cache_cache. now apply getitem_miss_stays.
  - intros all rest Htok Hall.
    assert (Hloop : message_owners text all self w
                    = (Raise e,
                       set_cache self
                         (snd (TTLCache.getitem (cache self)
                                 (_cache_key self owner text pods) (clock w))),
                       requested (owner_request (bot_token self) owner text pods) w)).
    { rewrite message_owners_eq, Htok, Hall. cbn [for_each]. unfold bind.
      now rewrite Hcall. }
    unfold result, exec. cbn [fst snd]. now rewrite Hloop.
Qed.

Lemma message_owner_raise_not_recorded_witness :
  let k := _cache_key sample_notifier "alice" "m" sample_pods in
  let req := owner_request (bot_token sample_notifier) "alice" "m" sample_pods in
  let s' := exec (message_owner "alice" "m" sample_pods)
                 (sample_notifier, interrupted_world) in
  TTLCache.live (cache sample_notifier) k (clock interrupted_world) = false
  /\ reply req interrupted_world = inr interrupted
  /\ isinstance_RequestException interrupted = false
  /\ result (message_owner "alice" "m" sample_pods) (sample_notifier, interrupted_world)
     = Raise interrupted
  /\ trace (snd s') = (trace interrupted_world ++ [requests_post req])%list.
Proof.
  cbv zeta.
  assert (H1 : TTLCache.live (cache sample_notifier)
                 (_cache_key sample_notifier "alice" "m" sample_pods)
                 (clock interrupted_world) = false) by reflexivity.
  assert (H2 : reply (owner_request (bot_token sample_notifier) "alice" "m" sample_pods)
                     interrupted_world = inr interrupted) by reflexivity.
  assert (H3 : isinstance_RequestException interrupted = false) by reflexivity.
  split; [exact H1 | split; [exact H2 | split; [exact H3 |]]].
  destruct (message_owner_raise_not_recorded "alice" "m" sample_pods sample_notifier
              interrupted_world interrupted H1 H2 H3) as (Hr & Ht & _).
  split; [exact Hr | exact Ht].
Defined.

(** ** A notifier without a bot token *)

(** X12: with a web hook and no bot token, on a network whose exceptions
    the call sites catch, a notification returns after its records, its
    broadcast and the line that logs the outcome of the broadcast; one that
    has messages for owners then logs that the bot token is not configured.
    The broadcast is its only request, and the notifier and its cache are as
    before. *)
Theorem notify_without_token (n : Notification) (self : Notifier) (w : World) :
  truthy (hook self) = true ->
  truthy (bot_token self) = false ->
  caught w ->
  exists log,
    is_post log = false
    /\ result (notify n) (self, w) = Return tt
    /\ exec (notify n) (self, w)
       = (self, logged (token_missing n) (broadcast_done n self log w))
    /\ posts (exec (notify n) (self, w))
       = (posts (self, w)
          ++ [requests_post (hook_request (value_of (hook self)) (broadcast_text n))])%list.
Proof.
  intros Hhook Htok Hc.
  destruct (post_hook_caught (value_of (hook self)) (broadcast_text n) self
              (logged (struct_records n) w)) as (log & Hpost & Hlog);
    [eapply caught_network; [| exact Hc]; reflexivity |].
  exists log.
  assert (Hn : notify n self w
               = (Return tt, self, logged (token_missing n) (broadcast_done n self log w))).
  { rewrite notify_eq. cbv zeta. rewrite Hhook, Hpost. unfold token_missing.
    destruct (owners_text n) as [text |].
    - now rewrite message_owners_eq, Htok.
    - unfold broadcast_done, logged. cbn [network clock trace].
      now rewrite app_nil_r. }
  assert (He : exec (notify n) (self, w)
               = (self, logged (token_missing n) (broadcast_done n self log w))).
  { unfold exec. cbn [fst snd]. now rewrite Hn. }
  split; [exact Hlog | split; [| split; [exact He |]]].
  - unfold result. cbn [fst snd]. now rewrite Hn.
  - rewrite He, <- (broadcast_done_posts n self log w Hlog).
    unfold posts, logged. cbn [snd trace]. rewrite filter_app.
    unfold token_missing. destruct (owners_text n); cbn [filter is_post];
      now rewrite app_nil_r.
Qed.

Lemma notify_without_token_witness :
  truthy (hook tokenless_notifier) = true
  /\ truthy (bot_token tokenless_notifier) = false
  /\ caught sample_world
  /\ exists log,
       is_post log = false
       /\ result (notify (Scale sample_asg 3 sample_pods3))
                 (tokenless_notifier, sample_world) = Return tt
       /\ exec (notify (Scale sample_asg 3 sample_pods3)) (tokenless_notifier, sample_world)
          = (tokenless_notifier,
             logged (token_missing (Scale sample_asg 3 sample_pods3))
                    (broadcast_done (Scale sample_asg 3 sample_pods3) tokenless_notifier
                                    log sample_world)).
Proof.
  assert (H1 : truthy (hook tokenless_notifier) = true) by reflexivity.
  assert (H2 : truthy (bot_token tokenless_notifier) = false) by reflexivity.
  assert (H3 : caught sample_world) by exact sample_world_caught.
  split; [exact H1 | split; [exact H2 | split; [exact H3 |]]].
  destruct (notify_without_token (Scale sample_asg 3 sample_pods3) tokenless_notifier
              sample_world H1 H2 H3) as (log & Hlog & Hr & He & _).
  exists log. split; [exact Hlog | split; [exact Hr | exact He]].
Defined.
